(** * mongobackup: snapshot, retention and restore

    A shallow embedding of the backup scripts ([src/index.js]) and of the
    restore scripts ([src/restore.js] and its variant without identifier
    reconstruction), with the properties of the backup lifecycle proved
    on the embedding.

    Conventions of the model.
    - A JavaScript value is a tree ([jsval]); the leaves that are native
      [ObjectId] instances are a parameter of the tree type, so that a
      value produced by [JSON.parse] ([json]) contains none of them and
      a database document ([doc]) may contain them.
    - A JavaScript object is the list of its own enumerable properties
      in [Object.entries] order; the keys of such a list are distinct.
    - A string is the sequence of its code units; every string the code
      inspects character by character (hexadecimal text, decimal text,
      separators) is ASCII.
    - An exception is a value of [exn] carried by [result]. *)

From Stdlib Require Import ZArith List String Ascii Bool Lia.
From Stdlib.Strings Require Import Byte.
From Stdlib Require Import SpecFloat DecimalString DecimalPos.
From stdpp Require Import base option gmap strings sorting.
Import ListNotations.

Set Warnings "-register-all".

Local Open Scope string_scope.
Local Open Scope list_scope.

(** ** Exceptions *)

Inductive exn : Type :=
| BSONError            (* thrown by [new ObjectId(x)] *)
| MongoNetworkError    (* [client.connect()] or a command cannot reach the server *)
| MongoServerError     (* a command is rejected by the server *)
| MongoBulkWriteError  (* [insertMany]: at least one document was not written *)
| MongoInvalidArgument (* [insertMany([])] *)
| SystemError.         (* a failing [fs] call *)

Inductive result (A : Type) : Type :=
| Ok (a : A)
| Throw (e : exn).
Arguments Ok {A} a.
Arguments Throw {A} e.

#[global] Instance result_ret : MRet result := fun A a => Ok a.
#[global] Instance result_bind : MBind result := fun A B f m =>
  match m with
  | Ok a => f a
  | Throw e => Throw e
  end.
#[global] Instance result_fmap : FMap result := fun A B f m =>
  match m with
  | Ok a => Ok (f a)
  | Throw e => Throw e
  end.

Definition is_Ok {A} (r : result A) : bool :=
  match r with Ok _ => true | Throw _ => false end.

(** ** Effects

    A script step acts on a world [W] (file system, database,
    connection, console) and either returns or throws; the world
    reached is kept in both cases. *)

Definition io (W A : Type) : Type := W → result A * W.

#[global] Instance io_ret {W} : MRet (io W) := fun A a w => (Ok a, w).
#[global] Instance io_bind {W} : MBind (io W) := fun A B f m w =>
  match m w with
  | (Ok a, w') => f a w'
  | (Throw e, w') => (Throw e, w')
  end.

Definition throw {W A} (e : exn) : io W A := fun w => (Throw e, w).

(** [try { body } catch (error) { handler(error) }]. *)
Definition try_catch {W A} (body : io W A) (handler : exn → io W A) : io W A :=
  fun w =>
    match body w with
    | (Ok a, w') => (Ok a, w')
    | (Throw e, w') => handler e w'
    end.

(** [try { body } finally { cleanup }]. *)
Definition try_finally {W A} (body : io W A) (cleanup : io W unit) : io W A :=
  fun w =>
    let '(r, w1) := body w in
    match cleanup w1 with
    | (Ok _, w2) => (r, w2)
    | (Throw e, w2) => (Throw e, w2)
    end.

(** [for (const x of xs) { body(x) }]. *)
Fixpoint for_of {W A} (xs : list A) (body : A → io W unit) : io W unit :=
  match xs with
  | [] => mret ()
  | x :: rest => body x ≫= fun _ => for_of rest body
  end.

(** ** JavaScript strings *)

Module Str.

Local Open Scope string_scope.

(** [s.endsWith(suffix)]. *)
Definition endsWith (s suffix : string) : bool :=
  let n := String.length s in
  let m := String.length suffix in
  (m <=? n)%nat && String.eqb (String.substring (n - m) m s) suffix.

Lemma append_cons c (x y : string) : String c x ++ y = String c (x ++ y).
Proof. reflexivity. Qed.

Lemma append_assoc (x y z : string) : (x ++ y) ++ z = x ++ y ++ z.
Proof. induction x as [|c x IH]; [done|]. by rewrite !append_cons, IH. Qed.

Lemma compare_app_same p x y :
  String.compare (p ++ x) (p ++ y) = String.compare x y.
Proof.
  induction p as [|c p IH]; [done|]. rewrite !append_cons. cbn [String.compare].
  unfold Ascii.compare. by rewrite N.compare_refl.
Qed.

Lemma compare_app_lt x y s t :
  String.length x = String.length y →
  String.compare x y = Lt → String.compare (x ++ s) (y ++ t) = Lt.
Proof.
  revert y. induction x as [|c x IH]; intros [|d y]; try done.
  rewrite !append_cons. cbn [String.compare String.length].
  intros [= Hlen]. destruct (Ascii.compare c d); [by apply IH | done | done].
Qed.

Lemma length_append (x y : string) :
  String.length (x ++ y) = String.length x + String.length y.
Proof.
  induction x as [|c x IH]; [done|].
  rewrite append_cons. cbn [String.length]. by rewrite IH.
Qed.

End Str.

(** ** Values *)

Module Codec.

(** [ObjectId]: twelve bytes, rendered as 24 lowercase hexadecimal
    characters by [toHexString] (which is also its [toJSON]). *)
Abbreviation ObjectId := (list byte) (only parsing).

Inductive jsval (I : Type) : Type :=
| JUndefined
| JNull
| JBool (b : bool)
| JNum (n : spec_float)
| JStr (s : string)
| JId (i : I)
| JArr (items : list (jsval I))
| JObj (entries : list (string * jsval I)).
Arguments JUndefined {I}.
Arguments JNull {I}.
Arguments JBool {I} b.
Arguments JNum {I} n.
Arguments JStr {I} s.
Arguments JId {I} i.
Arguments JArr {I} items.
Arguments JObj {I} entries.

(** What [JSON.parse] returns: no native identifier inside. *)
Abbreviation json := (jsval Empty_set) (only parsing).
(** What the database stores and what [insertMany] receives. *)
Abbreviation doc := (jsval (list byte)) (only parsing).

Section jsval_induction.
Context {I : Type} (P : jsval I → Prop).
Hypothesis Hundef : P JUndefined.
Hypothesis Hnull : P JNull.
Hypothesis Hbool : ∀ b, P (JBool b).
Hypothesis Hnum : ∀ n, P (JNum n).
Hypothesis Hstr : ∀ s, P (JStr s).
Hypothesis Hid : ∀ i, P (JId i).
Hypothesis Harr : ∀ items, Forall P items → P (JArr items).
Hypothesis Hobj : ∀ entries, Forall (fun kv => P (snd kv)) entries → P (JObj entries).

Fixpoint jsval_nested_ind (v : jsval I) : P v :=
  match v with
  | JUndefined => Hundef
  | JNull => Hnull
  | JBool b => Hbool b
  | JNum n => Hnum n
  | JStr s => Hstr s
  | JId i => Hid i
  | JArr items =>
      Harr items
        ((fix go (l : list (jsval I)) : Forall P l :=
            match l with
            | [] => @List.Forall_nil _ P
            | x :: r => @List.Forall_cons _ P x r (jsval_nested_ind x) (go r)
            end) items)
  | JObj entries =>
      Hobj entries
        ((fix go (l : list (string * jsval I)) : Forall (fun kv => P (snd kv)) l :=
            match l with
            | [] => @List.Forall_nil _ _
            | kv :: r => @List.Forall_cons _ (fun kv => P (snd kv)) kv r (jsval_nested_ind (snd kv)) (go r)
            end) entries)
  end.
End jsval_induction.

(** JavaScript truthiness ([if (x)]). *)
Definition truthy {I} (v : jsval I) : bool :=
  match v with
  | JUndefined | JNull => false
  | JBool b => b
  | JNum (S754_zero _) | JNum S754_nan => false
  | JNum _ => true
  | JStr s => negb (String.eqb s "")
  | JId _ | JArr _ | JObj _ => true
  end.

(** [obj.key]: the own property, [undefined] when absent. *)
Fixpoint get {I} (key : string) (entries : list (string * jsval I)) : jsval I :=
  match entries with
  | [] => JUndefined
  | (k, v) :: rest => if String.eqb k key then v else get key rest
  end.

(** ** Hexadecimal text of an identifier *)

Definition hex_digit (n : N) : ascii :=
  match n with
  | 0 => "0" | 1 => "1" | 2 => "2" | 3 => "3" | 4 => "4" | 5 => "5"
  | 6 => "6" | 7 => "7" | 8 => "8" | 9 => "9" | 10 => "a" | 11 => "b"
  | 12 => "c" | 13 => "d" | 14 => "e" | _ => "f"
  end%N%char.

(** The digits accepted by [/^[0-9a-fA-F]{24}$/]. *)
Definition hex_value (c : ascii) : option N :=
  let n := N_of_ascii c in
  if ((48 <=? n) && (n <=? 57))%N then Some (n - 48)%N
  else if ((97 <=? n) && (n <=? 102))%N then Some (n - 87)%N
  else if ((65 <=? n) && (n <=? 70))%N then Some (n - 55)%N
  else None.

Definition hex_of_byte (b : byte) : string :=
  let n := Byte.to_N b in
  String (hex_digit (n / 16)) (String (hex_digit (n mod 16)) "").

Fixpoint toHexString (o : ObjectId) : string :=
  match o with
  | [] => ""
  | b :: rest => hex_of_byte b ++ toHexString rest
  end.

Fixpoint fromHex (s : string) : option (list byte) :=
  match s with
  | "" => Some []
  | String hi (String lo rest) =>
      match hex_value hi, hex_value lo with
      | Some h, Some l =>
          match Byte.of_N (16 * h + l), fromHex rest with
          | Some b, Some bs => Some (b :: bs)
          | _, _ => None
          end
      | _, _ => None
      end
  | String _ "" => None
  end.

(** ** [restoreObjectIds] (src/restore.js) *)

(** The keys whose 24-character string values are taken for identifiers. *)
Definition is_id_key (key : string) : bool :=
  String.eqb key "_id" || Str.endsWith key "Id" || String.eqb key "userId".

(** [typeof value === 'string' && value.length === 24]. *)
Definition is_string24 {I} (value : jsval I) : bool :=
  match value with
  | JStr s => (String.length s =? 24)%nat
  | _ => false
  end.

(** [newObj[key] = v] on a fresh object literal filled in [Object.entries]
    order of another object: the keys met are distinct, so the property
    is added after the existing ones; the key [__proto__] reaches the
    accessor of [Object.prototype] and adds no property. *)
Definition assign {A} (newObj : list (string * A)) (key : string) (v : A)
  : list (string * A) :=
  if String.eqb key "__proto__" then newObj else newObj ++ [(key, v)].

(** A parsed value seen as a document: the same tree. *)
Fixpoint as_doc (v : json) : doc :=
  match v with
  | JUndefined => JUndefined
  | JNull => JNull
  | JBool b => JBool b
  | JNum n => JNum n
  | JStr s => JStr s
  | JId i => match i with end
  | JArr items => JArr (map as_doc items)
  | JObj entries => JObj (map (fun kv => (fst kv, as_doc (snd kv))) entries)
  end.

Section Decode.

(** The driver's [ObjectId] constructor on every argument other than a
    string of 24 characters (a number, a 12-character string, an
    object): its outcome depends on the driver's version and, for
    numbers, on the process; it is left open. *)
Variable ObjectId_other : json → result ObjectId.

(** [new ObjectId(x)]: a string of 24 characters is accepted exactly
    when all of them are hexadecimal digits, and then denotes the twelve
    bytes it spells; otherwise the constructor throws. *)
Definition newObjectId (x : json) : result ObjectId :=
  match x with
  | JStr s =>
      if (String.length s =? 24)%nat then
        match fromHex s with
        | Some o => Ok o
        | None => Throw BSONError
        end
      else ObjectId_other x
  | _ => ObjectId_other x
  end.

(** [try { newObj[key] = new ObjectId(value) } catch (e) { newObj[key] = value }]:
    the value that ends up under [key]. *)
Definition tryObjectId (value : json) : doc :=
  match newObjectId value with
  | Ok o => JId o
  | Throw _ => as_doc value
  end.

Fixpoint restoreObjectIds (obj : json) : result doc :=
  match obj with
  | JNull => Ok JNull
  | JUndefined => Ok JUndefined
  | JArr items => JArr <$> mapM restoreObjectIds items
  | JObj entries =>
      if truthy (get "$oid" entries) then
        JId <$> newObjectId (get "$oid" entries)
      else
        JObj <$>
          (fix loop (l : list (string * json)) (newObj : list (string * doc))
             : result (list (string * doc)) :=
             match l with
             | [] => Ok newObj
             | (key, value) :: rest =>
                 if is_id_key key && is_string24 value then
                   loop rest (assign newObj key (tryObjectId value))
                 else
                   v ← restoreObjectIds value;
                   loop rest (assign newObj key v)
             end) entries []
  | JBool b => Ok (JBool b)
  | JNum n => Ok (JNum n)
  | JStr s => Ok (JStr s)
  | JId i => match i with end
  end.

(** The value stored under [key] by one turn of the [for] loop. *)
Definition restoreField (key : string) (value : json) : result doc :=
  if is_id_key key && is_string24 value
  then Ok (tryObjectId value)
  else restoreObjectIds value.

(** The [for] loop of [restoreObjectIds], named. *)
Fixpoint loop (l : list (string * json)) (newObj : list (string * doc))
  : result (list (string * doc)) :=
  match l with
  | [] => Ok newObj
  | (key, value) :: rest =>
      if is_id_key key && is_string24 value then
        loop rest (assign newObj key (tryObjectId value))
      else
        v ← restoreObjectIds value;
        loop rest (assign newObj key v)
  end.

(** The properties of the object built by the loop, entry by entry. *)
Fixpoint fields (l : list (string * json)) : result (list (string * doc)) :=
  match l with
  | [] => Ok []
  | (key, value) :: rest =>
      v ← restoreField key value;
      rest' ← fields rest;
      Ok (assign [] key v ++ rest')
  end.

End Decode.

(** ** Serialization of a document *)

(** [JSON.parse(JSON.stringify(v, null, 2))] as a function on trees. A
    property holding [undefined] is left out, [undefined] in an array
    and the numbers without JSON text ([NaN], the infinities) become
    [null], negative zero becomes zero; an [ObjectId] is written as
    [enc] says. Every other value is read back as it was written. *)
Definition json_number (n : spec_float) : json :=
  match n with
  | S754_zero _ => JNum (S754_zero false)
  | S754_finite s m e => JNum (S754_finite s m e)
  | S754_infinity _ | S754_nan => JNull
  end.

Section Serialize.
Variable enc : ObjectId → json.

Fixpoint jsonify (v : doc) : json :=
  match v with
  | JUndefined => JNull
  | JNull => JNull
  | JBool b => JBool b
  | JNum n => json_number n
  | JStr s => JStr s
  | JId o => enc o
  | JArr items => JArr (map jsonify items)
  | JObj entries =>
      JObj
        ((fix props (l : list (string * doc)) : list (string * json) :=
            match l with
            | [] => []
            | (key, value) :: rest =>
                match value with
                | JUndefined => props rest
                | _ => (key, jsonify value) :: props rest
                end
            end) entries)
  end.

Fixpoint props (l : list (string * doc)) : list (string * json) :=
  match l with
  | [] => []
  | (key, value) :: rest =>
      match value with
      | JUndefined => props rest
      | _ => (key, jsonify value) :: props rest
      end
  end.

End Serialize.

(** [ObjectId.prototype.toJSON] of the driver returns [toHexString()]:
    this is what [JSON.stringify(backup, null, 2)] in [createBackup]
    writes for an identifier. *)
Definition toJSON (o : ObjectId) : json := JStr (toHexString o).

(** Modelled from the spec: [encode] of section 4.1, which the sources
    do not define (no script writes the [$oid] form); given a Typed
    Identifier it returns the mapping [{ "$oid": hex }]. *)
Definition encode (o : ObjectId) : json := JObj [("$oid", JStr (toHexString o))].

(** ** Positions in a tree *)

Inductive step : Type :=
| Key (key : string)
| Index (i : nat).

Fixpoint lookup_key {A} (key : string) (entries : list (string * A)) : option A :=
  match entries with
  | [] => None
  | (k, v) :: rest => if String.eqb k key then Some v else lookup_key key rest
  end.

Fixpoint at_path {I} (p : list step) (v : jsval I) : option (jsval I) :=
  match p with
  | [] => Some v
  | Key key :: p' =>
      match v with
      | JObj entries =>
          match lookup_key key entries with
          | Some child => at_path p' child
          | None => None
          end
      | _ => None
      end
  | Index i :: p' =>
      match v with
      | JArr items =>
          match nth_error items i with
          | Some child => at_path p' child
          | None => None
          end
      | _ => None
      end
  end.

(** The value at the end of [p] is the value of a property whose key is
    [_id], ends in [Id] or is [userId]; [parent] is the key above [p]. *)
Fixpoint under_id_key (parent : option string) (p : list step) : bool :=
  match p with
  | [] => match parent with Some key => is_id_key key | None => false end
  | Key key :: p' => under_id_key (Some key) p'
  | Index _ :: p' => under_id_key None p'
  end.

(** A document whose identifiers have twelve bytes and none of whose
    mappings has a property named [$oid] or [__proto__]. *)
Fixpoint plain_doc (v : doc) : bool :=
  match v with
  | JId o => (List.length o =? 12)%nat
  | JArr items => forallb plain_doc items
  | JObj entries =>
      forallb (fun kv => negb (String.eqb (fst kv) "$oid")
                         && negb (String.eqb (fst kv) "__proto__")
                         && plain_doc (snd kv)) entries
  | _ => true
  end.

(** Every identifier of the document has twelve bytes. *)
Fixpoint valid_ids (v : doc) : bool :=
  match v with
  | JId o => (List.length o =? 12)%nat
  | JArr items => forallb valid_ids items
  | JObj entries => forallb (fun kv => valid_ids (snd kv)) entries
  | _ => true
  end.

(** ** Unfolding lemmas *)

Section DecodeFacts.
Variable other : json → result ObjectId.

Lemma assign_app {A} (acc : list (string * A)) key v :
  assign acc key v = acc ++ assign [] key v.
Proof. unfold assign. destruct (String.eqb key "__proto__"); simpl; [by rewrite app_nil_r | done]. Qed.

Lemma loop_fields l : ∀ acc,
  loop other l acc = (fun r => acc ++ r) <$> fields other l.
Proof.
  induction l as [|[key value] rest IH]; intros acc; simpl.
  - by rewrite app_nil_r.
  - unfold restoreField.
    destruct (is_id_key key && is_string24 value); simpl;
      [|destruct (restoreObjectIds other value) as [v|e]; simpl; [|done]];
      rewrite IH, (assign_app acc);
      (destruct (fields other rest) as [r|e]; simpl; [|done]);
      by rewrite app_assoc.
Qed.

Lemma restoreObjectIds_obj entries :
  restoreObjectIds other (JObj entries) =
  if truthy (get "$oid" entries)
  then JId <$> newObjectId other (get "$oid" entries)
  else JObj <$> fields other entries.
Proof.
  change (restoreObjectIds other (JObj entries)) with
    (if truthy (get "$oid" entries)
     then JId <$> newObjectId other (get "$oid" entries)
     else JObj <$> loop other entries []).
  destruct (truthy _); [done|].
  rewrite loop_fields. by destruct (fields other entries).
Qed.

End DecodeFacts.

(** ** Hexadecimal rendering is injective *)

Lemma fromHex_hex_of_byte b s :
  fromHex (hex_of_byte b ++ s) =
  match fromHex s with Some bs => Some (b :: bs) | None => None end.
Proof. destruct b; reflexivity. Qed.

Lemma fromHex_toHexString o : fromHex (toHexString o) = Some o.
Proof.
  induction o as [|b o IH]; [done|].
  cbn [toHexString]. by rewrite fromHex_hex_of_byte, IH.
Qed.

Lemma length_toHexString o :
  String.length (toHexString o) = 2 * List.length o.
Proof.
  induction o as [|b o IH]; [done|].
  change (toHexString (b :: o)) with
    (String (hex_digit (Byte.to_N b / 16))
       (String (hex_digit (Byte.to_N b mod 16)) (toHexString o))).
  cbn [String.length List.length]. rewrite IH. lia.
Qed.

Lemma newObjectId_toHexString other o :
  List.length o = 12 → newObjectId other (JStr (toHexString o)) = Ok o.
Proof.
  intros Hlen. unfold newObjectId.
  rewrite length_toHexString, Hlen. cbn [Nat.mul Nat.add Nat.eqb].
  by rewrite fromHex_toHexString.
Qed.

(** ** The [$oid] branch *)

Section OidBranch.
Variable other : json → result ObjectId.


End OidBranch.

Definition sample_hex : string := "5f1d7f3e2c8b4a0012345678".
Definition sample_id : ObjectId :=
  Eval vm_compute in default [] (fromHex sample_hex).
Definition no_other : json → result ObjectId := fun _ => Throw BSONError.


(** ** A failed reconstruction in the [$oid] branch *)

Section OidFailure.
Variable other : json → result ObjectId.

(** C3. The [$oid] branch does not absorb a failed reconstruction: for
    a mapping whose [$oid] property is a string of 24 characters that
    are not all hexadecimal digits, [new ObjectId(obj.$oid)] throws
    outside any [try], and [restoreObjectIds] throws with it; the same
    string under a key [_id], ending in [Id] or equal to [userId] is
    kept as it is, with no exception, by the [try]/[catch] of that
    branch. *)
Theorem oid_branch_throws (entries : list (string * json)) (s : string) :
  get "$oid" entries = JStr s →
  String.length s = 24 → fromHex s = None →
  restoreObjectIds other (JObj entries) = Throw BSONError
  ∧ ∀ key, is_id_key key = true → restoreField other key (JStr s) = Ok (JStr s).
Proof.
  intros Hget Hlen Hhex. split.
  - assert (Ht : truthy (get "$oid" entries) = true).
    { rewrite Hget. destruct s; [discriminate Hlen | reflexivity]. }
    rewrite restoreObjectIds_obj, Ht, Hget. unfold newObjectId.
    by rewrite Hlen, Hhex.
  - intros key Hkey. unfold restoreField, tryObjectId, newObjectId.
    cbn [is_string24]. rewrite Hkey, Hlen. cbn [andb Nat.eqb].
    by rewrite Hhex.
Qed.

End OidFailure.

(** A string of 24 characters that spells no identifier. *)
Definition not_hex : string := "zzzzzzzzzzzzzzzzzzzzzzzz".

Lemma oid_branch_throws_witness :
  restoreObjectIds no_other (JObj [("$oid", JStr not_hex)]) = Throw BSONError
  ∧ ∀ key, is_id_key key = true →
      restoreField no_other key (JStr not_hex) = Ok (JStr not_hex).
Proof.
  apply (oid_branch_throws no_other [("$oid", JStr not_hex)] not_hex);
    reflexivity.
Defined.

(** A property named [__proto__] is decoded and not carried over. *)
Example proto_property_not_carried :
  restoreObjectIds no_other
    (JObj [("__proto__", JObj [("admin", JBool true)]); ("name", JStr "Ana")])
  = Ok (JObj [("name", JStr "Ana")]).
Proof. reflexivity. Qed.

(** ** Round trip of identifiers *)

Section RoundTrip.
Variable other : json → result ObjectId.

(** Decoding of a value found under [parent] (the key of the property
    that holds it, [None] for an array element or the root). *)
Definition decode_under (parent : option string) (v : json) : result doc :=
  match parent with
  | Some key => restoreField other key v
  | None => restoreObjectIds other v
  end.

Lemma props_cons enc key value rest :
  props enc ((key, value) :: rest) =
  match value with
  | JUndefined => props enc rest
  | _ => (key, jsonify enc value) :: props enc rest
  end.
Proof. reflexivity. Qed.

Lemma jsonify_obj enc entries :
  jsonify enc (JObj entries) = JObj (props enc entries).
Proof. reflexivity. Qed.

Lemma get_props_absent enc key (entries : list (string * doc)) :
  Forall (fun kv => String.eqb (fst kv) key = false) entries →
  get key (props enc entries) = JUndefined.
Proof.
  induction 1 as [|[k v] rest Hk _ IH]; [done|].
  rewrite props_cons. simpl in Hk.
  destruct v; simpl; rewrite ?Hk; exact IH.
Qed.

Lemma at_path_leaf {I} (v : jsval I) p i :
  match v with JId _ | JArr _ | JObj _ => False | _ => True end →
  at_path p v = Some (JId i) → False.
Proof. destruct p as [|[]]; destruct v; simpl; intros; done. Qed.

Lemma decode_under_scalar parent (v : json) :
  match v with JArr _ | JObj _ => False | _ => True end →
  ∃ d, decode_under parent v = Ok d
       ∧ match d with JArr _ | JObj _ => False | _ => True end.
Proof.
  intros Hv. destruct parent as [key|]; simpl.
  - unfold restoreField.
    destruct (is_id_key key && is_string24 v) eqn:E.
    + eexists; split; [done|]. unfold tryObjectId.
      destruct (newObjectId other v); [done|]. by destruct v.
    + destruct v as [| | | | |[]| |]; try done; by eexists.
  - destruct v as [| | | | |[]| |]; try done; by eexists.
Qed.

Lemma mapM_decode (g : doc → json) (R : doc → doc → Prop) items :
  Forall (fun c => ∃ d, restoreObjectIds other (g c) = Ok d ∧ R c d) items →
  ∃ ds, mapM (restoreObjectIds other) (map g items) = Ok ds ∧ Forall2 R items ds.
Proof.
  induction 1 as [|c rest (d & Hd & HR) _ (ds & Hds & HRs)]; simpl.
  - by exists [].
  - exists (d :: ds). rewrite Hd. simpl. rewrite Hds. by split; [|constructor].
Qed.

Lemma Forall2_nth_error {A B} (R : A → B → Prop) l k i a :
  Forall2 R l k → nth_error l i = Some a →
  ∃ b, nth_error k i = Some b ∧ R a b.
Proof.
  intros H. revert i. induction H as [|x y l k Hxy _ IH]; intros [|i]; simpl;
    try done.
  - intros [= <-]. by exists y.
  - apply IH.
Qed.

Lemma fields_props enc (R : string → doc → doc → Prop) entries :
  Forall (fun kv =>
            String.eqb (fst kv) "__proto__" = false
            ∧ ∃ d, restoreField other (fst kv) (jsonify enc (snd kv)) = Ok d
                   ∧ R (fst kv) (snd kv) d) entries →
  ∃ ds, fields other (props enc entries) = Ok ds
        ∧ ∀ key c, lookup_key key entries = Some c → c ≠ JUndefined →
            ∃ d, lookup_key key ds = Some d ∧ R key c d.
Proof.
  induction 1 as [|[k v] rest (Hk & d & Hd & HR) _ (ds & Hds & Hlook)];
    cbn [fst snd] in *.
  - by exists [].
  - assert (Hcons : ∀ key c, lookup_key key ((k, v) :: rest) = Some c →
                      c ≠ JUndefined →
                      ∃ d', lookup_key key ((k, d) :: ds) = Some d' ∧ R key c d').
    { intros key c. simpl. destruct (String.eqb_spec k key) as [->|Hne].
      - intros [= <-] _. by exists d.
      - apply Hlook. }
    assert (v = JUndefined ∨ v ≠ JUndefined) as [->|Hv]
      by (destruct v; (by left) || (by right)).
    + exists ds. rewrite props_cons. split; [done|]. intros key c Hc Hundef.
      simpl in Hc. destruct (String.eqb_spec k key) as [->|Hne].
      * by injection Hc as <-.
      * by apply Hlook.
    + exists ((k, d) :: ds). split; [|done].
      rewrite props_cons.
      assert (fields other ((k, jsonify enc v) :: props enc rest)
              = Ok ((k, d) :: ds)) as Hf.
      { simpl. rewrite Hd. simpl. rewrite Hds. simpl.
        unfold assign. by rewrite Hk. }
      by destruct v.
Qed.

End RoundTrip.

Section RoundTripInduction.
Variable other : json → result ObjectId.
Variable enc : ObjectId → json.
Variable sel : option string → list step → bool.
Hypothesis sel_key : ∀ parent key p, sel parent (Key key :: p) = sel (Some key) p.
Hypothesis sel_index : ∀ parent i p, sel parent (Index i :: p) = sel None p.
Hypothesis decode_enc : ∀ o parent, List.length o = 12 →
  ∃ d, decode_under other parent (enc o) = Ok d
       ∧ (sel parent [] = true → d = JId o).

(** The identifiers kept by decoding [d] out of the serialization of [t]. *)
Definition keeps_ids (parent : option string) (t d : doc) : Prop :=
  ∀ p o, at_path p t = Some (JId o) → sel parent p = true →
         at_path p d = Some (JId o).

Lemma decode_under_structure parent (v : json) :
  match v with JArr _ | JObj _ => True | _ => False end →
  decode_under other parent v = restoreObjectIds other v.
Proof.
  destruct parent as [key|]; [|done]. simpl. unfold restoreField.
  destruct v; try done; simpl; by rewrite andb_false_r.
Qed.

Lemma decode_jsonify (t : doc) :
  plain_doc t = true →
  ∀ parent, ∃ d, decode_under other parent (jsonify enc t) = Ok d
                 ∧ keeps_ids parent t d.
Proof.
  induction t as [| | b | n | s | o | items IH | entries IH]
    using jsval_nested_ind; intros Hplain parent.
  1-5: match goal with
       | |- ∃ d, decode_under _ _ ?v = Ok d ∧ _ =>
           destruct (decode_under_scalar other parent v) as (d & Hd & _);
             [by (simpl; try destruct n)|];
           exists d; split; [exact Hd|];
           intros p o' Hp _; by apply at_path_leaf in Hp
       end.
  - apply Nat.eqb_eq in Hplain.
    destruct (decode_enc o parent Hplain) as (d & Hd & Hsel).
    exists d. split; [exact Hd|]. intros p o' Hp Hs.
    destruct p as [|[]]; simpl in Hp; try done.
    injection Hp as <-. by rewrite Hsel.
  - cbn [plain_doc] in Hplain. rewrite forallb_forall in Hplain.
    destruct (mapM_decode other (jsonify enc) (keeps_ids None) items)
      as (ds & Hds & HR).
    { rewrite List.Forall_forall in *. intros c Hc.
      exact (IH c Hc (Hplain c Hc) None). }
    exists (JArr ds). split.
    + rewrite decode_under_structure by done.
      change (restoreObjectIds other (jsonify enc (JArr items))) with
        (JArr <$> mapM (restoreObjectIds other) (map (jsonify enc) items)).
      by rewrite Hds.
    + intros p o Hp Hs. destruct p as [|[key|i] p]; simpl in Hp; try done.
      destruct (nth_error items i) as [c|] eqn:Hi; [|done].
      destruct (Forall2_nth_error _ _ _ _ _ HR Hi) as (d & Hdi & Hcd).
      simpl. rewrite Hdi. apply Hcd; [done|]. by rewrite <- (sel_index parent i).
  - cbn [plain_doc] in Hplain. rewrite forallb_forall in Hplain.
    destruct (fields_props other enc (fun key => keeps_ids (Some key)) entries)
      as (ds & Hds & HR).
    { rewrite List.Forall_forall in *. intros [k c] Hc.
      specialize (Hplain _ Hc). cbn [fst snd] in *.
      apply andb_prop in Hplain as [Hkeys Hc'].
      apply andb_prop in Hkeys as [_ Hproto].
      split; [by apply negb_true_iff|].
      exact (IH _ Hc Hc' (Some k)). }
    exists (JObj ds). split.
    + rewrite decode_under_structure by done.
      rewrite jsonify_obj, restoreObjectIds_obj.
      rewrite get_props_absent; [simpl; by rewrite Hds|].
      rewrite List.Forall_forall. intros kv Hkv.
      specialize (Hplain _ Hkv).
      apply andb_prop in Hplain as [Hkeys _].
      apply andb_prop in Hkeys as [Hoid _]. by apply negb_true_iff.
    + intros p o Hp Hs. destruct p as [|[key|i] p]; simpl in Hp; try done.
      destruct (lookup_key key entries) as [c|] eqn:Hk; [|done].
      destruct (HR key c Hk) as (d & Hdk & Hcd).
      { intros ->. by apply at_path_leaf in Hp. }
      simpl. rewrite Hdk. apply Hcd; [done|]. by rewrite <- (sel_key parent key).
Qed.

End RoundTripInduction.

(** The round trip as the specification states it: every identifier of
    a document is found again, as a native identifier and at the same
    place, after [restoreObjectIds] of the parsed serialization, in the
    [$oid] form always and in the bare form when it is the value of a
    property named [_id], ending in [Id] or equal to [userId]. *)
Definition round_trip_as_specified : Prop :=
  ∀ (other : json → result ObjectId) (t : doc) (p : list step) (o : ObjectId),
    valid_ids t = true →
    at_path p t = Some (JId o) →
    (∃ d, restoreObjectIds other (jsonify encode t) = Ok d
          ∧ at_path p d = Some (JId o))
    ∧ (under_id_key None p = true →
       ∃ d, restoreObjectIds other (jsonify toJSON t) = Ok d
            ∧ at_path p d = Some (JId o)).

Definition other_hex : string := "60a1b2c3d4e5f60718293a4b".
Definition other_id : ObjectId :=
  Eval vm_compute in default [] (fromHex other_hex).

(** A document with a property of its own named [$oid]. *)
Definition tagged_doc : doc :=
  JObj [("_id", JId sample_id); ("$oid", JStr other_hex)].

(** C2, as stated, fails on [tagged_doc]: the whole mapping decodes to
    the identifier spelled by its [$oid] property, in both forms, and
    the identifier under [_id] is lost. *)
Lemma round_trip_as_specified_fails :
  restoreObjectIds no_other (jsonify encode tagged_doc) = Ok (JId other_id)
  ∧ restoreObjectIds no_other (jsonify toJSON tagged_doc) = Ok (JId other_id)
  ∧ at_path [Key "_id"] tagged_doc = Some (JId sample_id)
  ∧ ¬ round_trip_as_specified.
Proof.
  refine (conj eq_refl (conj eq_refl (conj eq_refl _))).
  intros H.
  destruct (H no_other tagged_doc [Key "_id"] sample_id eq_refl eq_refl)
    as [(d & Hd & Hp) _].
  vm_compute in Hd. injection Hd as <-. discriminate Hp.
Qed.

Section RoundTripTheorem.
Variable other : json → result ObjectId.

Lemma decode_encode o parent :
  List.length o = 12 →
  ∃ d, decode_under other parent (encode o) = Ok d
       ∧ ((fun _ _ => true) parent (@nil step) = true → d = JId o).
Proof.
  intros Hlen. exists (JId o). split; [|done].
  rewrite decode_under_structure by done.
  unfold encode. rewrite restoreObjectIds_obj.
  assert (toHexString o ≠ "") as Hne.
  { intros E. pose proof (length_toHexString o) as HL.
    rewrite E, Hlen in HL. discriminate HL. }
  cbn [get String.eqb Ascii.eqb Bool.eqb truthy].
  apply String.eqb_neq in Hne. rewrite Hne. cbn [negb].
  by rewrite newObjectId_toHexString.
Qed.

Lemma decode_toJSON o parent :
  List.length o = 12 →
  ∃ d, decode_under other parent (toJSON o) = Ok d
       ∧ (under_id_key parent [] = true → d = JId o).
Proof.
  intros Hlen. destruct parent as [key|]; simpl.
  - unfold restoreField, toJSON. cbn [is_string24].
    rewrite length_toHexString, Hlen. cbn [Nat.mul Nat.add Nat.eqb].
    destruct (is_id_key key); cbn [andb].
    + exists (JId o). split; [|done]. unfold tryObjectId.
      by rewrite newObjectId_toHexString.
    + by eexists.
  - by eexists.
Qed.

(** C2, amended. For every document whose identifiers have twelve bytes
    and none of whose mappings has a property named [$oid] or
    [__proto__], [restoreObjectIds] of the parsed serialization returns
    a document, and every identifier of the original is found in it at
    the same place as a native identifier: always when identifiers are
    written as [{ "$oid": hex }], and, when they are written as bare
    hexadecimal strings, for the identifiers that are the value of a
    property named [_id], ending in [Id] or equal to [userId]. *)
Theorem identifier_round_trip (t : doc) :
  plain_doc t = true →
  ∃ d1 d2,
    restoreObjectIds other (jsonify encode t) = Ok d1
    ∧ restoreObjectIds other (jsonify toJSON t) = Ok d2
    ∧ ∀ p o, at_path p t = Some (JId o) →
        at_path p d1 = Some (JId o)
        ∧ (under_id_key None p = true → at_path p d2 = Some (JId o)).
Proof.
  intros Hplain.
  destruct (decode_jsonify other encode (fun _ _ => true)
              ltac:(done) ltac:(done) decode_encode t Hplain None)
    as (d1 & Hd1 & H1).
  destruct (decode_jsonify other toJSON under_id_key
              ltac:(done) ltac:(done) decode_toJSON t Hplain None)
    as (d2 & Hd2 & H2).
  exists d1, d2. refine (conj Hd1 (conj Hd2 _)).
  intros p o Hp. split; [by apply H1|]. intros Hs. by apply H2.
Qed.

End RoundTripTheorem.

Definition ana : doc :=
  JObj [("_id", JId sample_id); ("name", JStr "Ana");
        ("friends", JArr [JId other_id]); ("ownerId", JId other_id)].

Lemma identifier_round_trip_witness :
  plain_doc ana = true
  ∧ ∃ d1 d2,
      restoreObjectIds no_other (jsonify encode ana) = Ok d1
      ∧ restoreObjectIds no_other (jsonify toJSON ana) = Ok d2
      ∧ ∀ p o, at_path p ana = Some (JId o) →
          at_path p d1 = Some (JId o)
          ∧ (under_id_key None p = true → at_path p d2 = Some (JId o)).
Proof. split; [reflexivity | apply (identifier_round_trip no_other ana); reflexivity]. Defined.

End Codec.


(** ** Snapshot paths ([createBackup], [generateBackupPath]) *)

Module Namer.

Import Str.
Local Open Scope string_scope.

(** The local calendar reading of a [Date]: what [getFullYear],
    [getMonth] (0 to 11), [getDate], [getHours], [getMinutes],
    [getSeconds] and [getMilliseconds] return. *)
Record Date : Type := {
  getFullYear : Z;
  getMonth : Z;
  getDate : Z;
  getHours : Z;
  getMinutes : Z;
  getSeconds : Z;
  getMilliseconds : Z
}.

(** The ranges of the getters of a valid [Date]. *)
Definition calendar (d : Date) : Prop :=
  (0 <= getMonth d <= 11 ∧ 1 <= getDate d <= 31 ∧ 0 <= getHours d <= 23
   ∧ 0 <= getMinutes d <= 59 ∧ 0 <= getSeconds d <= 59
   ∧ 0 <= getMilliseconds d <= 999)%Z.

(** [String(n)] and [n.toString()] for an integer. *)
Definition String_of (n : Z) : string := NilZero.string_of_int (Z.to_int n).

Fixpoint repeat_char (c : ascii) (n : nat) : string :=
  match n with
  | O => ""
  | S n' => String c (repeat_char c n')
  end.

(** [s.padStart(targetLength, c)]. *)
Definition padStart (s : string) (targetLength : nat) (c : ascii) : string :=
  repeat_char c (targetLength - String.length s) ++ s.

(** [path.join] of segments that are plain names, below a directory
    given in normal form. *)
Definition path_join (segments : list string) : string :=
  String.concat "/" segments.

(** [crypto.randomBytes(4).toString('hex')]. *)
Definition hex (randomBytes : list byte) : string := Codec.toHexString randomBytes.

Definition dateDir (BACKUP_DIR : string) (now : Date) : string :=
  let year := getFullYear now in
  let month := padStart (String_of (getMonth now + 1)) 2 "0" in
  let day := padStart (String_of (getDate now)) 2 "0" in
  path_join [BACKUP_DIR; String_of year; month; day].

Definition fileName (now : Date) (randomBytes : list byte) : string :=
  let hours := padStart (String_of (getHours now)) 2 "0" in
  let minutes := padStart (String_of (getMinutes now)) 2 "0" in
  let seconds := padStart (String_of (getSeconds now)) 2 "0" in
  let hash := hex randomBytes in
  hours ++ "_" ++ minutes ++ "_" ++ seconds ++ "_" ++ hash ++ ".json".

(** The path computed by [generateBackupPath], and by the first lines of
    [createBackup] in the script with remote synchronisation. *)
Definition generateBackupPath (BACKUP_DIR : string) (now : Date)
    (randomBytes : list byte) : string :=
  path_join [dateDir BACKUP_DIR now; fileName now randomBytes].

(** Wall-clock order of two readings of the same clock. *)
Definition before (a b : Date) : Prop :=
  (getFullYear a < getFullYear b
   ∨ getFullYear a = getFullYear b ∧
     (getMonth a < getMonth b
      ∨ getMonth a = getMonth b ∧
        (getDate a < getDate b
         ∨ getDate a = getDate b ∧
           (getHours a < getHours b
            ∨ getHours a = getHours b ∧
              (getMinutes a < getMinutes b
               ∨ getMinutes a = getMinutes b ∧
                 (getSeconds a < getSeconds b
                  ∨ getSeconds a = getSeconds b ∧
                    getMilliseconds a < getMilliseconds b))))))%Z.

(** The same order at the resolution of a second. *)
Definition earlier_second (a b : Date) : Prop :=
  (getFullYear a < getFullYear b
   ∨ getFullYear a = getFullYear b ∧
     (getMonth a < getMonth b
      ∨ getMonth a = getMonth b ∧
        (getDate a < getDate b
         ∨ getDate a = getDate b ∧
           (getHours a < getHours b
            ∨ getHours a = getHours b ∧
              (getMinutes a < getMinutes b
               ∨ getMinutes a = getMinutes b ∧
                 getSeconds a < getSeconds b)))))%Z.

(** [x < y] on strings: comparison of code units, left to right. *)
Definition str_lt (x y : string) : Prop := String.compare x y = Lt.

(** *** Order of strings *)

Lemma str_lt_trans x y z : str_lt x y → str_lt y z → str_lt x z.
Proof.
  unfold str_lt. intros Hxy Hyz.
  assert (String.le x z) as Hle.
  { transitivity y; unfold String.le, String.leb;
      [by rewrite Hxy | by rewrite Hyz]. }
  unfold String.le, String.leb in Hle.
  destruct (String.compare x z) eqn:E; [|done|done].
  apply String.compare_eq_iff in E as ->.
  rewrite String.compare_antisym, Hyz in Hxy. discriminate Hxy.
Qed.

(** *** Renderings that grow with the number *)

Section Monotone.
Variable f : Z → string.
Variables (lo hi : Z) (width : nat).

(** Checked by evaluation on the whole range. *)
Definition steps_up : bool :=
  forallb (fun i => let n := (lo + Z.of_nat i)%Z in
                    match String.compare (f n) (f (n + 1)) with
                    | Lt => true
                    | _ => false
                    end)
          (seq 0 (Z.to_nat (hi - lo))).

Definition fixed_width : bool :=
  forallb (fun i => (String.length (f (lo + Z.of_nat i)) =? width)%nat)
          (seq 0 (Z.to_nat (hi - lo + 1))).

Lemma steps_up_next n :
  steps_up = true → (lo <= n < hi)%Z → str_lt (f n) (f (n + 1)).
Proof.
  unfold steps_up. rewrite forallb_forall. intros H Hn.
  specialize (H (Z.to_nat (n - lo))). rewrite in_seq in H.
  replace (lo + Z.of_nat (Z.to_nat (n - lo)))%Z with n in H by lia.
  unfold str_lt. destruct (String.compare (f n) (f (n + 1))); try done;
    (assert (false = true) as Hf by (apply H; lia); discriminate Hf).
Qed.

Lemma steps_up_lt n m :
  steps_up = true → (lo <= n)%Z → (n < m)%Z → (m <= hi)%Z →
  str_lt (f n) (f m).
Proof.
  intros H Hlo Hnm Hhi.
  replace m with (n + 1 + Z.of_nat (Z.to_nat (m - n - 1)))%Z by lia.
  assert (n + 1 + Z.of_nat (Z.to_nat (m - n - 1)) <= hi)%Z as Hb by lia.
  induction (Z.to_nat (m - n - 1)) as [|k IH].
  - rewrite Z.add_0_r. apply steps_up_next; [done | lia].
  - eapply str_lt_trans; [apply IH; lia|].
    replace (n + 1 + Z.of_nat (S k))%Z with (n + 1 + Z.of_nat k + 1)%Z by lia.
    apply steps_up_next; [done | lia].
Qed.

Lemma fixed_width_length n :
  fixed_width = true → (lo <= n <= hi)%Z → String.length (f n) = width.
Proof.
  unfold fixed_width. rewrite forallb_forall. intros H Hn.
  specialize (H (Z.to_nat (n - lo))). rewrite in_seq in H.
  replace (lo + Z.of_nat (Z.to_nat (n - lo)))%Z with n in H by lia.
  apply Nat.eqb_eq, H. lia.
Qed.

End Monotone.

Definition pad2 (n : Z) : string := padStart (String_of n) 2 "0".

Lemma pad2_steps_up : steps_up pad2 0 99 = true.
Proof. vm_compute. reflexivity. Qed.

Lemma pad2_fixed_width : fixed_width pad2 0 99 2 = true.
Proof. vm_compute. reflexivity. Qed.

Lemma year_steps_up : steps_up String_of 1000 9999 = true.
Proof. vm_compute. reflexivity. Qed.

Lemma year_fixed_width : fixed_width String_of 1000 9999 4 = true.
Proof. vm_compute. reflexivity. Qed.

Lemma generateBackupPath_shape BACKUP_DIR now randomBytes :
  generateBackupPath BACKUP_DIR now randomBytes =
  BACKUP_DIR ++ "/" ++ String_of (getFullYear now) ++ "/"
    ++ pad2 (getMonth now + 1) ++ "/" ++ pad2 (getDate now) ++ "/"
    ++ pad2 (getHours now) ++ "_" ++ pad2 (getMinutes now) ++ "_"
    ++ pad2 (getSeconds now) ++ "_" ++ hex randomBytes ++ ".json".
Proof.
  unfold generateBackupPath, dateDir, fileName, path_join, pad2.
  cbn [String.concat]. by rewrite !append_assoc.
Qed.

(** *** Sortability *)

(** Sortability as the specification states it: whenever capture [a]
    is strictly before capture [b] on the clock, its path is strictly
    smaller. *)
Definition path_sortable_as_specified : Prop :=
  ∀ (BACKUP_DIR : string) (a b : Date) (ra rb : list byte),
    calendar a → calendar b →
    List.length ra = 4 → List.length rb = 4 →
    before a b →
    str_lt (generateBackupPath BACKUP_DIR a ra) (generateBackupPath BACKUP_DIR b rb).

Definition at_ms (ms : Z) : Date :=
  {| getFullYear := 2024; getMonth := 4; getDate := 17; getHours := 10;
     getMinutes := 20; getSeconds := 30; getMilliseconds := ms |}.

(** C5, as stated, fails: two captures of the same second are named
    alike up to the random suffix, and the earlier one may draw the
    larger suffix. *)
Lemma path_sortable_as_specified_fails :
  generateBackupPath "backups" (at_ms 100) ["255"; "255"; "255"; "255"]%byte
    = "backups/2024/05/17/10_20_30_ffffffff.json"
  ∧ generateBackupPath "backups" (at_ms 900) ["000"; "000"; "000"; "000"]%byte
    = "backups/2024/05/17/10_20_30_00000000.json"
  ∧ before (at_ms 100) (at_ms 900)
  ∧ ¬ path_sortable_as_specified.
Proof.
  refine (conj eq_refl (conj eq_refl (conj _ _))).
  - unfold before, at_ms; simpl; lia.
  - intros H.
    specialize (H "backups" (at_ms 100) (at_ms 900)
                  ["255"; "255"; "255"; "255"]%byte
                  ["000"; "000"; "000"; "000"]%byte).
    assert (calendar (at_ms 100) ∧ calendar (at_ms 900)) as [Ha Hb]
      by (unfold calendar, at_ms; simpl; lia).
    specialize (H Ha Hb eq_refl eq_refl).
    assert (before (at_ms 100) (at_ms 900)) as Hbefore
      by (unfold before, at_ms; simpl; lia).
    specialize (H Hbefore). vm_compute in H. discriminate H.
Qed.

(** The year is written without padding: beyond four digits the order
    of the paths is no longer the order of the years. *)
Example year_10000_sorts_first :
  str_lt (String_of 10000) (String_of 9999).
Proof. reflexivity. Qed.

Ltac field_decides :=
  unfold str_lt; rewrite ?compare_app_same;
  apply compare_app_lt;
  [ rewrite !(fixed_width_length pad2 0 99 2 _ pad2_fixed_width) by lia; reflexivity
  | apply (steps_up_lt pad2 0 99 _ _ pad2_steps_up); lia ].

(** C5, amended. For two captures under the same root whose years have
    four digits, if the first is earlier than the second at the
    resolution of a second, then its path is strictly smaller, whatever
    the random suffixes. *)
Theorem paths_sorted_by_second (BACKUP_DIR : string) (a b : Date)
    (ra rb : list byte) :
  calendar a → calendar b →
  (1000 <= getFullYear a <= 9999)%Z → (1000 <= getFullYear b <= 9999)%Z →
  earlier_second a b →
  str_lt (generateBackupPath BACKUP_DIR a ra) (generateBackupPath BACKUP_DIR b rb).
Proof.
  intros Ha Hb Hya Hyb Hlt. unfold calendar in Ha, Hb.
  rewrite !generateBackupPath_shape.
  destruct Hlt as [Hy|[Ey [Hm|[Em [Hd|[Ed [Hh|[Eh [Hmi|[Emi Hs]]]]]]]]]];
    rewrite ?Ey, ?Em, ?Ed, ?Eh, ?Emi.
  - unfold str_lt. rewrite !compare_app_same. apply compare_app_lt.
    + by rewrite !(fixed_width_length String_of 1000 9999 4 _ year_fixed_width).
    + by apply (steps_up_lt String_of 1000 9999 _ _ year_steps_up); lia.
  - field_decides.
  - field_decides.
  - field_decides.
  - field_decides.
  - field_decides.
Qed.

(** The order of two paths at the resolution of a second. *)
Lemma steps_in_seconds (BACKUP_DIR : string) (a b : Date) (ra rb : list byte) :
  calendar a → calendar b →
  (1000 <= getFullYear a <= 9999)%Z → (1000 <= getFullYear b <= 9999)%Z →
  earlier_second a b →
  str_lt (generateBackupPath BACKUP_DIR a ra) (generateBackupPath BACKUP_DIR b rb).
Proof.
  intros Ha Hb Hya Hyb Hlt. unfold calendar in Ha, Hb.
  rewrite !generateBackupPath_shape.
  destruct Hlt as [Hy|[Ey [Hm|[Em [Hd|[Ed [Hh|[Eh [Hmi|[Emi Hs]]]]]]]]]];
    rewrite ?Ey, ?Em, ?Ed, ?Eh, ?Emi; try field_decides.
  unfold str_lt. rewrite !compare_app_same. apply compare_app_lt.
  - by rewrite !(fixed_width_length String_of 1000 9999 4 _ year_fixed_width).
  - by apply (steps_up_lt String_of 1000 9999 _ _ year_steps_up); lia.
Qed.

Definition day_one : Date :=
  {| getFullYear := 2024; getMonth := 11; getDate := 31; getHours := 23;
     getMinutes := 59; getSeconds := 59; getMilliseconds := 999 |}.
Definition day_two : Date :=
  {| getFullYear := 2025; getMonth := 0; getDate := 1; getHours := 0;
     getMinutes := 0; getSeconds := 0; getMilliseconds := 0 |}.

Lemma paths_sorted_by_second_witness :
  str_lt (generateBackupPath "backups" day_one ["255"; "255"; "255"; "255"]%byte)
         (generateBackupPath "backups" day_two ["000"; "000"; "000"; "000"]%byte).
Proof.
  apply paths_sorted_by_second;
    unfold calendar, earlier_second, day_one, day_two; simpl; lia.
Defined.

End Namer.

(** ** Retention ([cleanOldBackups]) *)

Module Sweeper.

Local Open Scope string_scope.

(** The storage tree: regular files with their modification time (in
    milliseconds) and directories with their entries, in the order
    [readdirSync] lists them. Every entry can be listed and examined:
    the calls that read the tree do not fail. *)
Inductive node : Type :=
| File (mtime : Z)
| Dir (items : list (string * node)).

Section node_induction.
Context (P : node → Prop).
Hypothesis Hfile : ∀ mtime, P (File mtime).
Hypothesis Hdir : ∀ items, Forall (fun e => P (snd e)) items → P (Dir items).

Fixpoint node_nested_ind (n : node) : P n :=
  match n with
  | File mtime => Hfile mtime
  | Dir items =>
      Hdir items
        ((fix go (l : list (string * node)) : Forall (fun e => P (snd e)) l :=
            match l with
            | [] => @List.Forall_nil _ _
            | e :: r =>
                @List.Forall_cons _ (fun e => P (snd e)) e r
                  (node_nested_ind (snd e)) (go r)
            end) items)
  end.
End node_induction.

(** The calls that change the tree. *)
Inductive fs_call : Type :=
| unlinkSync (path : string)
| rmdirSync (path : string).

Definition msPerDay : Z := 86400000.

(** The calendar arithmetic of [Date], [d.setDate(d.getDate() - n)] on
    a date [d] of time value [now]: the time value of the date [n]
    calendar days earlier at the same local time of day, or an invalid
    date ([None]) when that is out of the range of [Date]. It depends
    on the time zone of the process and is left open. *)
Definition calendar_arithmetic : Type := Z → Z → option Z.

(** The arithmetic of a clock whose offset to UTC never changes, far
    from the bounds of [Date]: a day is [msPerDay] milliseconds. *)
Definition fixed_offset_clock : calendar_arithmetic :=
  fun now n => Some (now - n * msPerDay)%Z.

(** [cutoffDate] after [cutoffDate.setDate(cutoffDate.getDate() - daysToKeep)].
    [daysToKeep] is [parseInt(DAYS_TO_KEEP, 10)]: an integer, or [NaN]
    ([None]) when the variable is not a number, which gives an invalid
    date. *)
Definition cutoffDate (setDate_back : calendar_arithmetic) (now : Z)
    (daysToKeep : option Z) : option Z :=
  match daysToKeep with
  | Some n => setDate_back now n
  | None => None
  end.

(** [stats.mtime < cutoffDate]: false against an invalid date. *)
Definition older (mtime : Z) (cutoff : option Z) : bool :=
  match cutoff with
  | Some c => (mtime <? c)%Z
  | None => false
  end.

(** [path.join(dir, item)] for an entry name, below a directory given
    in normal form (no empty, [.] or [..] segment, no separator at the
    end), which [path.join] leaves as it is. *)
Definition path_join (dir item : string) : string := dir ++ "/" ++ item.

Section Scan.
Variable cutoff : option Z.

(** One turn of the [for] loop of [scanDirectory] ([processDirectory]
    in the script without synchronisation reads the same on regular
    files and directories): the entry [item] of [dir], what is left of
    it and the calls made. *)
Fixpoint scanItem (dir item : string) (child : node)
  : list (string * node) * list fs_call :=
  let itemPath := path_join dir item in
  match child with
  | Dir items =>
      let '(remaining, calls) :=
        (fix scan (l : list (string * node)) :=
           match l with
           | [] => ([], [])
           | (i, c) :: rest =>
               let '(kept, calls1) := scanItem itemPath i c in
               let '(kept', calls2) := scan rest in
               (kept ++ kept', calls1 ++ calls2)
           end%list) items in
      match remaining with
      | [] => ([], calls ++ [rmdirSync itemPath])
      | _ => ([(item, Dir remaining)], calls)
      end%list
  | File mtime =>
      if Str.endsWith item ".json" && older mtime cutoff
      then ([], [unlinkSync itemPath])
      else ([(item, child)], [])
  end.

(** [scanDirectory(dir)] on a directory with entries [items]. *)
Definition scanDirectory (dir : string)
  : list (string * node) → list (string * node) * list fs_call :=
  fix scan (items : list (string * node)) :=
    match items with
    | [] => ([], [])
    | (i, c) :: rest =>
        let '(kept, calls1) := scanItem dir i c in
        let '(kept', calls2) := scan rest in
        (kept ++ kept', calls1 ++ calls2)
    end%list.

(** [processDirectory(dir)], the same walk in the script without
    synchronisation ([entry.isDirectory()] and [entry.name] instead of
    [statSync] and [item]). *)
Definition processDirectory := scanDirectory.

End Scan.

Definition unlinked (calls : list fs_call) : list string :=
  flat_map (fun c => match c with unlinkSync p => [p] | rmdirSync _ => [] end) calls.

Definition removed (calls : list fs_call) : list string :=
  flat_map (fun c => match c with rmdirSync p => [p] | unlinkSync _ => [] end) calls.

Record outcome : Type := {
  root_after : option node;
  calls_made : list fs_call;
  deletedCount : nat;
  error_logged : bool
}.

(** [cleanOldBackups(daysToKeep)] at time [now], [root] being what is
    at [BACKUP_DIR]. [scanDirectory] returns at once when the path does
    not exist; [readdirSync] throws on a path that is not a directory,
    and the [catch] logs it. *)
Definition cleanOldBackups (setDate_back : calendar_arithmetic) (now : Z)
    (daysToKeep : option Z) (BACKUP_DIR : string) (root : option node) : outcome :=
  let cutoffDate := cutoffDate setDate_back now daysToKeep in
  match root with
  | None =>
      {| root_after := None; calls_made := []; deletedCount := 0;
         error_logged := false |}
  | Some (File mtime) =>
      {| root_after := root; calls_made := []; deletedCount := 0;
         error_logged := true |}
  | Some (Dir items) =>
      let '(remaining, calls) := scanDirectory cutoffDate BACKUP_DIR items in
      {| root_after := Some (Dir remaining); calls_made := calls;
         deletedCount := List.length (unlinked calls);
         error_logged := false |}
  end.

(** *** What a tree contains *)

Record file : Type := {
  file_path : string;
  file_name : string;
  file_mtime : Z
}.

Fixpoint files_item (dir item : string) (child : node) : list file :=
  match child with
  | File mtime =>
      [{| file_path := path_join dir item; file_name := item; file_mtime := mtime |}]
  | Dir items =>
      (fix go (l : list (string * node)) : list file :=
         match l with
         | [] => []
         | (i, c) :: rest => (files_item (path_join dir item) i c ++ go rest)%list
         end) items
  end.

Definition files_in (dir : string) : list (string * node) → list file :=
  fix go (items : list (string * node)) : list file :=
    match items with
    | [] => []
    | (i, c) :: rest => (files_item dir i c ++ go rest)%list
    end.

(** Every directory at or below an entry, children first, with its
    path and its entries. *)
Fixpoint dirs_item (dir item : string) (child : node)
  : list (string * list (string * node)) :=
  match child with
  | File _ => []
  | Dir items =>
      ((fix go (l : list (string * node)) :=
          match l with
          | [] => []
          | (i, c) :: rest => dirs_item (path_join dir item) i c ++ go rest
          end) items ++ [(path_join dir item, items)])%list
  end.

Definition dirs_in (dir : string)
  : list (string * node) → list (string * list (string * node)) :=
  fix go (items : list (string * node)) :=
    match items with
    | [] => []
    | (i, c) :: rest => (dirs_item dir i c ++ go rest)%list
    end.

(** The path a call acts on. *)
Definition target (c : fs_call) : string :=
  match c with
  | unlinkSync p => p
  | rmdirSync p => p
  end.

(** The test of the sweep on a file. *)
Definition expired (cutoff : option Z) (f : file) : bool :=
  Str.endsWith (file_name f) ".json" && older (file_mtime f) cutoff.

(** A directory all of whose files, at any depth, are expired. *)
Definition doomed (cutoff : option Z) (d : string * list (string * node)) : bool :=
  forallb (expired cutoff) (files_in (fst d) (snd d)).

(** A directory that holds no file at any depth. *)
Definition has_no_file (d : string * list (string * node)) : bool :=
  match files_in (fst d) (snd d) with
  | [] => true
  | _ :: _ => false
  end.

(** *** The loops, unfolded *)

Lemma scanItem_dir cutoff dir item items :
  scanItem cutoff dir item (Dir items) =
  let '(remaining, calls) := scanDirectory cutoff (path_join dir item) items in
  match remaining with
  | [] => ([], calls ++ [rmdirSync (path_join dir item)])
  | _ => ([(item, Dir remaining)], calls)
  end%list.
Proof. reflexivity. Qed.

Lemma files_item_dir dir item items :
  files_item dir item (Dir items) = files_in (path_join dir item) items.
Proof. reflexivity. Qed.

Lemma dirs_item_dir dir item items :
  dirs_item dir item (Dir items) =
  (dirs_in (path_join dir item) items ++ [(path_join dir item, items)])%list.
Proof. reflexivity. Qed.

Lemma scanDirectory_cons cutoff dir i c rest :
  scanDirectory cutoff dir ((i, c) :: rest) =
  let '(kept, calls1) := scanItem cutoff dir i c in
  let '(kept', calls2) := scanDirectory cutoff dir rest in
  ((kept ++ kept')%list, (calls1 ++ calls2)%list).
Proof. reflexivity. Qed.

Lemma files_in_cons dir i c rest :
  files_in dir ((i, c) :: rest) = (files_item dir i c ++ files_in dir rest)%list.
Proof. reflexivity. Qed.

Lemma dirs_in_cons dir i c rest :
  dirs_in dir ((i, c) :: rest) = (dirs_item dir i c ++ dirs_in dir rest)%list.
Proof. reflexivity. Qed.

Lemma files_in_app dir l k :
  files_in dir (l ++ k)%list = (files_in dir l ++ files_in dir k)%list.
Proof.
  induction l as [|[i c] l IH]; [done|].
  rewrite <- app_comm_cons, !files_in_cons, IH. by rewrite app_assoc.
Qed.

Lemma unlinked_app l k : unlinked (l ++ k)%list = (unlinked l ++ unlinked k)%list.
Proof. apply flat_map_app. Qed.

Lemma removed_app l k : removed (l ++ k)%list = (removed l ++ removed k)%list.
Proof. apply flat_map_app. Qed.

Lemma filter_negb_nil {A} (f : A → bool) l :
  List.filter (fun x => negb (f x)) l = [] ↔ forallb f l = true.
Proof.
  induction l as [|x l IH]; [done|]. cbn [List.filter forallb].
  destruct (f x); cbn [negb andb]; [exact IH | done].
Qed.

Lemma filter_none {A} (f : A → bool) l :
  Forall (fun x => f x = false) l → List.filter f l = [].
Proof.
  induction 1 as [|x l Hx _ IH]; [done|]. cbn [List.filter]. by rewrite Hx.
Qed.

(** *** What one sweep does *)

Section ScanFacts.
Variable cutoff : option Z.

(** The outcome of scanning entries of [dir]: which files are left,
    which were unlinked, which directories were removed; an entry is
    left only if a file is left in it. *)
Definition swept (dir : string) (files : list file)
    (dirs : list (string * list (string * node)))
    (res : list (string * node) * list fs_call) : Prop :=
  files_in dir (fst res) = List.filter (fun f => negb (expired cutoff f)) files
  ∧ unlinked (snd res) = map file_path (List.filter (expired cutoff) files)
  ∧ removed (snd res) = map fst (List.filter (doomed cutoff) dirs)
  ∧ (fst res = [] ↔ files_in dir (fst res) = []).

Lemma swept_app dir files1 files2 dirs1 dirs2 kept1 calls1 kept2 calls2 :
  swept dir files1 dirs1 (kept1, calls1) →
  swept dir files2 dirs2 (kept2, calls2) →
  swept dir (files1 ++ files2)%list (dirs1 ++ dirs2)%list
        ((kept1 ++ kept2)%list, (calls1 ++ calls2)%list).
Proof.
  unfold swept. cbn [fst snd].
  intros (Hf1 & Hu1 & Hr1 & He1) (Hf2 & Hu2 & Hr2 & He2).
  rewrite files_in_app, unlinked_app, removed_app, !List.filter_app, !map_app.
  rewrite Hf1, Hf2, Hu1, Hu2, Hr1, Hr2. repeat split; try done.
  - intros [-> ->]%app_eq_nil. rewrite <- Hf1, <- Hf2. done.
  - rewrite <- Hf1, <- Hf2. intros [H1 H2]%app_eq_nil.
    apply He1 in H1. apply He2 in H2. by subst.
Qed.

Lemma scanDirectory_swept dir items :
  Forall (fun e => ∀ dir item,
            swept dir (files_item dir item (snd e)) (dirs_item dir item (snd e))
                  (scanItem cutoff dir item (snd e))) items →
  swept dir (files_in dir items) (dirs_in dir items)
        (scanDirectory cutoff dir items).
Proof.
  induction 1 as [|[i c] rest Hc _ IH]; [done|].
  rewrite scanDirectory_cons, files_in_cons, dirs_in_cons. cbn [snd] in Hc.
  specialize (Hc dir i).
  destruct (scanItem cutoff dir i c) as [kept calls1].
  destruct (scanDirectory cutoff dir rest) as [kept' calls2].
  by apply swept_app.
Qed.

Lemma scanItem_swept child : ∀ dir item,
  swept dir (files_item dir item child) (dirs_item dir item child)
        (scanItem cutoff dir item child).
Proof.
  induction child as [mtime | items IH] using node_nested_ind; intros dir item.
  - unfold swept, expired. cbn [scanItem files_item dirs_item List.filter map].
    cbn [file_name file_mtime].
    destruct (Str.endsWith item ".json" && older mtime cutoff); cbn; done.
  - rewrite scanItem_dir, files_item_dir, dirs_item_dir.
    pose proof (scanDirectory_swept (path_join dir item) items IH) as Hsw.
    destruct (scanDirectory cutoff (path_join dir item) items)
      as [remaining calls].
    destruct Hsw as (Hf & Hu & Hr & He). cbn [fst snd] in *.
    unfold swept. rewrite List.filter_app, map_app.
    cbn [List.filter doomed fst snd].
    destruct remaining as [|r remaining].
    + assert (doomed cutoff (path_join dir item, items) = true) as ->.
      { unfold doomed. cbn [fst snd]. apply filter_negb_nil. by rewrite <- Hf. }
      cbn [fst snd files_in map]. rewrite unlinked_app, removed_app, <- Hf.
      cbn. rewrite app_nil_r, Hu, Hr. done.
    + assert (doomed cutoff (path_join dir item, items) = false) as ->.
      { apply not_true_is_false. unfold doomed. cbn [fst snd].
        intros Hall%filter_negb_nil.
        rewrite <- Hf in Hall. by apply He in Hall. }
      cbn [fst snd map]. rewrite app_nil_r.
      rewrite files_in_cons, files_item_dir. cbn [files_in]. rewrite app_nil_r.
      repeat split; try done.
      intros Hnil. by apply He in Hnil.
Qed.

Lemma scanDirectory_spec dir items :
  swept dir (files_in dir items) (dirs_in dir items)
        (scanDirectory cutoff dir items).
Proof.
  apply scanDirectory_swept, List.Forall_forall. intros e _ d i.
  apply scanItem_swept.
Qed.

End ScanFacts.

(** *** Calls stay below the directory scanned *)

Definition below (dir : string) (c : fs_call) : Prop :=
  ∃ rest, target c = dir ++ "/" ++ rest.

Lemma below_path_join dir item c : below (path_join dir item) c → below dir c.
Proof.
  intros [rest Hc]. exists (item ++ "/" ++ rest).
  rewrite Hc. unfold path_join. by rewrite !Str.append_assoc.
Qed.

Lemma below_not_self dir c : below dir c → target c ≠ dir.
Proof.
  intros [rest ->] E. apply (f_equal String.length) in E.
  rewrite !Str.length_append in E. cbn [String.length] in E. lia.
Qed.

Lemma scanDirectory_below cutoff dir items :
  Forall (fun e => ∀ dir item,
            Forall (below dir) (snd (scanItem cutoff dir item (snd e)))) items →
  Forall (below dir) (snd (scanDirectory cutoff dir items)).
Proof.
  induction 1 as [|[i c] rest Hc _ IH]; [by constructor|].
  rewrite scanDirectory_cons. specialize (Hc dir i). cbn [snd] in Hc.
  destruct (scanItem cutoff dir i c) as [kept calls1].
  destruct (scanDirectory cutoff dir rest) as [kept' calls2].
  cbn [snd] in *. apply List.Forall_app. by split.
Qed.

Lemma scanItem_below cutoff child : ∀ dir item,
  Forall (below dir) (snd (scanItem cutoff dir item child)).
Proof.
  induction child as [mtime | items IH] using node_nested_ind; intros dir item.
  - cbn [scanItem].
    destruct (Str.endsWith item ".json" && older mtime cutoff); cbn [snd];
      repeat constructor. by exists item.
  - rewrite scanItem_dir.
    pose proof (scanDirectory_below cutoff (path_join dir item) items IH) as Hb.
    destruct (scanDirectory cutoff (path_join dir item) items)
      as [remaining calls]. cbn [snd] in Hb.
    assert (Forall (below dir) calls) as Hcalls.
    { eapply List.Forall_impl; [|exact Hb]. intros c. apply below_path_join. }
    destruct remaining; cbn [snd]; [|done].
    apply List.Forall_app. split; [done|]. repeat constructor. by exists item.
Qed.

(** *** Files of a directory are files of the tree *)

Lemma dirs_in_files_incl dir items :
  Forall (fun e => ∀ dir item d, In d (dirs_item dir item (snd e)) →
            incl (files_in (fst d) (snd d)) (files_item dir item (snd e))) items →
  ∀ d, In d (dirs_in dir items) →
       incl (files_in (fst d) (snd d)) (files_in dir items).
Proof.
  induction 1 as [|[i c] rest Hc _ IH]; [done|]. intros d.
  rewrite dirs_in_cons, files_in_cons, in_app_iff. cbn [snd] in Hc.
  intros [Hd|Hd].
  - apply incl_appl. by apply Hc.
  - apply incl_appr. by apply IH.
Qed.

Lemma dirs_item_files_incl child : ∀ dir item d,
  In d (dirs_item dir item child) →
  incl (files_in (fst d) (snd d)) (files_item dir item child).
Proof.
  induction child as [mtime | items IH] using node_nested_ind;
    intros dir item d; [done|].
  rewrite dirs_item_dir, files_item_dir, in_app_iff. intros [Hd|[<-|[]]].
  - by apply dirs_in_files_incl.
  - apply incl_refl.
Qed.

(** *** Retention *)

Lemma cleanOldBackups_dir clock now daysToKeep BACKUP_DIR items :
  cleanOldBackups clock now daysToKeep BACKUP_DIR (Some (Dir items)) =
  let res := scanDirectory (cutoffDate clock now daysToKeep) BACKUP_DIR items in
  {| root_after := Some (Dir (fst res)); calls_made := snd res;
     deletedCount := List.length (unlinked (snd res));
     error_logged := false |}.
Proof.
  unfold cleanOldBackups.
  by destruct (scanDirectory (cutoffDate clock now daysToKeep) BACKUP_DIR items).
Qed.

(** The calendar of a process whose zone moved its clocks forward by
    one hour at the instant [change]: the same local time of day [n]
    days before [now] is one hour less than [n] times 24 hours before
    [now] when the change lies in between. *)
Definition clock_moved_forward (change : Z) : calendar_arithmetic :=
  fun now n =>
    let back := (now - n * msPerDay)%Z in
    if ((change <=? now) && (back <? change))%Z
    then Some (back + 3600000)%Z
    else Some back.

(** Retention as the specification states it: the files unlinked are
    the [.json] files whose age [now - mtime] is strictly greater than
    [days] days, so a file aged exactly [days] days is left. *)
Definition retention_as_specified : Prop :=
  ∀ (clock : calendar_arithmetic) (now days : Z) (BACKUP_DIR : string)
    (items : list (string * node)),
    let maxAge := (days * msPerDay)%Z in
    let out := cleanOldBackups clock now (Some days) BACKUP_DIR (Some (Dir items)) in
    unlinked (calls_made out)
    = map file_path
        (List.filter
           (fun f => Str.endsWith (file_name f) ".json"
                     && (now - file_mtime f >? maxAge)%Z)
           (files_in BACKUP_DIR items)).

(** C4, as stated, fails: the cut-off is computed on the local
    calendar ([setDate(getDate() - daysToKeep)]), and when the clocks
    moved forward in the window it is less than [daysToKeep] times 24
    hours before [now]; a file aged exactly 30 days is unlinked by a
    sweep keeping 30 days. *)
Lemma retention_as_specified_fails :
  let now := (31 * msPerDay)%Z in
  let out := cleanOldBackups (clock_moved_forward (15 * msPerDay)) now (Some 30%Z)
               "backups" (Some (Dir [("edge.json", File msPerDay)])) in
  (now - msPerDay = 30 * msPerDay)%Z
  ∧ unlinked (calls_made out) = ["backups/edge.json"]
  ∧ ¬ retention_as_specified.
Proof.
  refine (conj eq_refl (conj eq_refl _)). intros H.
  specialize (H (clock_moved_forward (15 * msPerDay)) (31 * msPerDay)%Z 30%Z
                "backups" [("edge.json", File msPerDay)]).
  discriminate H.
Qed.

(** C4, amended. A sweep deletes exactly the files whose name ends in
    [.json] and whose modification time is strictly before the cut-off,
    the instant [daysToKeep] calendar days before [now] at the same
    local time of day: the files left are the others, in place; the
    files unlinked, and counted, are those; a file modified exactly at
    the cut-off is left. On a clock for which that instant is
    [daysToKeep] times 24 hours before [now], these are the files whose
    age [now - mtime] is strictly greater than [daysToKeep] days. *)
Theorem sweep_deletes_exactly (clock : calendar_arithmetic) (now : Z)
    (daysToKeep : option Z) (BACKUP_DIR : string) (items : list (string * node)) :
  let cutoff := cutoffDate clock now daysToKeep in
  let out := cleanOldBackups clock now daysToKeep BACKUP_DIR (Some (Dir items)) in
  (∃ remaining,
      root_after out = Some (Dir remaining)
      ∧ files_in BACKUP_DIR remaining
        = List.filter (fun f => negb (expired cutoff f)) (files_in BACKUP_DIR items))
  ∧ unlinked (calls_made out)
    = map file_path (List.filter (expired cutoff) (files_in BACKUP_DIR items))
  ∧ deletedCount out
    = List.length (List.filter (expired cutoff) (files_in BACKUP_DIR items))
  ∧ (∀ f, cutoff = Some (file_mtime f) → expired cutoff f = false)
  ∧ (∀ days, daysToKeep = Some days →
       clock now days = Some (now - days * msPerDay)%Z →
       ∀ f, expired cutoff f
            = Str.endsWith (file_name f) ".json"
              && (now - file_mtime f >? days * msPerDay)%Z).
Proof.
  intros cutoff out. subst out. rewrite cleanOldBackups_dir. fold cutoff.
  destruct (scanDirectory_spec cutoff BACKUP_DIR items) as (Hf & Hu & _ & _).
  cbn [root_after calls_made deletedCount].
  refine (conj _ (conj Hu (conj _ (conj _ _)))).
  - eexists. split; [reflexivity | exact Hf].
  - by rewrite Hu, length_map.
  - intros f Hcut. unfold expired, older. rewrite Hcut, Z.ltb_irrefl.
    apply andb_false_r.
  - intros days -> Hclock f. subst cutoff. cbn [cutoffDate]. rewrite Hclock.
    unfold expired, older. f_equal.
    rewrite Z.gtb_ltb. apply eq_true_iff_eq. rewrite !Z.ltb_lt. lia.
Qed.

Lemma sweep_deletes_exactly_witness :
  let out := cleanOldBackups fixed_offset_clock (31 * msPerDay) (Some 30%Z) "backups"
               (Some (Dir [("old.json", File 0);
                           ("edge.json", File msPerDay);
                           ("old.txt", File 0)])) in
  root_after out = Some (Dir [("edge.json", File msPerDay); ("old.txt", File 0)])
  ∧ unlinked (calls_made out) = ["backups/old.json"]
  ∧ deletedCount out = 1
  ∧ ∀ f, expired (Some msPerDay) f
         = Str.endsWith (file_name f) ".json"
           && (31 * msPerDay - file_mtime f >? 30 * msPerDay)%Z.
Proof.
  destruct (sweep_deletes_exactly fixed_offset_clock (31 * msPerDay) (Some 30%Z)
              "backups"
              [("old.json", File 0); ("edge.json", File msPerDay);
               ("old.txt", File 0)])
    as ((remaining & Hroot & _) & Hunlinked & Hcount & _ & Hage).
  refine (conj _ (conj Hunlinked (conj Hcount _))); [reflexivity|].
  exact (Hage 30%Z eq_refl eq_refl).
Defined.

(** *** Empty directories *)

(** The second half of the reclamation property as the specification
    states it: a sweep that unlinks no file removes no directory. *)
Definition no_file_no_directory_as_specified : Prop :=
  ∀ (clock : calendar_arithmetic) (now : Z) (daysToKeep : option Z)
    (BACKUP_DIR : string) (items : list (string * node)),
    let out := cleanOldBackups clock now daysToKeep BACKUP_DIR (Some (Dir items)) in
    unlinked (calls_made out) = [] → removed (calls_made out) = [].

(** C7, as stated, fails: a directory that is already empty (the date
    directory of a capture that failed, for instance) is removed by a
    sweep that deletes no file. *)
Lemma no_file_no_directory_as_specified_fails :
  calls_made (cleanOldBackups fixed_offset_clock 0 (Some 30%Z) "backups"
                (Some (Dir [("2024", Dir [])])))
    = [rmdirSync "backups/2024"]
  ∧ ¬ no_file_no_directory_as_specified.
Proof.
  split; [reflexivity|]. intros H.
  specialize (H fixed_offset_clock 0%Z (Some 30%Z) "backups" [("2024", Dir [])]
                eq_refl).
  discriminate H.
Qed.

(** C7, amended. A directory below the root is removed by the sweep,
    after its own entries have been swept, exactly when every file
    below it, at any depth, is deleted by that sweep; so a day directory
    whose only file is deleted is removed in the same pass. A sweep
    that deletes no file removes exactly the directories that hold no
    file at any depth, and none when every directory holds a file. *)
Theorem empty_directory_reclamation (clock : calendar_arithmetic) (now : Z)
    (daysToKeep : option Z) (BACKUP_DIR : string) (items : list (string * node)) :
  let cutoff := cutoffDate clock now daysToKeep in
  let out := cleanOldBackups clock now daysToKeep BACKUP_DIR (Some (Dir items)) in
  removed (calls_made out)
    = map fst (List.filter (doomed cutoff) (dirs_in BACKUP_DIR items))
  ∧ (∀ dir day name mtime,
       Str.endsWith name ".json" = true → older mtime cutoff = true →
       scanItem cutoff dir day (Dir [(name, File mtime)])
       = ([], [unlinkSync (path_join (path_join dir day) name);
               rmdirSync (path_join dir day)]))
  ∧ (unlinked (calls_made out) = [] →
     removed (calls_made out)
       = map fst (List.filter has_no_file (dirs_in BACKUP_DIR items)))
  ∧ (unlinked (calls_made out) = [] →
     Forall (fun d => has_no_file d = false) (dirs_in BACKUP_DIR items) →
     removed (calls_made out) = []).
Proof.
  intros cutoff out. subst out. rewrite cleanOldBackups_dir.
  destruct (scanDirectory_spec cutoff BACKUP_DIR items) as (_ & Hu & Hr & _).
  fold cutoff. cbn [calls_made].
  assert (unlinked (scanDirectory cutoff BACKUP_DIR items).2 = [] →
          map fst (List.filter (doomed cutoff) (dirs_in BACKUP_DIR items))
          = map fst (List.filter has_no_file (dirs_in BACKUP_DIR items))) as Hnone.
  { intros Hnil. rewrite Hu in Hnil. apply map_eq_nil in Hnil.
    f_equal. apply List.filter_ext_in. intros d Hd.
    pose proof (dirs_in_files_incl BACKUP_DIR items) as Hincl.
    specialize (Hincl ltac:(apply List.Forall_forall; intros e _;
                            apply dirs_item_files_incl) d Hd).
    unfold doomed, has_no_file.
    destruct (files_in d.1 d.2) as [|f fs]; [done|].
    cbn [forallb].
    assert (expired cutoff f = false) as ->; [|done].
    apply not_true_is_false. intros Hexp.
    assert (In f (List.filter (expired cutoff) (files_in BACKUP_DIR items))) as Hin.
    { apply List.filter_In. split; [apply Hincl; by left | done]. }
    by rewrite Hnil in Hin. }
  refine (conj Hr (conj _ (conj _ _))).
  - intros dir day name mtime Hname Hold. rewrite scanItem_dir.
    unfold scanDirectory. cbn [scanItem]. by rewrite Hname, Hold.
  - intros Hnil. by rewrite Hr, Hnone.
  - intros Hnil Hall. rewrite Hr, Hnone by done.
    by rewrite filter_none.
Qed.

Lemma empty_directory_reclamation_witness :
  scanItem (Some 1000%Z) "backups/2024/05" "17" (Dir [("10_20_30_ab12cd34.json", File 10)])
    = ([], [unlinkSync "backups/2024/05/17/10_20_30_ab12cd34.json";
            rmdirSync "backups/2024/05/17"])
  ∧ removed (calls_made (cleanOldBackups fixed_offset_clock 1000 (Some 0%Z) "backups"
               (Some (Dir [("2024", Dir [("a.json", File 5000)])])))) = [].
Proof.
  pose proof (empty_directory_reclamation fixed_offset_clock 1000 (Some 0%Z) "backups"
                [("2024", Dir [("a.json", File 5000)])]) as (_ & Hday & _ & Hnone).
  split.
  - exact (Hday "backups/2024/05" "17" "10_20_30_ab12cd34.json" 10%Z
             eq_refl eq_refl).
  - apply Hnone; [reflexivity|]. repeat constructor.
Defined.

(** *** The root *)

(** C9. Whatever the tree and the retention, the sweep leaves the root
    directory in place, even with nothing left in it: every call it
    makes acts on a path strictly below [BACKUP_DIR]. *)
Theorem root_survives (clock : calendar_arithmetic) (now : Z)
    (daysToKeep : option Z) (BACKUP_DIR : string) (root : option node) :
  let out := cleanOldBackups clock now daysToKeep BACKUP_DIR root in
  match root with
  | Some (Dir _) => ∃ remaining, root_after out = Some (Dir remaining)
  | _ => root_after out = root
  end
  ∧ Forall (fun c => below BACKUP_DIR c ∧ target c ≠ BACKUP_DIR) (calls_made out).
Proof.
  intros out. subst out.
  destruct root as [[mtime|items]|]; [by split | | by split].
  rewrite cleanOldBackups_dir. cbn [root_after calls_made]. split; [by eexists|].
  assert (Forall (below BACKUP_DIR)
            (scanDirectory (cutoffDate clock now daysToKeep) BACKUP_DIR items).2) as Hb.
  { apply scanDirectory_below, List.Forall_forall. intros e _ d i.
    apply scanItem_below. }
  eapply List.Forall_impl; [|exact Hb]. intros c Hc.
  split; [done | by apply below_not_self].
Qed.

(** The root emptied by the sweep is still there. *)
Example root_emptied :
  root_after (cleanOldBackups fixed_offset_clock 1000 (Some 0%Z) "backups"
                (Some (Dir [("2024", Dir [("a.json", File 10)])])))
  = Some (Dir []).
Proof. reflexivity. Qed.

End Sweeper.

(** ** Snapshot artifacts *)

Module Artifact.

(** [{ count, documents }]. *)
Record collectionData (D : Type) : Type := {
  count : Z;
  documents : list D
}.
Arguments count {D} _.
Arguments documents {D} _.

(** [{ database, timestamp, collections }]; the collections in
    [Object.entries] order. In memory the documents are database
    documents; in the file they are what [JSON.parse] reads back. *)
Record backup (D : Type) : Type := {
  database : string;
  timestamp : string;
  collections : list (string * collectionData D)
}.
Arguments database {D} _.
Arguments timestamp {D} _.
Arguments collections {D} _.

(** The array index that a property key denotes: the key is the
    decimal text, without leading zero, of an integer from 0 to
    [2^32 - 2]. *)
Fixpoint decimal_value (s : string) (acc : N) : option N :=
  match s with
  | "" => Some acc
  | String c rest =>
      let n := N_of_ascii c in
      if ((48 <=? n) && (n <=? 57))%N
      then decimal_value rest (10 * acc + (n - 48))%N
      else None
  end.

Definition array_index (key : string) : option N :=
  match key with
  | "" => None
  | String c rest =>
      if Ascii.eqb c "0" && negb (String.eqb rest "") then None
      else match decimal_value key 0 with
           | Some n => if (n <=? 4294967294)%N then Some n else None
           | None => None
           end
  end.

(** [obj[key] = v] for a key that is an array index: the properties
    with such keys come first, in ascending order of the index. *)
Fixpoint set_element {A} (obj : list (string * A)) (n : N) (key : string) (v : A)
  : list (string * A) :=
  match obj with
  | [] => [(key, v)]
  | (k, x) :: rest =>
      match array_index k with
      | Some m =>
          if (m =? n)%N then (k, v) :: rest
          else if (n <? m)%N then (key, v) :: obj
          else (k, x) :: set_element rest n key v
      | None => (key, v) :: obj
      end
  end.

(** [obj[key] = v] for any other key: the property keeps its place when
    it exists and is added last otherwise. *)
Fixpoint set_named {A} (obj : list (string * A)) (key : string) (v : A)
  : list (string * A) :=
  match obj with
  | [] => [(key, v)]
  | (k, x) :: rest =>
      if String.eqb k key then (k, v) :: rest else (k, x) :: set_named rest key v
  end.

(** [obj[key] = v] on an object made by a literal, [v] being an object:
    the own properties afterwards, in [Object.entries] order. The key
    [__proto__] reaches the accessor of [Object.prototype] and adds no
    property. *)
Definition set_prop {A} (obj : list (string * A)) (key : string) (v : A)
  : list (string * A) :=
  if String.eqb key "__proto__" then obj
  else match array_index key with
       | Some n => set_element obj n key v
       | None => set_named obj key v
       end.

(** A key that is neither an array index nor [__proto__]. *)
Definition ordinary_name (key : string) : bool :=
  negb (String.eqb key "__proto__")
  && match array_index key with Some _ => false | None => true end.

(** [JSON.parse(JSON.stringify(backup, null, 2))]: what the file holds. *)
Definition serialize (b : backup (Codec.jsval (list byte)))
  : backup (Codec.jsval Empty_set) :=
  {| database := database b;
     timestamp := timestamp b;
     collections :=
       map (fun c => (fst c,
                      {| count := count (snd c);
                         documents := map (Codec.jsonify Codec.toJSON)
                                          (documents (snd c)) |}))
           (collections b) |}.

End Artifact.

(** ** Capture ([createBackup]) *)

Module Writer.

Import Artifact.
Local Open Scope string_scope.

(** The source database, as the driver shows it to the script: each
    call returns or throws. *)
Record server : Type := {
  connect : result unit;
  listCollections : result (list string);
  find : string → result (list (Codec.jsval (list byte)))
}.

Record world : Type := {
  files : gmap string (backup (Codec.jsval Empty_set));
  directories : gset string;
  connected : bool;
  console : list string
}.

Definition log (line : string) : io world unit := fun w =>
  (Ok (), {| files := files w; directories := directories w;
             connected := connected w; console := (console w ++ [line])%list |}).

(** [fs.mkdirSync(dir, { recursive: true })] when [dir] does not exist. *)
Definition mkdirSync (chain : list string) : io world unit := fun w =>
  (Ok (), {| files := files w;
             directories := directories w ∪ list_to_set chain;
             connected := connected w; console := console w |}).

(** [fs.writeFileSync(path, JSON.stringify(backup, null, 2))]. *)
Definition writeFileSync (path : string) (b : backup (Codec.jsval (list byte)))
  : io world unit := fun w =>
  (Ok (), {| files := <[path := serialize b]> (files w);
             directories := directories w;
             connected := connected w; console := console w |}).

Definition set_connected (b : bool) : io world unit := fun w =>
  (Ok (), {| files := files w; directories := directories w;
             connected := b; console := console w |}).

(** A call to the driver: its outcome is the server's. *)
Definition call {A} (r : result A) : io world A := fun w => (r, w).

Section Capture.
Variable srv : server.
Variable DB_NAME : string.

(** The body of the loop over [collections], filling [backup.collections]. *)
Fixpoint read_collections (names : list string)
    (acc : list (string * collectionData (Codec.jsval (list byte))))
  : io world (list (string * collectionData (Codec.jsval (list byte)))) :=
  match names with
  | [] => mret acc
  | collName :: rest =>
      _ ← log ("Respaldando colección: " ++ collName);
      documents ← call (find srv collName);
      read_collections rest
        (set_prop acc collName
           {| count := Z.of_nat (List.length documents); documents := documents |})
  end.

(** [createBackup] from [new MongoClient] on, for a given path. *)
Definition capture (backupPath : string) (timestamp : string) : io world string :=
  try_finally
    (try_catch
       (_ ← call (connect srv);
        _ ← set_connected true;
        _ ← log "Conectado a MongoDB Atlas";
        names ← call (listCollections srv);
        colls ← read_collections names [];
        _ ← writeFileSync backupPath
              {| database := DB_NAME; timestamp := timestamp; collections := colls |};
        _ ← log ("Backup creado: " ++ backupPath);
        mret backupPath)
       (fun error => _ ← log "Error al crear backup:"; throw error))
    (set_connected false).

(** [createBackup] of the scripts that file snapshots by date. *)
Definition createBackup (BACKUP_DIR : string) (now : Namer.Date)
    (timestamp : string) (randomBytes : list byte) : io world string :=
  let year := Namer.String_of (Namer.getFullYear now) in
  let month := Namer.padStart (Namer.String_of (Namer.getMonth now + 1)) 2 "0" in
  let dateFolder := Namer.dateDir BACKUP_DIR now in
  let backupPath := Namer.generateBackupPath BACKUP_DIR now randomBytes in
  _ ← mkdirSync [Namer.path_join [BACKUP_DIR; year];
                 Namer.path_join [BACKUP_DIR; year; month];
                 dateFolder];
  capture backupPath timestamp.

End Capture.

(** An error occurs before the write: the connection fails, the
    listing fails, or the query of one of the listed collections fails. *)
Definition fails_before_write (srv : server) : Prop :=
  is_Ok (connect srv) = false
  ∨ is_Ok (listCollections srv) = false
  ∨ ∃ names name, listCollections srv = Ok names ∧ In name names
                  ∧ is_Ok (find srv name) = false.

(** *** No file is written before the last step *)

Section CaptureFacts.
Variable srv : server.
Variable DB_NAME : string.

Lemma read_collections_files names : ∀ acc w,
  files (snd (read_collections srv names acc w)) = files w.
Proof.
  induction names as [|name rest IH]; intros acc w; [done|].
  cbn [read_collections]. unfold mbind, io_bind, log, call.
  destruct (find srv name) as [documents|e]; [|done].
  by rewrite IH.
Qed.

Lemma read_collections_fails names name : ∀ acc w,
  In name names → is_Ok (find srv name) = false →
  is_Ok (fst (read_collections srv names acc w)) = false.
Proof.
  induction names as [|n rest IH]; intros acc w; [done|].
  intros [->|Hin] Hfail; cbn [read_collections];
    unfold mbind, io_bind, log, call.
  - by destruct (find srv name).
  - destruct (find srv n) as [documents|e]; [|done]. by apply IH.
Qed.

Lemma capture_fails backupPath timestamp w :
  fails_before_write srv →
  is_Ok (fst (capture srv DB_NAME backupPath timestamp w)) = false
  ∧ files (snd (capture srv DB_NAME backupPath timestamp w)) = files w
  ∧ connected (snd (capture srv DB_NAME backupPath timestamp w)) = false.
Proof.
  intros Hfail.
  unfold capture, try_finally, try_catch, mbind, io_bind, call, throw, log,
    set_connected, mret, io_ret.
  destruct (connect srv) as [[]|e] eqn:Hc; [|done]. cbn [files console connected].
  destruct (listCollections srv) as [names|e] eqn:Hl; [|done].
  destruct Hfail as [Hfail|[Hfail|(names' & name & Hnames & Hin & Hfind)]];
    [by rewrite Hc in Hfail | by rewrite Hl in Hfail |].
  rewrite Hl in Hnames. injection Hnames as <-.
  match goal with
  | |- context [read_collections srv names [] ?w0] =>
      pose proof (read_collections_fails names name [] w0 Hin Hfind) as Hr;
      pose proof (read_collections_files names [] w0) as Hf;
      destruct (read_collections srv names [] w0) as [[colls|e] w1]
  end; [done|]. by cbn in *.
Qed.

End CaptureFacts.

(** C1. If the connection, the listing of the collections or the query
    of one collection fails, [createBackup] throws, writes no file (the
    files are those of before, so a target path that held no file holds
    none), and leaves the connection closed. *)
Theorem capture_is_atomic (srv : server) (DB_NAME BACKUP_DIR : string)
    (now : Namer.Date) (timestamp : string) (randomBytes : list byte) (w : world) :
  fails_before_write srv →
  let backupPath := Namer.generateBackupPath BACKUP_DIR now randomBytes in
  let run := createBackup srv DB_NAME BACKUP_DIR now timestamp randomBytes w in
  is_Ok (fst run) = false
  ∧ files (snd run) = files w
  ∧ (files w !! backupPath = None → files (snd run) !! backupPath = None)
  ∧ connected (snd run) = false.
Proof.
  intros Hfail backupPath run. subst run.
  unfold createBackup, mbind, io_bind, mkdirSync.
  match goal with
  | |- context [capture srv DB_NAME ?p timestamp ?w0] =>
      destruct (capture_fails srv DB_NAME p timestamp w0 Hfail) as (Hr & Hf & Hc)
  end.
  cbn [files] in Hf. refine (conj Hr (conj Hf (conj _ Hc))).
  by rewrite Hf.
Qed.

Definition empty_world : world :=
  {| files := ∅; directories := ∅; connected := false; console := [] |}.

Definition sample_date : Namer.Date :=
  {| Namer.getFullYear := 2024; Namer.getMonth := 4; Namer.getDate := 17;
     Namer.getHours := 10; Namer.getMinutes := 20; Namer.getSeconds := 30;
     Namer.getMilliseconds := 0 |}.

(** A server whose second collection cannot be read. *)
Definition flaky_server : server :=
  {| connect := Ok ();
     listCollections := Ok ["users"; "orders"];
     find := fun name =>
       if String.eqb name "users"
       then Ok [Codec.JObj [("_id", Codec.JId Codec.sample_id)]]
       else Throw MongoNetworkError |}.

Lemma capture_is_atomic_witness :
  let run := createBackup flaky_server "shop" "backups" sample_date
               "2024-05-17T10:20:30.000Z" ["171"; "018"; "205"; "052"]%byte
               empty_world in
  is_Ok (fst run) = false
  ∧ files (snd run) = ∅
  ∧ (files empty_world !! "backups/2024/05/17/10_20_30_ab12cd34.json" = None →
     files (snd run) !! "backups/2024/05/17/10_20_30_ab12cd34.json" = None)
  ∧ connected (snd run) = false.
Proof.
  apply (capture_is_atomic flaky_server "shop" "backups" sample_date
           "2024-05-17T10:20:30.000Z" ["171"; "018"; "205"; "052"]%byte empty_world).
  right. right. exists ["users"; "orders"], "orders".
  split; [reflexivity|]. split; [right; left; reflexivity | reflexivity].
Defined.

(** When nothing fails the snapshot is written in one step. *)
Definition good_server : server :=
  {| connect := Ok ();
     listCollections := Ok ["users"];
     find := fun _ =>
       Ok [Codec.JObj [("_id", Codec.JId Codec.sample_id); ("name", Codec.JStr "Ana")]] |}.

Example capture_writes_snapshot :
  let run := createBackup good_server "shop" "backups" sample_date
               "2024-05-17T10:20:30.000Z" ["171"; "018"; "205"; "052"]%byte
               empty_world in
  fst run = Ok "backups/2024/05/17/10_20_30_ab12cd34.json"
  ∧ files (snd run) !! "backups/2024/05/17/10_20_30_ab12cd34.json"
    = Some {| database := "shop"; timestamp := "2024-05-17T10:20:30.000Z";
              collections :=
                [("users",
                  {| count := 1;
                     documents :=
                       [Codec.JObj [("_id", Codec.JStr Codec.sample_hex);
                                    ("name", Codec.JStr "Ana")]] |})] |}.
Proof. split; [reflexivity|]. vm_compute. reflexivity. Qed.

End Writer.

(** ** Restore ([restoreBackup]) *)

Module Restorer.

Import Artifact.
Local Open Scope string_scope.

(** The two restore scripts: [src/restore.js] rebuilds identifiers and
    inserts with [{ ordered: false }]; the other script inserts the
    parsed documents as they are, with the driver's default (ordered). *)
Inductive script : Type :=
| WithObjectIds
| Plain.

(** The live database as the driver shows it to the script. [rejects]
    is the server's verdict on a document offered to a collection
    (validation, size); the collection has just been emptied when the
    documents of a snapshot are offered. *)
Record server : Type := {
  connect : result unit;
  deleteMany_fails : string → bool;
  rejects : string → Codec.jsval (list byte) → bool
}.

Record world : Type := {
  db : gmap string (list (Codec.jsval (list byte)));
  connected : bool;
  console : list string
}.

(** The documents of a collection; none when it does not exist. *)
Definition contents (w : world) (name : string) : list (Codec.jsval (list byte)) :=
  default [] (db w !! name).

Definition log (line : string) : io world unit := fun w =>
  (Ok (), {| db := db w; connected := connected w;
             console := (console w ++ [line])%list |}).

Definition set_connected (b : bool) : io world unit := fun w =>
  (Ok (), {| db := db w; connected := b; console := console w |}).

Definition call {A} (r : result A) : io world A := fun w => (r, w).

(** The documents written by a bulk insert and whether one was
    refused: an ordered insert stops at the first refusal, an unordered
    one goes on with the rest of the batch. *)
Fixpoint insert_docs (ordered : bool) (refused : Codec.jsval (list byte) → bool)
    (docs : list (Codec.jsval (list byte)))
  : list (Codec.jsval (list byte)) * bool :=
  match docs with
  | [] => ([], false)
  | d :: rest =>
      if refused d then
        if ordered then ([], true)
        else (fst (insert_docs ordered refused rest), true)
      else
        let '(written, failed) := insert_docs ordered refused rest in
        (d :: written, failed)
  end.

Section Driver.
Variable srv : server.

(** [collection.deleteMany({})]; resolves to [deletedCount]. *)
Definition deleteMany (name : string) : io world nat := fun w =>
  if deleteMany_fails srv name then (Throw MongoServerError, w)
  else (Ok (List.length (contents w name)),
        {| db := alter (fun _ => []) name (db w);
           connected := connected w; console := console w |}).

(** [collection.insertMany(docs, { ordered })]: refuses an argument
    that is not a non-empty array; writes the documents the server
    accepts and throws once the batch is done if one was refused. *)
Definition insertMany (ordered : bool) (name : string)
    (docs : Codec.jsval (list byte)) : io world unit :=
  match docs with
  | Codec.JArr (d :: rest) => fun w =>
      let '(written, failed) := insert_docs ordered (rejects srv name) (d :: rest) in
      ((if failed then Throw MongoBulkWriteError else Ok ()),
       {| db := <[name := (contents w name ++ written)%list]> (db w);
          connected := connected w; console := console w |})
  | _ => throw MongoInvalidArgument
  end.

End Driver.

Section Restore.
Variable srv : server.
Variable ObjectId_other : Codec.jsval Empty_set → result (list byte).
Variable which : script.

(** What is handed to [insertMany]:
    [restoreObjectIds(collectionData.documents)] in [src/restore.js],
    [collectionData.documents] in the other script. *)
Definition documentsToInsert (documents : list (Codec.jsval Empty_set))
  : result (Codec.jsval (list byte)) :=
  match which with
  | WithObjectIds => Codec.restoreObjectIds ObjectId_other (Codec.JArr documents)
  | Plain => Ok (Codec.as_doc (Codec.JArr documents))
  end.

Definition ordered : bool :=
  match which with
  | WithObjectIds => false
  | Plain => true
  end.

(** The body of the loop over [Object.entries(backupData.collections)]. *)
Definition restore_collection
    (entry : string * collectionData (Codec.jsval Empty_set)) : io world unit :=
  let collectionName := fst entry in
  let collectionData := snd entry in
  _ ← log ("Procesando " ++ collectionName);
  deleteResult ← deleteMany srv collectionName;
  _ ← log "documentos eliminados";
  if (count collectionData >? 0)%Z then
    docs ← call (documentsToInsert (documents collectionData));
    _ ← insertMany srv ordered collectionName docs;
    log "documentos restaurados"
  else
    log "Colección vacía, no hay documentos para restaurar".

(** [restoreBackup] from the answer to the confirmation prompt on;
    [confirmed] is [confirm.toLowerCase() === 's']. *)
Definition restoreBackup (backupData : backup (Codec.jsval Empty_set))
    (confirmed : bool) : io world unit :=
  if negb confirmed then log "Restauración cancelada"
  else
    try_finally
      (try_catch
         (_ ← call (connect srv);
          _ ← set_connected true;
          _ ← for_of (collections backupData) restore_collection;
          log "Restauración completada exitosamente")
         (fun error => _ ← log "Error durante la restauración:"; throw error))
      (_ ← set_connected false; log "Conexión cerrada").

(** A collection of the snapshot that the server takes whole. *)
Definition restores_cleanly
    (entry : string * collectionData (Codec.jsval Empty_set)) : Prop :=
  deleteMany_fails srv (fst entry) = false
  ∧ ((count (snd entry) > 0)%Z →
     ∃ d rest, documentsToInsert (documents (snd entry)) = Ok (Codec.JArr (d :: rest))
               ∧ existsb (rejects srv (fst entry)) (d :: rest) = false).

End Restore.

(** *** Bulk inserts *)

(** The documents written by an ordered insert: those before the first
    refusal. *)
Fixpoint accepted_prefix {A} (refused : A → bool) (docs : list A) : list A :=
  match docs with
  | [] => []
  | d :: rest => if refused d then [] else d :: accepted_prefix refused rest
  end.

Lemma insert_docs_unordered refused docs :
  insert_docs false refused docs
  = (List.filter (fun d => negb (refused d)) docs, existsb refused docs).
Proof.
  induction docs as [|d rest IH]; [done|]. cbn [insert_docs List.filter existsb].
  rewrite IH. by destruct (refused d).
Qed.

Lemma insert_docs_ordered refused docs :
  insert_docs true refused docs
  = (accepted_prefix refused docs, existsb refused docs).
Proof.
  induction docs as [|d rest IH]; [done|].
  cbn [insert_docs accepted_prefix existsb]. rewrite IH. by destruct (refused d).
Qed.

Lemma insert_docs_none_refused o refused docs :
  snd (insert_docs o refused docs) = false → fst (insert_docs o refused docs) = docs.
Proof.
  induction docs as [|d rest IH]; [done|]. cbn [insert_docs].
  destruct (refused d); [by destruct o|].
  destruct (insert_docs o refused rest) as [written failed]. cbn [fst snd] in *.
  intros ->. by rewrite IH.
Qed.

Lemma insert_docs_failed o refused docs :
  snd (insert_docs o refused docs) = existsb refused docs.
Proof.
  destruct o; by rewrite ?insert_docs_ordered, ?insert_docs_unordered.
Qed.

(** *** The restore as a function on the database *)

Section RestoreFacts.
Variable srv : server.
Variable other : Codec.jsval Empty_set → result (list byte).
Variable which : script.

Definition restore_collection_db
    (entry : string * collectionData (Codec.jsval Empty_set))
    (m : gmap string (list (Codec.jsval (list byte))))
  : result unit * gmap string (list (Codec.jsval (list byte))) :=
  let name := fst entry in
  if deleteMany_fails srv name then (Throw MongoServerError, m)
  else
    let emptied := alter (fun _ => []) name m in
    if (count (snd entry) >? 0)%Z then
      match documentsToInsert other which (documents (snd entry)) with
      | Ok (Codec.JArr (d :: rest)) =>
          let '(written, failed) :=
            insert_docs (ordered which) (rejects srv name) (d :: rest) in
          ((if failed then Throw MongoBulkWriteError else Ok ()),
           <[name := written]> emptied)
      | Ok _ => (Throw MongoInvalidArgument, emptied)
      | Throw e => (Throw e, emptied)
      end
    else (Ok (), emptied).

Fixpoint restore_all_db
    (entries : list (string * collectionData (Codec.jsval Empty_set)))
    (m : gmap string (list (Codec.jsval (list byte))))
  : result unit * gmap string (list (Codec.jsval (list byte))) :=
  match entries with
  | [] => (Ok (), m)
  | entry :: rest =>
      match restore_collection_db entry m with
      | (Ok _, m') => restore_all_db rest m'
      | (Throw e, m') => (Throw e, m')
      end
  end.

Definition restoreBackup_db (backupData : backup (Codec.jsval Empty_set))
    (confirmed : bool) (m : gmap string (list (Codec.jsval (list byte))))
  : result unit * gmap string (list (Codec.jsval (list byte))) :=
  if negb confirmed then (Ok (), m)
  else match connect srv with
       | Ok _ => restore_all_db (collections backupData) m
       | Throw e => (Throw e, m)
       end.

Lemma contents_emptied name (m : gmap string (list (Codec.jsval (list byte)))) :
  default [] (alter (fun _ => []) name m !! name) = [].
Proof.
  rewrite lookup_alter. case_decide; [|done]. by destruct (m !! name).
Qed.

Lemma restore_collection_db_eq entry w :
  (fst (restore_collection srv other which entry w),
   db (snd (restore_collection srv other which entry w)))
  = restore_collection_db entry (db w).
Proof.
  unfold restore_collection, restore_collection_db, mbind, io_bind, log,
    deleteMany, call, insertMany, throw.
  cbn [db connected console].
  destruct (deleteMany_fails srv entry.1); [done|]. cbn [db connected console].
  destruct (count entry.2 >? 0)%Z; [|done].
  destruct (documentsToInsert other which (documents entry.2))
    as [[| | | | | |[|d rest]|]|e]; try done.
  cbn [db connected console]. unfold contents. cbn [db].
  rewrite contents_emptied.
  destruct (insert_docs _ _ _) as [written []]; done.
Qed.

Lemma for_of_db_eq entries : ∀ w,
  (fst (for_of entries (restore_collection srv other which) w),
   db (snd (for_of entries (restore_collection srv other which) w)))
  = restore_all_db entries (db w).
Proof.
  induction entries as [|entry rest IH]; intros w; [done|].
  cbn [for_of restore_all_db]. unfold mbind, io_bind.
  pose proof (restore_collection_db_eq entry w) as Hstep.
  destruct (restore_collection srv other which entry w) as [[[]|e] w1];
    cbn [fst snd] in Hstep; rewrite <- Hstep; [apply IH | done].
Qed.

Lemma restoreBackup_db_eq backupData confirmed w :
  (fst (restoreBackup srv other which backupData confirmed w),
   db (snd (restoreBackup srv other which backupData confirmed w)))
  = restoreBackup_db backupData confirmed (db w).
Proof.
  unfold restoreBackup, restoreBackup_db.
  destruct confirmed; cbn [negb]; [|done].
  unfold try_finally, try_catch, mbind, io_bind, call, set_connected, log, throw.
  destruct (connect srv) as [[]|e]; [|done].
  match goal with
  | |- context [for_of ?l ?b ?w0] =>
      pose proof (for_of_db_eq l w0) as Hloop;
      destruct (for_of l b w0) as [[[]|e] w1]
  end; cbn [fst snd db] in *; by rewrite <- Hloop.
Qed.

Lemma restoreBackup_db_split backupData confirmed w :
  fst (restoreBackup srv other which backupData confirmed w)
    = fst (restoreBackup_db backupData confirmed (db w))
  ∧ db (snd (restoreBackup srv other which backupData confirmed w))
    = snd (restoreBackup_db backupData confirmed (db w)).
Proof. by rewrite <- restoreBackup_db_eq. Qed.

End RestoreFacts.

Section RestoreProperties.
Variable srv : server.
Variable other : Codec.jsval Empty_set → result (list byte).
Variable which : script.

Lemma documentsToInsert_nil :
  documentsToInsert other which [] = Ok (Codec.JArr []).
Proof. by destruct which. Qed.

Lemma restore_collection_db_frame entry m n :
  n ≠ fst entry → snd (restore_collection_db srv other which entry m) !! n = m !! n.
Proof.
  intros Hn. unfold restore_collection_db.
  destruct (deleteMany_fails srv entry.1); [done|].
  destruct (count entry.2 >? 0)%Z; cbn [snd].
  - destruct (documentsToInsert other which (documents entry.2))
      as [[| | | | | |[|d rest]|]|e]; cbn [snd];
      try (by rewrite lookup_alter_ne).
    destruct (insert_docs _ _ _) as [written failed]. cbn [snd].
    by rewrite lookup_insert_ne, lookup_alter_ne.
  - by rewrite lookup_alter_ne.
Qed.

Lemma restore_all_db_frame entries : ∀ m n,
  ¬ In n (map fst entries) →
  snd (restore_all_db srv other which entries m) !! n = m !! n.
Proof.
  induction entries as [|entry rest IH]; intros m n Hn; [done|].
  cbn [restore_all_db]. cbn [map In] in Hn.
  pose proof (restore_collection_db_frame entry m n) as Hstep.
  destruct (restore_collection_db srv other which entry m) as [[[]|e] m1];
    cbn [snd] in *.
  - rewrite IH by tauto. apply Hstep. intros ->. tauto.
  - apply Hstep. intros ->. tauto.
Qed.

Lemma restore_collection_db_ok entry m :
  fst (restore_collection_db srv other which entry m) = Ok () →
  count (snd entry) = Z.of_nat (List.length (documents (snd entry))) →
  ∃ items,
    documentsToInsert other which (documents (snd entry)) = Ok (Codec.JArr items)
    ∧ default [] (snd (restore_collection_db srv other which entry m) !! fst entry)
      = items.
Proof.
  unfold restore_collection_db. intros Hok Hcount.
  destruct (deleteMany_fails srv entry.1); [done|].
  destruct (count entry.2 >? 0)%Z eqn:Hpos.
  - destruct (documentsToInsert other which (documents entry.2))
      as [[| | | | | |[|d rest]|]|e]; try done.
    pose proof (insert_docs_none_refused (ordered which) (rejects srv entry.1)
                  (d :: rest)) as Hall.
    destruct (insert_docs _ _ _) as [written failed]. cbn [fst snd] in *.
    destruct failed; [done|]. exists (d :: rest). split; [done|].
    by rewrite lookup_insert_eq, Hall.
  - rewrite Z.gtb_ltb in Hpos. apply Z.ltb_ge in Hpos. exists []. cbn [snd].
    destruct (documents entry.2) as [|d rest]; [|cbn in Hcount; lia].
    split; [apply documentsToInsert_nil | apply contents_emptied].
Qed.

Lemma restore_all_db_ok entries : ∀ m,
  fst (restore_all_db srv other which entries m) = Ok () →
  NoDup (map fst entries) →
  ∀ entry, In entry entries →
    count (snd entry) = Z.of_nat (List.length (documents (snd entry))) →
    ∃ items,
      documentsToInsert other which (documents (snd entry)) = Ok (Codec.JArr items)
      ∧ default [] (snd (restore_all_db srv other which entries m) !! fst entry)
        = items.
Proof.
  induction entries as [|e0 rest IH]; intros m Hok Hnodup entry Hin Hcount;
    [done|].
  cbn [restore_all_db] in *. cbn [map] in Hnodup.
  apply NoDup_cons in Hnodup as [Hfresh Hnodup].
  pose proof (restore_collection_db_ok e0 m) as Hstep.
  destruct (restore_collection_db srv other which e0 m) as [[[]|e] m1];
    cbn [fst snd] in *; [|done].
  destruct Hin as [<-|Hin].
  - destruct (Hstep eq_refl Hcount) as (items & Hdocs & Hitems).
    exists items. split; [done|].
    rewrite restore_all_db_frame; [done|]. by rewrite <- list_elem_of_In.
  - by apply IH.
Qed.

Lemma restore_collection_db_clean entry m :
  restores_cleanly srv other which entry →
  fst (restore_collection_db srv other which entry m) = Ok ().
Proof.
  intros [Hdel Hins]. unfold restore_collection_db. rewrite Hdel.
  destruct (count entry.2 >? 0)%Z eqn:Hpos; [|done].
  rewrite Z.gtb_ltb in Hpos. apply Z.ltb_lt in Hpos.
  destruct Hins as (d & rest & -> & Hnone); [lia|].
  pose proof (insert_docs_failed (ordered which) (rejects srv entry.1) (d :: rest))
    as Hfailed.
  destruct (insert_docs _ _ _) as [written failed]. cbn [fst snd] in *.
  by rewrite Hfailed, Hnone.
Qed.

Lemma restore_all_db_clean entries : ∀ m,
  Forall (restores_cleanly srv other which) entries →
  fst (restore_all_db srv other which entries m) = Ok ().
Proof.
  induction entries as [|entry rest IH]; intros m Hall; [done|].
  apply Forall_cons in Hall as [Hentry Hrest]. cbn [restore_all_db].
  pose proof (restore_collection_db_clean entry m Hentry) as Hstep.
  destruct (restore_collection_db srv other which entry m) as [[[]|e] m1];
    [by apply IH | done].
Qed.

Lemma restore_all_db_app l1 l2 m :
  restore_all_db srv other which (l1 ++ l2) m =
  match restore_all_db srv other which l1 m with
  | (Ok _, m') => restore_all_db srv other which l2 m'
  | (Throw e, m') => (Throw e, m')
  end.
Proof.
  revert m. induction l1 as [|entry rest IH]; intros m; [done|].
  cbn [app restore_all_db].
  destruct (restore_collection_db srv other which entry m) as [[[]|e] m1];
    [apply IH | done].
Qed.

End RestoreProperties.

(** *** Per-collection overwrite *)

(** C6. The restore changes no collection that the snapshot does not
    name, whether it completes or not; and when it is confirmed and
    completes, every collection named in the snapshot (whose recorded
    count is the number of its documents) holds exactly the documents
    handed to [insertMany] for it: the former ones are gone. *)
Theorem restore_overwrites_per_collection (srv : server)
    (other : Codec.jsval Empty_set → result (list byte)) (which : script)
    (backupData : backup (Codec.jsval Empty_set)) (confirmed : bool) (w : world) :
  let run := restoreBackup srv other which backupData confirmed w in
  (∀ name, ¬ In name (map fst (collections backupData)) →
           db (snd run) !! name = db w !! name)
  ∧ (confirmed = true → fst run = Ok () →
     NoDup (map fst (collections backupData)) →
     ∀ name data, In (name, data) (collections backupData) →
       count data = Z.of_nat (List.length (documents data)) →
       ∃ items,
         documentsToInsert other which (documents data) = Ok (Codec.JArr items)
         ∧ contents (snd run) name = items).
Proof.
  intros run. subst run.
  destruct (restoreBackup_db_split srv other which backupData confirmed w)
    as [Efst Edb].
  unfold contents. rewrite Efst, Edb. unfold restoreBackup_db. split.
  - intros name Hname. destruct confirmed; [|done]. cbn [negb].
    destruct (connect srv) as [[]|e]; [|done].
    by apply restore_all_db_frame.
  - intros -> Hok Hnodup name data Hin Hcount. cbn [negb] in *.
    destruct (connect srv) as [[]|e]; [|done].
    exact (restore_all_db_ok srv other which _ _ Hok Hnodup (name, data) Hin Hcount).
Qed.

Definition lenient_server : server :=
  {| connect := Ok (); deleteMany_fails := fun _ => false;
     rejects := fun _ _ => false |}.

Definition snapshot_AB : backup (Codec.jsval Empty_set) :=
  {| database := "shop"; timestamp := "2024-05-17T10:20:30.000Z";
     collections :=
       [("A", {| count := 1;
                 documents := [Codec.JObj [("_id", Codec.JStr Codec.sample_hex)]] |});
        ("B", {| count := 0; documents := [] |})] |}.

Definition live_ABC : world :=
  {| db := {[ "A" := [Codec.JStr "a0"; Codec.JStr "a1"];
              "B" := [Codec.JStr "b0"];
              "C" := [Codec.JStr "c0"] ]};
     connected := false; console := [] |}.

Lemma restore_overwrites_per_collection_witness :
  let run := restoreBackup lenient_server Codec.no_other WithObjectIds
               snapshot_AB true live_ABC in
  db (snd run) !! "C" = Some [Codec.JStr "c0"]
  ∧ contents (snd run) "A" = [Codec.JObj [("_id", Codec.JId Codec.sample_id)]]
  ∧ contents (snd run) "B" = [].
Proof.
  destruct (restore_overwrites_per_collection lenient_server Codec.no_other
              WithObjectIds snapshot_AB true live_ABC) as [Hframe Hreplace].
  assert (NoDup (map fst (collections snapshot_AB))) as Hnodup.
  { apply NoDup_cons. split; [|apply NoDup_singleton].
    rewrite list_elem_of_In. cbn. intros [?|[]]; discriminate. }
  specialize (Hreplace eq_refl eq_refl Hnodup).
  refine (conj _ (conj _ _)).
  - rewrite (Hframe "C"); [reflexivity|].
    cbn. intros [?|[?|[]]]; discriminate.
  - destruct (Hreplace "A" _ (or_introl eq_refl) eq_refl) as (items & Hi & ->).
    by injection Hi as <-.
  - destruct (Hreplace "B" _ (or_intror (or_introl eq_refl)) eq_refl)
      as (items & Hi & ->).
    by injection Hi as <-.
Defined.

(** *** A refused document *)

(** The tolerance of refused documents as the specification states it:
    when nothing else goes wrong (the server is reached, every
    collection is emptied, every batch is a non-empty array), the
    restore of [src/restore.js] does not fail. *)
Definition partial_success_as_specified : Prop :=
  ∀ (srv : server) (other : Codec.jsval Empty_set → result (list byte))
    (backupData : backup (Codec.jsval Empty_set)) (w : world),
    connect srv = Ok () →
    (∀ name, deleteMany_fails srv name = false) →
    Forall (fun entry =>
              ∃ d rest, documentsToInsert other WithObjectIds (documents (snd entry))
                        = Ok (Codec.JArr (d :: rest)))
           (collections backupData) →
    fst (restoreBackup srv other WithObjectIds backupData true w) = Ok ().

(** A server that refuses the documents that have a property [bad]. *)
Definition strict_server : server :=
  {| connect := Ok (); deleteMany_fails := fun _ => false;
     rejects := fun _ d =>
       match d with
       | Codec.JObj entries => Codec.truthy (Codec.get "bad" entries)
       | _ => false
       end |}.

Definition snapshot_with_bad : backup (Codec.jsval Empty_set) :=
  {| database := "shop"; timestamp := "2024-05-17T10:20:30.000Z";
     collections :=
       [("users",
         {| count := 3;
            documents := [Codec.JObj [("name", Codec.JStr "Ana")];
                          Codec.JObj [("bad", Codec.JBool true)];
                          Codec.JObj [("name", Codec.JStr "Luz")]] |});
        ("orders",
         {| count := 1; documents := [Codec.JObj [("n", Codec.JStr "o1")]] |})] |}.

Definition live_shop : world :=
  {| db := {[ "users" := [Codec.JStr "u0"]; "orders" := [Codec.JStr "old"] ]};
     connected := false; console := [] |}.

(** C8, as stated, fails: the document refused in [users] makes
    [insertMany] throw once the batch is done; [restoreBackup] logs the
    error and throws it again, and [orders] is never reached. *)
Lemma partial_success_as_specified_fails :
  let run := restoreBackup strict_server Codec.no_other WithObjectIds
               snapshot_with_bad true live_shop in
  fst run = Throw MongoBulkWriteError
  ∧ contents (snd run) "users" = [Codec.JObj [("name", Codec.JStr "Ana")];
                                  Codec.JObj [("name", Codec.JStr "Luz")]]
  ∧ contents (snd run) "orders" = [Codec.JStr "old"]
  ∧ ¬ partial_success_as_specified.
Proof.
  refine (conj eq_refl (conj eq_refl (conj eq_refl _))).
  intros H.
  specialize (H strict_server Codec.no_other snapshot_with_bad live_shop
                eq_refl (fun _ => eq_refl)).
  assert (fst (restoreBackup strict_server Codec.no_other WithObjectIds
                 snapshot_with_bad true live_shop) = Ok ()) as Hok.
  { apply H. repeat constructor; cbn; eauto. }
  discriminate Hok.
Qed.

(** C8, amended. When a batch reaches [insertMany] and the server
    refuses one of its documents, the restore throws
    [MongoBulkWriteError]: the failure is escalated. With
    [src/restore.js] (unordered insert) every document of the batch that
    the server accepts has been written, those after the refused one
    included; with the other script (ordered insert) only the documents
    before the first refusal have. The collections that follow in the
    snapshot are left as they were. *)
Theorem refused_document_stops_restore (srv : server)
    (other : Codec.jsval Empty_set → result (list byte)) (which : script)
    (database timestamp : string)
    (before after : list (string * collectionData (Codec.jsval Empty_set)))
    (name : string) (data : collectionData (Codec.jsval Empty_set))
    (docs : list (Codec.jsval (list byte))) (w : world) :
  connect srv = Ok () →
  Forall (restores_cleanly srv other which) before →
  deleteMany_fails srv name = false →
  (count data > 0)%Z →
  documentsToInsert other which (documents data) = Ok (Codec.JArr docs) →
  existsb (rejects srv name) docs = true →
  let backupData :=
    {| database := database; timestamp := timestamp;
       collections := (before ++ (name, data) :: after)%list |} in
  let run := restoreBackup srv other which backupData true w in
  fst run = Throw MongoBulkWriteError
  ∧ contents (snd run) name
    = match which with
      | WithObjectIds => List.filter (fun d => negb (rejects srv name d)) docs
      | Plain => accepted_prefix (rejects srv name) docs
      end
  ∧ (∀ n, ¬ In n (map fst before) → n ≠ name → db (snd run) !! n = db w !! n).
Proof.
  intros Hconnect Hbefore Hdelete Hcount Hdocs Hrefused backupData run.
  subst run backupData.
  match goal with
  | |- context [restoreBackup srv other which ?b true w] =>
      destruct (restoreBackup_db_split srv other which b true w) as [Efst Edb]
  end.
  unfold contents. rewrite Efst, Edb.
  unfold restoreBackup_db. cbn [negb collections]. rewrite Hconnect.
  rewrite restore_all_db_app.
  pose proof (restore_all_db_clean srv other which before (db w) Hbefore) as Hok.
  pose proof (restore_all_db_frame srv other which before (db w)) as Hframe.
  destruct (restore_all_db srv other which before (db w)) as [[[]|e] m1];
    [|done]. cbn [fst snd] in *.
  cbn [restore_all_db]. unfold restore_collection_db. cbn [fst snd].
  rewrite Hdelete, Hdocs.
  assert ((count data >? 0)%Z = true) as -> by (apply Z.gtb_lt; lia).
  destruct docs as [|d rest]; [done|].
  pose proof (insert_docs_failed (ordered which) (rejects srv name) (d :: rest))
    as Hfailed.
  assert (fst (insert_docs (ordered which) (rejects srv name) (d :: rest))
          = match which with
            | WithObjectIds =>
                List.filter (fun d => negb (rejects srv name d)) (d :: rest)
            | Plain => accepted_prefix (rejects srv name) (d :: rest)
            end) as Hwritten.
  { destruct which; unfold ordered;
      by rewrite ?insert_docs_unordered, ?insert_docs_ordered. }
  destruct (insert_docs _ _ _) as [written failed]. cbn [fst snd] in *.
  rewrite Hfailed, Hrefused. cbn [fst snd].
  refine (conj eq_refl (conj _ _)).
  - by rewrite lookup_insert_eq, Hwritten.
  - intros n Hn Hne.
    rewrite lookup_insert_ne, lookup_alter_ne by done. by apply Hframe.
Qed.

Lemma refused_document_stops_restore_witness :
  let run := restoreBackup strict_server Codec.no_other WithObjectIds
               snapshot_with_bad true live_shop in
  fst run = Throw MongoBulkWriteError
  ∧ contents (snd run) "users"
    = List.filter (fun d => negb (rejects strict_server "users" d))
        [Codec.JObj [("name", Codec.JStr "Ana")];
         Codec.JObj [("bad", Codec.JBool true)];
         Codec.JObj [("name", Codec.JStr "Luz")]]
  ∧ (∀ n, ¬ In n (map fst (@nil (string * collectionData (Codec.jsval Empty_set)))) →
          n ≠ "users" → db (snd run) !! n = db live_shop !! n).
Proof.
  apply (refused_document_stops_restore strict_server Codec.no_other WithObjectIds
           "shop" "2024-05-17T10:20:30.000Z" []
           [("orders",
             {| count := 1; documents := [Codec.JObj [("n", Codec.JStr "o1")]] |})]
           "users"
           {| count := 3;
              documents := [Codec.JObj [("name", Codec.JStr "Ana")];
                            Codec.JObj [("bad", Codec.JBool true)];
                            Codec.JObj [("name", Codec.JStr "Luz")]] |}
           _ live_shop);
    [reflexivity | constructor | reflexivity | reflexivity | reflexivity | reflexivity].
Defined.

End Restorer.

(** ** Catalog of snapshots ([getAllBackups], [listBackups], [selectBackup]) *)

Module Catalog.

Import Sweeper.
Local Open Scope string_scope.

(** One turn of [files.forEach] in [getAllBackups(dir, fileList)]: the
    array [fileList] is shared by all the calls and grows by [push]. *)
Fixpoint collectItem (dir file : string) (child : node) (fileList : list string)
  : list string :=
  let filePath := path_join dir file in
  match child with
  | Dir items =>
      (fix each (l : list (string * node)) (fileList : list string) :=
         match l with
         | [] => fileList
         | (f, c) :: rest => each rest (collectItem filePath f c fileList)
         end) items fileList
  | File _ =>
      if Str.endsWith file ".json" then (fileList ++ [filePath])%list
      else fileList
  end.

(** [getAllBackups(dir, fileList)] on a directory with entries [items]. *)
Definition getAllBackups (dir : string)
  : list (string * node) → list string → list string :=
  fix each (items : list (string * node)) (fileList : list string) :=
    match items with
    | [] => fileList
    | (f, c) :: rest => each rest (collectItem dir f c fileList)
    end.

(** [Array.prototype.sort()] on strings, without comparator: ascending
    order of code units. The sorted arrangement of a list of strings is
    unique, so the algorithm does not matter; insertion is used here. *)
Fixpoint insert_sorted (x : string) (l : list string) : list string :=
  match l with
  | [] => [x]
  | y :: rest => if String.leb x y then x :: l else y :: insert_sorted x rest
  end.

Fixpoint sort (l : list string) : list string :=
  match l with
  | [] => []
  | x :: rest => insert_sorted x (sort rest)
  end.

(** [listBackups()], [root] being what is at [backupDir]: an empty list
    when nothing is there; [readdirSync] throws on a path that is not a
    directory and nothing catches it here. *)
Definition listBackups (backupDir : string) (root : option node)
  : result (list string) :=
  match root with
  | None => Ok []
  | Some (File _) => Throw SystemError
  | Some (Dir items) => Ok (rev (sort (getAllBackups backupDir items [])))
  end.

(** *** [parseInt(s)] without radix *)

(** White space skipped by [parseInt], among the code units below 256. *)
Definition is_space (c : ascii) : bool :=
  let n := N_of_ascii c in
  ((9 <=? n) && (n <=? 13) || (n =? 32) || (n =? 160))%N.

Fixpoint trim_start (s : string) : string :=
  match s with
  | String c rest => if is_space c then trim_start rest else s
  | "" => ""
  end.

(** The value of a digit in the given radix. *)
Definition digit_value (radix : Z) (c : ascii) : option Z :=
  let n := Z.of_N (N_of_ascii c) in
  let v :=
    if ((48 <=? n) && (n <=? 57))%Z then Some (n - 48)%Z
    else if ((97 <=? n) && (n <=? 122))%Z then Some (n - 87)%Z
    else if ((65 <=? n) && (n <=? 90))%Z then Some (n - 55)%Z
    else None in
  match v with
  | Some d => if (d <? radix)%Z then Some d else None
  | None => None
  end.

(** The longest prefix of digits, as a number; [NaN] ([None]) when it
    is empty. *)
Fixpoint digits (radix : Z) (s : string) (acc : Z) (seen : bool) : option Z :=
  match s with
  | String c rest =>
      match digit_value radix c with
      | Some d => digits radix rest (acc * radix + d)%Z true
      | None => if seen then Some acc else None
      end
  | "" => if seen then Some acc else None
  end.

Definition parseInt (s : string) : option Z :=
  let s1 := trim_start s in
  let '(sign, s2) :=
    match s1 with
    | String "-" rest => ((-1)%Z, rest)
    | String "+" rest => (1%Z, rest)
    | _ => (1%Z, s1)
    end in
  let '(radix, s3) :=
    match s2 with
    | String "0" (String "x" rest) => (16%Z, rest)
    | String "0" (String "X" rest) => (16%Z, rest)
    | _ => (10%Z, s2)
    end in
  match digits radix s3 0 false with
  | Some n => Some (sign * n)%Z
  | None => None
  end.

(** [selectBackup()] once the list is shown and [answer] is read:
    [null] ([None]) for an empty list, for [q], and for an answer that
    is not the number of a line. *)
Definition selectBackup (backups : list string) (answer : string)
  : option string :=
  match backups with
  | [] => None
  | _ =>
      if String.eqb answer "q" || String.eqb answer "Q" then None
      else
        match parseInt answer with
        | None => None
        | Some n =>
            let index := (n - 1)%Z in
            if (index <? 0)%Z || (Z.of_nat (List.length backups) <=? index)%Z
            then None
            else nth_error backups (Z.to_nat index)
        end
  end.

(** The number shown before the entry of index [index]:
    [`${index + 1}.`]. *)
Definition shown_number (index : nat) : string :=
  Namer.String_of (Z.of_nat index + 1).

(** *** What the walk collects *)

Definition is_json (f : file) : bool := Str.endsWith (file_name f) ".json".

(** The paths of the [.json] files of a tree, in the order of the walk. *)
Definition json_paths (dir : string) (items : list (string * node)) : list string :=
  map file_path (List.filter is_json (files_in dir items)).

Lemma getAllBackups_cons dir f c rest fileList :
  getAllBackups dir ((f, c) :: rest) fileList
  = getAllBackups dir rest (collectItem dir f c fileList).
Proof. reflexivity. Qed.

Lemma collectItem_dir dir file items fileList :
  collectItem dir file (Dir items) fileList
  = getAllBackups (path_join dir file) items fileList.
Proof. reflexivity. Qed.

Lemma getAllBackups_collects dir items :
  Forall (fun e => ∀ dir file fileList,
            collectItem dir file (snd e) fileList
            = (fileList ++ map file_path
                 (List.filter is_json (files_item dir file (snd e))))%list) items →
  ∀ fileList,
    getAllBackups dir items fileList = (fileList ++ json_paths dir items)%list.
Proof.
  unfold json_paths.
  induction 1 as [|[f c] rest Hc _ IH]; intros fileList.
  - by rewrite app_nil_r.
  - rewrite getAllBackups_cons, IH, files_in_cons, List.filter_app, map_app.
    cbn [snd] in Hc. by rewrite Hc, app_assoc.
Qed.

Lemma collectItem_collects child : ∀ dir file fileList,
  collectItem dir file child fileList
  = (fileList ++ map file_path
       (List.filter is_json (files_item dir file child)))%list.
Proof.
  induction child as [mtime | items IH] using node_nested_ind;
    intros dir file fileList.
  - cbn [collectItem files_item List.filter]. unfold is_json. cbn [file_name].
    destruct (Str.endsWith file ".json"); [done | by rewrite app_nil_r].
  - rewrite collectItem_dir, files_item_dir. by apply getAllBackups_collects.
Qed.

(** *** Sorting *)

(** The order of a listing: no entry is smaller than one that follows. *)
Definition newest_first (x y : string) : Prop := String.le y x.

Lemma insert_sorted_perm x l : Permutation (insert_sorted x l) (x :: l).
Proof.
  induction l as [|y l IH]; [done|]. cbn [insert_sorted].
  destruct (String.leb x y); [done|]. rewrite IH. apply perm_swap.
Qed.

Lemma sort_perm l : Permutation (sort l) l.
Proof.
  induction l as [|x l IH]; [done|]. cbn [sort].
  by rewrite insert_sorted_perm, IH.
Qed.

Lemma insert_sorted_sorted x l :
  StronglySorted String.le l → StronglySorted String.le (insert_sorted x l).
Proof.
  induction 1 as [|y l Hl IH Hy]; cbn [insert_sorted].
  - repeat constructor.
  - destruct (String.leb x y) eqn:Hxy.
    + constructor; [by constructor|]. constructor.
      * unfold String.le. by rewrite Hxy.
      * eapply List.Forall_impl; [|exact Hy]. intros z Hyz.
        transitivity y; [|done]. unfold String.le. by rewrite Hxy.
    + constructor; [done|].
      assert (String.le y x) as Hyx.
      { destruct (String.leb_total x y) as [H|H]; [congruence|].
        unfold String.le. by rewrite H. }
      rewrite List.Forall_forall in *. intros z Hz.
      apply (Permutation_in _ (insert_sorted_perm x l)) in Hz as [<-|Hz];
        [done | by apply Hy].
Qed.

Lemma sort_sorted l : StronglySorted String.le (sort l).
Proof.
  induction l as [|x l IH]; [constructor|]. by apply insert_sorted_sorted.
Qed.

Lemma rev_sorted l :
  StronglySorted String.le l → StronglySorted newest_first (rev l).
Proof.
  induction 1 as [|x l Hl IH Hx]; [constructor|]. cbn [rev].
  apply StronglySorted_app_2; [|done|repeat constructor].
  intros y z Hy ->%list_elem_of_singleton.
  rewrite List.Forall_forall in Hx. apply Hx.
  apply list_elem_of_In in Hy. by apply in_rev.
Qed.

(** *** The listing *)

(** X1. [listBackups] returns the empty list when the directory does
    not exist; on a directory it returns the paths of all the [.json]
    files below it, each once per file, arranged so that no path is
    smaller than a path that follows it. *)
Theorem listBackups_newest_first (backupDir : string) (items : list (string * node)) :
  listBackups backupDir None = Ok []
  ∧ ∃ backups,
      listBackups backupDir (Some (Dir items)) = Ok backups
      ∧ Permutation backups (json_paths backupDir items)
      ∧ StronglySorted newest_first backups.
Proof.
  split; [done|]. eexists. split; [reflexivity|].
  assert (getAllBackups backupDir items [] = json_paths backupDir items) as ->.
  { rewrite getAllBackups_collects; [done|].
    apply List.Forall_forall. intros e _ d f fl. apply collectItem_collects. }
  split.
  - by rewrite <- Permutation_rev, sort_perm.
  - apply rev_sorted, sort_sorted.
Qed.

Lemma sorted_places_larger_first (l : list string) (a b : string) :
  StronglySorted newest_first l → In a l → In b l → Namer.str_lt a b →
  ∃ l1 l2 l3, l = (l1 ++ b :: l2 ++ a :: l3)%list.
Proof.
  intros Hsorted Ha Hb Hlt.
  apply in_split in Ha as (k1 & k3 & ->).
  assert (a ≠ b) as Hne.
  { intros ->. unfold Namer.str_lt in Hlt.
    pose proof (String.compare_antisym b b) as Hanti.
    rewrite Hlt in Hanti. discriminate Hanti. }
  apply in_app_or in Hb as [Hb|[Hb|Hb]]; [|done|].
  - apply in_split in Hb as (l1 & l2 & ->).
    exists l1, l2, k3. by rewrite <- app_assoc.
  - exfalso. apply StronglySorted_app_1_r in Hsorted.
    apply StronglySorted_cons in Hsorted as [Hall _].
    rewrite List.Forall_forall in Hall. specialize (Hall b Hb).
    unfold newest_first, String.le, String.leb, Namer.str_lt in *.
    rewrite String.compare_antisym, Hlt in Hall. done.
Qed.

(** X2. If the directory holds the snapshots of two captures whose
    years have four digits, the listing shows the snapshot of the later
    capture (later by at least a calendar second) before that of the
    earlier one. *)
Theorem later_capture_listed_first (backupDir : string)
    (items : list (string * node)) (a b : Namer.Date) (ra rb : list byte)
    (backups : list string) :
  Namer.calendar a → Namer.calendar b →
  (1000 <= Namer.getFullYear a <= 9999)%Z →
  (1000 <= Namer.getFullYear b <= 9999)%Z →
  Namer.earlier_second a b →
  In (Namer.generateBackupPath backupDir a ra) (json_paths backupDir items) →
  In (Namer.generateBackupPath backupDir b rb) (json_paths backupDir items) →
  listBackups backupDir (Some (Dir items)) = Ok backups →
  ∃ l1 l2 l3,
    backups = (l1 ++ Namer.generateBackupPath backupDir b rb
                  :: l2 ++ Namer.generateBackupPath backupDir a ra :: l3)%list.
Proof.
  intros Ha Hb Hya Hyb Hlt Hina Hinb Hlist.
  destruct (listBackups_newest_first backupDir items)
    as (_ & backups' & Hlist' & Hperm & Hsorted).
  rewrite Hlist in Hlist'. injection Hlist' as <-.
  apply sorted_places_larger_first; [done | | |].
  - by apply (Permutation_in _ (Permutation_sym Hperm)).
  - by apply (Permutation_in _ (Permutation_sym Hperm)).
  - by apply Namer.steps_in_seconds.
Qed.

Definition two_days : list (string * node) :=
  [("2024", Dir [("12", Dir [("31", Dir [("23_59_59_ffffffff.json", File 0)])])]);
   ("2025", Dir [("01", Dir [("01", Dir [("00_00_00_00000000.json", File 0)])])])].

Lemma later_capture_listed_first_witness :
  ∃ l1 l2 l3,
    ["backups/2025/01/01/00_00_00_00000000.json";
     "backups/2024/12/31/23_59_59_ffffffff.json"]
    = (l1 ++ Namer.generateBackupPath "backups" Namer.day_two
               ["000"; "000"; "000"; "000"]%byte
          :: l2 ++ Namer.generateBackupPath "backups" Namer.day_one
                     ["255"; "255"; "255"; "255"]%byte :: l3)%list.
Proof.
  apply (later_capture_listed_first "backups" two_days Namer.day_one Namer.day_two);
    try (unfold Namer.calendar, Namer.earlier_second, Namer.day_one, Namer.day_two;
         simpl; lia).
  - left. reflexivity.
  - right. left. reflexivity.
  - reflexivity.
Defined.

(** *** Selection *)

Lemma digits_of_uint_acc d : ∀ acc,
  digits 10 (NilEmpty.string_of_uint d) (Zpos acc) true
  = Some (Zpos (Pos.of_uint_acc d acc)).
Proof.
  induction d; intros acc; cbn [NilEmpty.string_of_uint digits Pos.of_uint_acc];
    try reflexivity;
    match goal with
    | |- context [digit_value 10 ?c] =>
        let v := eval vm_compute in (digit_value 10 c) in
        change (digit_value 10 c) with v
    end; cbv iota; rewrite <- IHd; f_equal; lia.
Qed.

Lemma digits_of_uint d : ∀ seen,
  seen = true ∨ d ≠ Decimal.Nil →
  digits 10 (NilEmpty.string_of_uint d) 0 seen = Some (Z.of_N (Pos.of_uint d)).
Proof.
  induction d; intros seen Hseen;
    cbn [NilEmpty.string_of_uint digits Pos.of_uint];
    try (match goal with
         | |- context [digit_value 10 ?c] =>
             let v := eval vm_compute in (digit_value 10 c) in
             change (digit_value 10 c) with v
         end; cbv iota; cbn [Z.mul Z.add]).
  - by destruct Hseen as [->|?].
  - apply IHd. by left.
  - apply (digits_of_uint_acc d 1).
  - apply (digits_of_uint_acc d 2).
  - apply (digits_of_uint_acc d 3).
  - apply (digits_of_uint_acc d 4).
  - apply (digits_of_uint_acc d 5).
  - apply (digits_of_uint_acc d 6).
  - apply (digits_of_uint_acc d 7).
  - apply (digits_of_uint_acc d 8).
  - apply (digits_of_uint_acc d 9).
Qed.

Lemma parseInt_string_of_uint d :
  d ≠ Decimal.Nil →
  parseInt (NilEmpty.string_of_uint d)
  = match digits 10 (NilEmpty.string_of_uint d) 0 false with
    | Some n => Some (1 * n)%Z
    | None => None
    end.
Proof.
  destruct d as [|d|d|d|d|d|d|d|d|d|d]; [done|..]; intros _;
    destruct d; reflexivity.
Qed.

(** [parseInt] reads back the decimal text of a positive integer. *)
Lemma parseInt_String_of (p : positive) :
  parseInt (Namer.String_of (Zpos p)) = Some (Zpos p).
Proof.
  unfold Namer.String_of. cbn [Z.to_int NilZero.string_of_int].
  unfold NilZero.string_of_uint.
  pose proof (DecimalPos.Unsigned.to_uint_nonnil p) as Hnil.
  pose proof (DecimalPos.Unsigned.of_to p) as Hof.
  destruct (Pos.to_uint p) eqn:E; try done;
    rewrite <- E in *; rewrite parseInt_string_of_uint by done;
    rewrite digits_of_uint by (by right); rewrite Hof; f_equal; lia.
Qed.

(** X3. [selectBackup] only ever returns an entry of the list it was
    given: the entry whose line number, counted from 1, is the value
    [parseInt] gives to the answer. *)
Theorem selectBackup_sound (backups : list string) (answer path : string) :
  selectBackup backups answer = Some path →
  ∃ index, nth_error backups index = Some path
           ∧ parseInt answer = Some (Z.of_nat index + 1)%Z.
Proof.
  unfold selectBackup. destruct backups as [|b0 rest]; [done|].
  destruct (String.eqb answer "q" || String.eqb answer "Q"); [done|].
  destruct (parseInt answer) as [n|]; [|done].
  destruct ((n - 1 <? 0)%Z || _) eqn:Hrange; [done|].
  intros Hnth. exists (Z.to_nat (n - 1)). split; [done|].
  apply orb_false_elim in Hrange as [Hlo _]. apply Z.ltb_ge in Hlo.
  f_equal. lia.
Qed.

Lemma selectBackup_sound_witness :
  ∃ index, nth_error ["c.json"; "b.json"; "a.json"] index = Some "b.json"
           ∧ parseInt " 2" = Some (Z.of_nat index + 1)%Z.
Proof.
  apply (selectBackup_sound ["c.json"; "b.json"; "a.json"] " 2" "b.json").
  reflexivity.
Defined.

(** X4. Answering with the number shown before an entry selects that
    entry. *)
Theorem shown_number_selects (backups : list string) (index : nat) (path : string) :
  nth_error backups index = Some path →
  selectBackup backups (shown_number index) = Some path.
Proof.
  intros Hnth. unfold selectBackup, shown_number.
  destruct backups as [|b0 rest]; [by destruct index|].
  replace (Z.of_nat index + 1)%Z with (Zpos (Pos.of_succ_nat index)) by lia.
  pose proof (parseInt_String_of (Pos.of_succ_nat index)) as Hparse.
  destruct (String.eqb_spec (Namer.String_of (Z.pos (Pos.of_succ_nat index))) "q")
    as [Hq|_]; [by rewrite Hq in Hparse|].
  destruct (String.eqb_spec (Namer.String_of (Z.pos (Pos.of_succ_nat index))) "Q")
    as [Hq|_]; [by rewrite Hq in Hparse|].
  cbn [orb]. rewrite Hparse.
  assert (index < List.length (b0 :: rest))%nat as Hlen
    by (apply nth_error_Some; congruence).
  replace (Z.pos (Pos.of_succ_nat index) - 1)%Z with (Z.of_nat index) by lia.
  assert ((Z.of_nat index <? 0)%Z = false) as -> by (apply Z.ltb_ge; lia).
  assert ((Z.of_nat (List.length (b0 :: rest)) <=? Z.of_nat index)%Z = false)
    as -> by (apply Z.leb_gt; lia).
  cbn [orb]. by rewrite Nat2Z.id.
Qed.

Lemma shown_number_selects_witness :
  selectBackup ["c.json"; "b.json"; "a.json"] (shown_number 2) = Some "a.json".
Proof. apply shown_number_selects. reflexivity. Defined.

(*CATALOG*)
End Catalog.


(** ** More on retention *)

Module Retention.

Import Sweeper.
Local Open Scope string_scope.

Section Sweep.
Variable cutoff : option Z.

(** *** A second sweep finds nothing to do *)

(** Entries that a scan leaves as they are, without a call. *)
Definition stable (dir : string) (items : list (string * node)) : Prop :=
  scanDirectory cutoff dir items = (items, []).

Lemma scanDirectory_app dir l k :
  scanDirectory cutoff dir (l ++ k)%list
  = ((fst (scanDirectory cutoff dir l) ++ fst (scanDirectory cutoff dir k))%list,
     (snd (scanDirectory cutoff dir l) ++ snd (scanDirectory cutoff dir k))%list).
Proof.
  induction l as [|[i c] l IH].
  - cbn [app]. by destruct (scanDirectory cutoff dir k).
  - rewrite <- app_comm_cons, !scanDirectory_cons, IH.
    destruct (scanItem cutoff dir i c) as [kept calls1].
    destruct (scanDirectory cutoff dir l) as [kept' calls2].
    cbn [fst snd]. by rewrite !app_assoc.
Qed.

Lemma stable_app dir l k : stable dir l → stable dir k → stable dir (l ++ k)%list.
Proof. unfold stable. intros Hl Hk. by rewrite scanDirectory_app, Hl, Hk. Qed.

Lemma scanDirectory_stable dir items :
  Forall (fun e => ∀ dir item,
            stable dir (fst (scanItem cutoff dir item (snd e)))) items →
  stable dir (fst (scanDirectory cutoff dir items)).
Proof.
  induction 1 as [|[i c] rest Hc _ IH]; [done|].
  rewrite scanDirectory_cons. specialize (Hc dir i). cbn [snd] in Hc.
  destruct (scanItem cutoff dir i c) as [kept calls1].
  destruct (scanDirectory cutoff dir rest) as [kept' calls2].
  by apply stable_app.
Qed.

Lemma scanItem_stable child : ∀ dir item,
  stable dir (fst (scanItem cutoff dir item child)).
Proof.
  induction child as [mtime | items IH] using node_nested_ind; intros dir item.
  - cbn [scanItem].
    destruct (Str.endsWith item ".json" && older mtime cutoff) eqn:E; [done|].
    unfold stable. cbn [fst]. rewrite scanDirectory_cons. cbn [scanItem].
    by rewrite E.
  - rewrite scanItem_dir.
    pose proof (scanDirectory_stable (path_join dir item) items IH) as Hst.
    destruct (scanDirectory cutoff (path_join dir item) items)
      as [remaining calls]. cbn [fst] in Hst.
    destruct remaining as [|r remaining]; [done|]. cbn [fst].
    unfold stable in *. rewrite scanDirectory_cons, scanItem_dir, Hst. done.
Qed.

Lemma sweep_stable dir items : stable dir (fst (scanDirectory cutoff dir items)).
Proof.
  apply scanDirectory_stable, List.Forall_forall. intros e _ d i.
  apply scanItem_stable.
Qed.

(** *** What a sweep leaves behind *)

Lemma dirs_in_app dir l k :
  dirs_in dir (l ++ k)%list = (dirs_in dir l ++ dirs_in dir k)%list.
Proof.
  induction l as [|[i c] l IH]; [done|].
  rewrite <- app_comm_cons, !dirs_in_cons, IH. by rewrite app_assoc.
Qed.

Lemma scanDirectory_no_empty dir items :
  Forall (fun e => ∀ dir item,
            Forall (fun d => has_no_file d = false)
                   (dirs_in dir (fst (scanItem cutoff dir item (snd e))))) items →
  Forall (fun d => has_no_file d = false)
         (dirs_in dir (fst (scanDirectory cutoff dir items))).
Proof.
  induction 1 as [|[i c] rest Hc _ IH]; [by constructor|].
  rewrite scanDirectory_cons. specialize (Hc dir i). cbn [snd] in Hc.
  destruct (scanItem cutoff dir i c) as [kept calls1].
  destruct (scanDirectory cutoff dir rest) as [kept' calls2].
  cbn [fst] in *. rewrite dirs_in_app. apply List.Forall_app. by split.
Qed.

Lemma scanItem_no_empty child : ∀ dir item,
  Forall (fun d => has_no_file d = false)
         (dirs_in dir (fst (scanItem cutoff dir item child))).
Proof.
  induction child as [mtime | items IH] using node_nested_ind; intros dir item.
  - cbn [scanItem].
    destruct (Str.endsWith item ".json" && older mtime cutoff); by constructor.
  - rewrite scanItem_dir.
    pose proof (scanDirectory_no_empty (path_join dir item) items IH) as Hsub.
    destruct (scanDirectory_spec cutoff (path_join dir item) items)
      as (_ & _ & _ & Hfiles).
    destruct (scanDirectory cutoff (path_join dir item) items)
      as [remaining calls]. cbn [fst] in *.
    destruct remaining as [|r remaining]; [by constructor|]. cbn [fst].
    rewrite dirs_in_cons, dirs_item_dir. cbn [dirs_in]. rewrite app_nil_r.
    apply List.Forall_app. split; [done|]. constructor; [|constructor].
    unfold has_no_file. cbn [fst snd].
    assert (files_in (path_join dir item) (r :: remaining) ≠ []) as Hne.
    { intros E. by apply Hfiles in E. }
    by destruct (files_in (path_join dir item) (r :: remaining)).
Qed.

End Sweep.

(** X5. Sweeping again at once changes nothing: the second run of
    [cleanOldBackups], with the same clock reading and retention, makes
    no call, counts no deletion and leaves the tree as the first run
    left it. *)
Theorem sweep_twice (clock : calendar_arithmetic) (now : Z)
    (daysToKeep : option Z) (BACKUP_DIR : string) (root : option node) :
  let first := cleanOldBackups clock now daysToKeep BACKUP_DIR root in
  let second := cleanOldBackups clock now daysToKeep BACKUP_DIR (root_after first) in
  root_after second = root_after first
  ∧ calls_made second = []
  ∧ deletedCount second = 0.
Proof.
  intros first second. subst first second.
  destruct root as [[mtime|items]|]; [done| |done].
  rewrite (cleanOldBackups_dir clock now daysToKeep BACKUP_DIR items).
  cbn [root_after]. rewrite cleanOldBackups_dir.
  pose proof (sweep_stable (cutoffDate clock now daysToKeep) BACKUP_DIR items)
    as Hst.
  unfold stable in Hst. by rewrite Hst.
Qed.

(** X6. After a sweep every directory left below the root holds at
    least one file, at some depth, and no file left is one the sweep
    deletes. *)
Theorem sweep_postcondition (clock : calendar_arithmetic) (now : Z)
    (daysToKeep : option Z) (BACKUP_DIR : string) (items : list (string * node)) :
  let cutoff := cutoffDate clock now daysToKeep in
  let out := cleanOldBackups clock now daysToKeep BACKUP_DIR (Some (Dir items)) in
  ∃ remaining,
    root_after out = Some (Dir remaining)
    ∧ Forall (fun d => has_no_file d = false) (dirs_in BACKUP_DIR remaining)
    ∧ Forall (fun f => expired cutoff f = false) (files_in BACKUP_DIR remaining).
Proof.
  intros cutoff out. subst out. rewrite cleanOldBackups_dir. fold cutoff.
  cbn [root_after]. eexists. split; [reflexivity|]. split.
  - apply scanDirectory_no_empty, List.Forall_forall. intros e _ d i.
    apply scanItem_no_empty.
  - destruct (scanDirectory_spec cutoff BACKUP_DIR items) as (-> & _).
    apply List.Forall_forall. intros f [_ Hf]%List.filter_In.
    by apply negb_true_iff.
Qed.

(** X7. When the retention is not a number ([DAYS_TO_KEEP] unset or not
    numeric), or the cut-off is not a valid date, the sweep deletes no
    file: every file of the tree is left. *)
Theorem invalid_retention_deletes_nothing (clock : calendar_arithmetic) (now : Z)
    (daysToKeep : option Z) (BACKUP_DIR : string) (items : list (string * node)) :
  cutoffDate clock now daysToKeep = None →
  let out := cleanOldBackups clock now daysToKeep BACKUP_DIR (Some (Dir items)) in
  unlinked (calls_made out) = []
  ∧ deletedCount out = 0
  ∧ ∃ remaining, root_after out = Some (Dir remaining)
                 ∧ files_in BACKUP_DIR remaining = files_in BACKUP_DIR items.
Proof.
  intros Hcut out. subst out. rewrite cleanOldBackups_dir, Hcut.
  cbn [root_after calls_made deletedCount].
  destruct (scanDirectory_spec None BACKUP_DIR items) as (Hf & Hu & _ & _).
  assert (∀ l : list file, List.filter (expired None) l = []) as Hnone.
  { intros l. apply filter_none, List.Forall_forall. intros f _.
    unfold expired, older. apply andb_false_r. }
  rewrite Hu, Hnone. refine (conj eq_refl (conj eq_refl _)).
  eexists. split; [reflexivity|]. rewrite Hf.
  apply forallb_filter_id, forallb_forall. intros f _.
  unfold expired, older. by rewrite andb_false_r.
Qed.

Lemma invalid_retention_deletes_nothing_witness :
  let out := cleanOldBackups fixed_offset_clock (400 * msPerDay) None "backups"
               (Some (Dir [("2020", Dir [("old.json", File 0)]); ("empty", Dir [])])) in
  unlinked (calls_made out) = []
  ∧ deletedCount out = 0
  ∧ ∃ remaining,
      root_after out = Some (Dir remaining)
      ∧ files_in "backups" remaining
        = files_in "backups" [("2020", Dir [("old.json", File 0)]); ("empty", Dir [])].
Proof. apply invalid_retention_deletes_nothing. reflexivity. Defined.

Lemma split_by {A B} (keep drop : A → bool) (g : A → B) (l : list A) :
  (∀ x, drop x = true → keep x = true) →
  Permutation (map g (List.filter keep l))
    (map g (List.filter keep (List.filter (fun x => negb (drop x)) l))
     ++ map g (List.filter drop l)).
Proof.
  intros Hsub. induction l as [|x l IH]; [done|]. cbn [List.filter].
  destruct (drop x) eqn:Hdrop; cbn [negb].
  - rewrite (Hsub x Hdrop). cbn [map]. by apply Permutation_cons_app.
  - cbn [List.filter]. destruct (keep x); cbn [map app]; [by constructor | done].
Qed.

(** X8. A sweep splits the catalog in two: the snapshots listed before
    it are those still listed after it together with those it unlinked. *)
Theorem sweep_splits_catalog (cutoff : option Z) (dir : string)
    (items : list (string * node)) :
  Permutation (Catalog.getAllBackups dir items [])
    (Catalog.getAllBackups dir (fst (scanDirectory cutoff dir items)) []
     ++ unlinked (snd (scanDirectory cutoff dir items))).
Proof.
  assert (∀ l, Catalog.getAllBackups dir l [] = Catalog.json_paths dir l) as Hcat.
  { intros l. rewrite Catalog.getAllBackups_collects; [done|].
    apply List.Forall_forall. intros e _ d f fl. apply Catalog.collectItem_collects. }
  rewrite !Hcat. unfold Catalog.json_paths.
  destruct (scanDirectory_spec cutoff dir items) as (-> & -> & _).
  apply split_by. intros f. unfold expired, Catalog.is_json.
  by intros [? _]%andb_prop.
Qed.

End Retention.

(** ** More on capture *)

Module Snapshot.

Import Artifact Writer.
Local Open Scope string_scope.

Section Facts.
Variable srv : server.
Variable DB_NAME : string.

(** The record made for a collection whose documents are [docs]. *)
Definition record_of (docs : list (Codec.jsval (list byte)))
  : collectionData (Codec.jsval (list byte)) :=
  {| count := Z.of_nat (List.length docs); documents := docs |}.

(** [backup.collections] after the loop over [names]. *)
Definition collections_of (docs : string → list (Codec.jsval (list byte)))
    (names : list string)
    (acc : list (string * collectionData (Codec.jsval (list byte))))
  : list (string * collectionData (Codec.jsval (list byte))) :=
  fold_left (fun obj name => set_prop obj name (record_of (docs name))) names acc.

Lemma set_prop_fresh {A} (obj : list (string * A)) key v :
  ordinary_name key = true →
  ¬ In key (map fst obj) → set_prop obj key v = (obj ++ [(key, v)])%list.
Proof.
  unfold ordinary_name, set_prop. intros [Hproto Hindex]%andb_prop.
  apply negb_true_iff in Hproto. rewrite Hproto.
  destruct (array_index key); [done|]. clear Hproto Hindex.
  induction obj as [|[k x] obj IH]; [done|]. cbn [map fst In set_named].
  intros Hfresh. destruct (String.eqb_spec k key) as [->|_]; [tauto|].
  rewrite IH; [done | tauto].
Qed.

Lemma read_collections_ok (docs : string → list (Codec.jsval (list byte))) names :
  ∀ acc w,
    (∀ name, In name names → find srv name = Ok (docs name)) →
    fst (read_collections srv names acc w) = Ok (collections_of docs names acc).
Proof.
  induction names as [|name rest IH]; intros acc w Hfind; [done|].
  cbn [read_collections]. unfold mbind, io_bind, log, call.
  rewrite (Hfind name) by (by left).
  rewrite IH; [done|]. intros n Hn. apply Hfind. by right.
Qed.

Lemma collections_of_ordinary (docs : string → list (Codec.jsval (list byte))) names :
  ∀ acc,
    NoDup names → Forall (fun name => ordinary_name name = true) names →
    (∀ name, In name names → ¬ In name (map fst acc)) →
    collections_of docs names acc
    = (acc ++ map (fun name => (name, record_of (docs name))) names)%list.
Proof.
  unfold collections_of.
  induction names as [|name rest IH]; intros acc Hnodup Hord Hfresh.
  - cbn. by rewrite app_nil_r.
  - cbn [fold_left]. apply NoDup_cons in Hnodup as [Hname Hnodup].
    apply Forall_cons in Hord as [Hn Hord].
    rewrite set_prop_fresh by (done || (apply Hfresh; by left)).
    rewrite IH; [cbn [map]; by rewrite <- app_assoc | done | done |].
    intros n Hin. rewrite map_app, in_app_iff. cbn. intros [Hacc|[<-|[]]].
    + by apply (Hfresh n); [right|].
    + by apply Hname, list_elem_of_In.
Qed.

Lemma read_collections_world names : ∀ acc w,
  directories (snd (read_collections srv names acc w)) = directories w
  ∧ connected (snd (read_collections srv names acc w)) = connected w.
Proof.
  induction names as [|name rest IH]; intros acc w; [done|].
  cbn [read_collections]. unfold mbind, io_bind, log, call.
  destruct (find srv name) as [documents|e]; [|done].
  by rewrite !(proj1 (IH _ _)), !(proj2 (IH _ _)).
Qed.

Lemma capture_world backupPath timestamp w :
  directories (snd (capture srv DB_NAME backupPath timestamp w)) = directories w
  ∧ connected (snd (capture srv DB_NAME backupPath timestamp w)) = false.
Proof.
  unfold capture, try_finally, try_catch, mbind, io_bind, call, throw, log,
    set_connected, mret, io_ret, writeFileSync.
  destruct (connect srv) as [[]|e]; [|done]. cbn [files console connected directories].
  destruct (listCollections srv) as [names|e]; [|done].
  match goal with
  | |- context [read_collections srv names [] ?w0] =>
      pose proof (read_collections_world names [] w0) as [Hd Hc];
      destruct (read_collections srv names [] w0) as [[colls|e] w1]
  end; cbn in *; by rewrite Hd.
Qed.

Lemma capture_ok backupPath timestamp w names
    (docs : string → list (Codec.jsval (list byte))) :
  connect srv = Ok () →
  listCollections srv = Ok names →
  (∀ name, In name names → find srv name = Ok (docs name)) →
  fst (capture srv DB_NAME backupPath timestamp w) = Ok backupPath
  ∧ files (snd (capture srv DB_NAME backupPath timestamp w))
    = <[backupPath :=
          serialize
            {| database := DB_NAME; timestamp := timestamp;
               collections := collections_of docs names [] |}]>
        (files w).
Proof.
  intros Hconnect Hlist Hfind.
  unfold capture, try_finally, try_catch, mbind, io_bind, call, throw, log,
    set_connected, mret, io_ret, writeFileSync.
  rewrite Hconnect, Hlist. cbn [files console connected directories].
  match goal with
  | |- context [read_collections srv names [] ?w1] =>
      pose proof (read_collections_ok docs names [] w1 Hfind) as Hr;
      pose proof (read_collections_files srv names [] w1) as Hf;
      destruct (read_collections srv names [] w1) as [[colls|e] w2]
  end; cbn [fst snd files app] in *; [|done].
  injection Hr as ->. by rewrite Hf.
Qed.

End Facts.

(** X9. When the server is reached, lists its collections and answers
    every query, [createBackup] returns the path and writes one file
    there, which names the database and holds the properties that the
    assignments [backup.collections[collName] = { count, documents }]
    leave, [count] being the number of documents; the other files are
    those of before and the connection is closed. When the names listed
    are distinct and none is an array index or [__proto__], the file
    holds every collection listed, in the order of the listing. *)
Theorem capture_writes_every_collection (srv : server) (DB_NAME BACKUP_DIR : string)
    (now : Namer.Date) (timestamp : string) (randomBytes : list byte) (w : world)
    (names : list string) (docs : string → list (Codec.jsval (list byte))) :
  connect srv = Ok () →
  listCollections srv = Ok names →
  (∀ name, In name names → find srv name = Ok (docs name)) →
  let backupPath := Namer.generateBackupPath BACKUP_DIR now randomBytes in
  let run := createBackup srv DB_NAME BACKUP_DIR now timestamp randomBytes w in
  fst run = Ok backupPath
  ∧ files (snd run)
    = <[backupPath :=
          serialize
            {| database := DB_NAME; timestamp := timestamp;
               collections := collections_of docs names [] |}]>
        (files w)
  ∧ connected (snd run) = false
  ∧ (NoDup names → Forall (fun name => ordinary_name name = true) names →
     collections_of docs names []
     = map (fun name => (name, record_of (docs name))) names).
Proof.
  intros Hconnect Hlist Hfind backupPath run. subst run.
  unfold createBackup, mbind, io_bind, mkdirSync. fold backupPath.
  match goal with
  | |- context [capture srv DB_NAME backupPath timestamp ?w0] =>
      destruct (capture_ok srv DB_NAME backupPath timestamp w0 names docs
                  Hconnect Hlist Hfind) as [Hr Hf];
      destruct (capture_world srv DB_NAME backupPath timestamp w0) as [_ Hc]
  end.
  refine (conj Hr (conj Hf (conj Hc _))).
  intros Hnodup Hord.
  apply (collections_of_ordinary docs names [] Hnodup Hord). by intros n _ [].
Qed.

Lemma capture_writes_every_collection_witness :
  let run := createBackup good_server "shop" "backups" sample_date
               "2024-05-17T10:20:30.000Z" ["171"; "018"; "205"; "052"]%byte
               empty_world in
  let users := [Codec.JObj [("_id", Codec.JId Codec.sample_id);
                            ("name", Codec.JStr "Ana")]] in
  fst run = Ok "backups/2024/05/17/10_20_30_ab12cd34.json"
  ∧ files (snd run)
    = <["backups/2024/05/17/10_20_30_ab12cd34.json" :=
          serialize
            {| database := "shop"; timestamp := "2024-05-17T10:20:30.000Z";
               collections := [("users", record_of users)] |}]> ∅
  ∧ connected (snd run) = false
  ∧ collections_of (fun _ => users) ["users"] [] = [("users", record_of users)].
Proof.
  intros run users.
  destruct (capture_writes_every_collection good_server "shop" "backups"
              sample_date "2024-05-17T10:20:30.000Z"
              ["171"; "018"; "205"; "052"]%byte empty_world
              ["users"] (fun _ => users) eq_refl eq_refl (fun _ _ => eq_refl))
    as (Hr & Hf & Hc & Hlist).
  refine (conj Hr (conj Hf (conj Hc _))).
  apply Hlist; [apply NoDup_singleton | by repeat constructor].
Defined.

(** Collections named like array indices are written first, in
    ascending order, and a collection named [__proto__] is not written. *)
Example integer_like_names_first :
  map fst (collections_of (fun _ => []) ["users"; "2024"; "7"; "__proto__"] [])
  = ["7"; "2024"; "users"].
Proof. reflexivity. Qed.

(** X10. Whatever the server does, [createBackup] ends with the
    connection closed and with the date directory of the capture in
    place: the directory is made before the connection is attempted, so
    a capture that fails leaves it behind, with no snapshot in it from
    that run. *)
Theorem capture_leaves_directory (srv : server) (DB_NAME BACKUP_DIR : string)
    (now : Namer.Date) (timestamp : string) (randomBytes : list byte) (w : world) :
  let run := createBackup srv DB_NAME BACKUP_DIR now timestamp randomBytes w in
  connected (snd run) = false
  ∧ Namer.dateDir BACKUP_DIR now ∈ directories (snd run)
  ∧ directories w ⊆ directories (snd run).
Proof.
  intros run. subst run. unfold createBackup, mbind, io_bind, mkdirSync.
  match goal with
  | |- context [capture srv DB_NAME ?p timestamp ?w0] =>
      destruct (capture_world srv DB_NAME p timestamp w0) as [-> ->]
  end.
  cbn [directories]. split; [done|]. set_solver.
Qed.

End Snapshot.

(** ** More on snapshot paths *)

Module Naming.

Import Namer.
Local Open Scope string_scope.

Lemma append_nil_r (x : string) : x ++ "" = x.
Proof. induction x as [|c x IH]; [done|]. by rewrite Str.append_cons, IH. Qed.

Lemma append_cancel_r (x y s : string) : x ++ s = y ++ s → x = y.
Proof.
  revert y. induction x as [|c x IH]; intros [|d y] H.
  - done.
  - apply (f_equal String.length) in H.
    rewrite Str.append_cons in H. change ("" ++ s) with s in H.
    cbn [String.length] in H. rewrite Str.length_append in H. lia.
  - apply (f_equal String.length) in H.
    rewrite Str.append_cons in H. change ("" ++ s) with s in H.
    cbn [String.length] in H. rewrite Str.length_append in H. lia.
  - rewrite !Str.append_cons in H. injection H as -> H. f_equal. by apply IH.
Qed.

Lemma toHexString_inj (a b : list byte) :
  Codec.toHexString a = Codec.toHexString b → a = b.
Proof.
  intros H. apply (f_equal Codec.fromHex) in H.
  rewrite !Codec.fromHex_toHexString in H. by injection H.
Qed.

(** X11. Two snapshot paths made for the same directory and the same
    clock reading are equal only if the random bytes drawn are equal:
    captures of the same second do not overwrite each other unless they
    draw the same bytes. *)
Theorem same_second_paths_differ (BACKUP_DIR : string) (now : Date)
    (ra rb : list byte) :
  generateBackupPath BACKUP_DIR now ra = generateBackupPath BACKUP_DIR now rb →
  ra = rb.
Proof.
  rewrite !generateBackupPath_shape. intros H.
  repeat (apply (inj (String.app _)) in H).
  apply append_cancel_r in H. by apply toHexString_inj.
Qed.

Lemma same_second_paths_differ_witness :
  ["171"; "018"; "205"; "052"]%byte = ["171"; "018"; "205"; "052"]%byte.
Proof.
  apply (same_second_paths_differ "backups" day_one). reflexivity.
Defined.

Lemma substring_all (s : string) : String.substring 0 (String.length s) s = s.
Proof. induction s as [|c s IH]; [done|]. cbn. by rewrite IH. Qed.

Lemma substring_skip (x s : string) :
  String.substring (String.length x) (String.length s) (x ++ s) = s.
Proof.
  induction x as [|c x IH]; [apply substring_all|].
  rewrite Str.append_cons. cbn [String.length String.substring]. exact IH.
Qed.

Lemma endsWith_append (x s : string) : Str.endsWith (x ++ s) s = true.
Proof.
  unfold Str.endsWith. rewrite Str.length_append.
  replace (String.length x + String.length s - String.length s)
    with (String.length x) by lia.
  rewrite substring_skip, String.eqb_refl, andb_true_r.
  apply Nat.leb_le. lia.
Qed.

(** X12. The name given to a snapshot ends in [.json] and the path is
    the date directory joined with that name: the sweep deletes such a
    file exactly when it is older than the cut-off, whatever the clock
    reading and the random bytes it was named from. *)
Theorem named_snapshot_is_swept (BACKUP_DIR : string) (now : Date)
    (randomBytes : list byte) (mtime : Z) (cutoff : option Z) :
  Str.endsWith (fileName now randomBytes) ".json" = true
  ∧ generateBackupPath BACKUP_DIR now randomBytes
    = Sweeper.path_join (dateDir BACKUP_DIR now) (fileName now randomBytes)
  ∧ Sweeper.scanItem cutoff (dateDir BACKUP_DIR now) (fileName now randomBytes)
      (Sweeper.File mtime)
    = if Sweeper.older mtime cutoff
      then ([], [Sweeper.unlinkSync (generateBackupPath BACKUP_DIR now randomBytes)])
      else ([(fileName now randomBytes, Sweeper.File mtime)], []).
Proof.
  assert (Str.endsWith (fileName now randomBytes) ".json" = true) as Hjson.
  { unfold fileName. rewrite <- !Str.append_assoc. apply endsWith_append. }
  refine (conj Hjson (conj eq_refl _)).
  cbn [Sweeper.scanItem]. by rewrite Hjson.
Qed.

End Naming.

(** ** More on [restoreObjectIds] *)

Module Fidelity.

Import Codec.
Local Open Scope string_scope.

(** A number that [JSON.stringify] writes and [JSON.parse] reads back
    as itself. *)
Definition json_stable (n : spec_float) : bool :=
  match n with
  | S754_zero s => negb s
  | S754_finite _ _ _ => true
  | S754_infinity _ | S754_nan => false
  end.

(** The value is held by a property whose key is taken for an
    identifier key. *)
Definition id_position (parent : option string) : bool :=
  match parent with
  | Some key => is_id_key key
  | None => false
  end.

(** A document that can come back unchanged: no [undefined], numbers
    that JSON can write, identifiers of twelve bytes and only as values
    of identifier keys, no string of 24 hexadecimal digits under such a
    key, and no property named [$oid] or [__proto__]. *)
Fixpoint faithful (parent : option string) (d : doc) : bool :=
  match d with
  | JUndefined => false
  | JNull => true
  | JBool _ => true
  | JNum n => json_stable n
  | JStr s =>
      negb (id_position parent && (String.length s =? 24)%nat
            && match fromHex s with Some _ => true | None => false end)
  | JId o => id_position parent && (List.length o =? 12)%nat
  | JArr items => forallb (faithful None) items
  | JObj entries =>
      forallb (fun kv => negb (String.eqb (fst kv) "$oid")
                         && negb (String.eqb (fst kv) "__proto__")
                         && faithful (Some (fst kv)) (snd kv)) entries
  end.

(** No mapping of the value has a truthy [$oid] property. *)
Fixpoint oid_free (v : json) : bool :=
  match v with
  | JArr items => forallb oid_free items
  | JObj entries =>
      negb (truthy (get "$oid" entries))
      && forallb (fun kv => oid_free (snd kv)) entries
  | _ => true
  end.


Section Facts.
Variable other : json → result ObjectId.

Lemma restoreField_scalar key (v : json) :
  is_string24 v = false →
  restoreField other key v = restoreObjectIds other v.
Proof. intros H. unfold restoreField. by rewrite H, andb_false_r. Qed.

Lemma mapM_exact (g : doc → json) items :
  Forall (fun c => restoreObjectIds other (g c) = Ok c) items →
  mapM (restoreObjectIds other) (map g items) = Ok items.
Proof.
  induction 1 as [|c rest Hc _ IH]; [done|].
  simpl. rewrite Hc. simpl. by rewrite IH.
Qed.

Lemma fields_exact enc entries :
  Forall (fun kv =>
            String.eqb (fst kv) "__proto__" = false
            ∧ snd kv ≠ JUndefined
            ∧ restoreField other (fst kv) (jsonify enc (snd kv)) = Ok (snd kv))
         entries →
  fields other (props enc entries) = Ok entries.
Proof.
  induction 1 as [|[k v] rest (Hk & Hv & Hd) _ IH]; [done|].
  cbn [fst snd] in *. rewrite props_cons.
  assert (fields other ((k, jsonify enc v) :: props enc rest)
          = Ok ((k, v) :: rest)) as Hf.
  { simpl. rewrite Hd. simpl. rewrite IH. simpl. unfold assign. by rewrite Hk. }
  by destruct v.
Qed.

Lemma faithful_decode (d : doc) : ∀ parent,
  faithful parent d = true →
  decode_under other parent (jsonify toJSON d) = Ok d.
Proof.
  induction d as [| | b | n | s | o | items IH | entries IH]
    using jsval_nested_ind; intros parent Hd.
  - done.
  - destruct parent; cbn [decode_under jsonify];
      [by rewrite restoreField_scalar | done].
  - destruct parent; cbn [decode_under jsonify];
      [by rewrite restoreField_scalar | done].
  - destruct n as [[]| | |]; try done;
      (destruct parent; cbn [decode_under jsonify json_number];
       [by rewrite restoreField_scalar | done]).
  - destruct parent as [key|]; [|done].
    cbn [faithful id_position] in Hd. cbn [decode_under jsonify].
    unfold restoreField. cbn [is_string24].
    destruct (is_id_key key && (String.length s =? 24)%nat) eqn:E; [|done].
    unfold tryObjectId, newObjectId.
    apply andb_prop in E as [_ Hlen]. rewrite Hlen.
    by destruct (fromHex s).
  - destruct parent as [key|]; [|done].
    cbn [faithful id_position] in Hd. cbn [decode_under jsonify].
    apply andb_prop in Hd as [Hkey Hlen]. apply Nat.eqb_eq in Hlen.
    unfold restoreField, toJSON. cbn [is_string24].
    rewrite length_toHexString, Hlen, Hkey. cbn [Nat.mul Nat.add Nat.eqb andb].
    unfold tryObjectId. by rewrite newObjectId_toHexString.
  - rewrite decode_under_structure by done.
    change (restoreObjectIds other (jsonify toJSON (JArr items))) with
      (JArr <$> mapM (restoreObjectIds other) (map (jsonify toJSON) items)).
    rewrite mapM_exact; [done|].
    cbn [faithful] in Hd. rewrite forallb_forall in Hd.
    rewrite List.Forall_forall in *. intros c Hc.
    exact (IH c Hc None (Hd c Hc)).
  - rewrite decode_under_structure by done.
    cbn [faithful] in Hd. rewrite forallb_forall in Hd.
    rewrite jsonify_obj, restoreObjectIds_obj.
    rewrite get_props_absent.
    + cbn [truthy]. rewrite fields_exact; [done|].
      rewrite List.Forall_forall in *. intros [k c] Hc.
      specialize (Hd _ Hc). cbn [fst snd] in *.
      apply andb_prop in Hd as [Hkeys Hc'].
      apply andb_prop in Hkeys as [_ Hproto].
      refine (conj _ (conj _ _)).
      * by apply negb_true_iff.
      * by intros ->.
      * exact (IH _ Hc (Some k) Hc').
    + rewrite List.Forall_forall. intros kv Hkv. specialize (Hd _ Hkv).
      apply andb_prop in Hd as [Hkeys _].
      apply andb_prop in Hkeys as [Hoid _]. by apply negb_true_iff.
Qed.

End Facts.

(** X13. A document without [undefined], with numbers JSON can write,
    whose identifiers have twelve bytes and are values of identifier
    keys, with no 24-digit hexadecimal string under such a key and no
    property named [$oid] or [__proto__], comes back from
    [restoreObjectIds] of its parsed serialization exactly as it was. *)
Theorem faithful_document_round_trip (other : json → result ObjectId) (d : doc) :
  faithful None d = true →
  restoreObjectIds other (jsonify toJSON d) = Ok d.
Proof. exact (faithful_decode other d None). Qed.

Lemma faithful_document_round_trip_witness :
  restoreObjectIds no_other
    (jsonify toJSON
       (JObj [("_id", JId sample_id); ("name", JStr "Ana");
              ("tags", JArr [JStr "a"; JNull]); ("ownerId", JId other_id)]))
  = Ok (JObj [("_id", JId sample_id); ("name", JStr "Ana");
              ("tags", JArr [JStr "a"; JNull]); ("ownerId", JId other_id)]).
Proof. apply faithful_document_round_trip. reflexivity. Defined.

Lemma mapM_total items :
  Forall (fun v => ∃ d, ∀ other, restoreObjectIds other v = Ok d) items →
  ∃ ds, ∀ other, mapM (restoreObjectIds other) items = Ok ds.
Proof.
  induction 1 as [|v rest (d & Hd) _ (ds & Hds)]; [by exists []|].
  exists (d :: ds). intros other. simpl. rewrite Hd. simpl. by rewrite Hds.
Qed.

Lemma restoreField_total key (v : json) :
  (∃ d, ∀ other, restoreObjectIds other v = Ok d) →
  ∃ d, ∀ other, restoreField other key v = Ok d.
Proof.
  intros (d & Hd). unfold restoreField.
  destruct (is_id_key key && is_string24 v) eqn:E; [|by exists d].
  apply andb_prop in E as [_ E]. destruct v; try done. cbn in E.
  exists (match fromHex s with Some o => JId o | None => JStr s end).
  intros other. unfold tryObjectId, newObjectId. rewrite E.
  by destruct (fromHex s).
Qed.

Lemma fields_total entries :
  Forall (fun kv => ∃ d, ∀ other, restoreObjectIds other (snd kv) = Ok d) entries →
  ∃ ds, ∀ other, fields other entries = Ok ds.
Proof.
  induction 1 as [|[k v] rest Hv _ (ds & Hds)]; [by exists []|].
  destruct (restoreField_total k v Hv) as (d & Hd).
  exists (assign [] k d ++ ds)%list. intros other.
  simpl. rewrite Hd. simpl. by rewrite Hds.
Qed.

(** X14. [restoreObjectIds] throws only from the [$oid] branch: on a
    value none of whose mappings has a truthy [$oid] property it
    returns a document, the same one however the driver's constructor
    treats arguments that are not strings of 24 characters. *)
Theorem throws_only_on_oid (v : json) :
  oid_free v = true →
  ∃ d, ∀ other : json → result ObjectId, restoreObjectIds other v = Ok d.
Proof.
  induction v as [| | b | n | s | [] | items IH | entries IH]
    using jsval_nested_ind; intros Hv.
  1-5: by eexists.
  - cbn [oid_free] in Hv. rewrite forallb_forall in Hv.
    destruct (mapM_total items) as (ds & Hds).
    { rewrite List.Forall_forall in *. intros c Hc. exact (IH c Hc (Hv c Hc)). }
    exists (JArr ds). intros other.
    change (restoreObjectIds other (JArr items)) with
      (JArr <$> mapM (restoreObjectIds other) items).
    by rewrite Hds.
  - cbn [oid_free] in Hv. apply andb_prop in Hv as [Hoid Hv].
    apply negb_true_iff in Hoid. rewrite forallb_forall in Hv.
    destruct (fields_total entries) as (ds & Hds).
    { rewrite List.Forall_forall in *. intros kv Hkv. exact (IH kv Hkv (Hv kv Hkv)). }
    exists (JObj ds). intros other.
    by rewrite restoreObjectIds_obj, Hoid, Hds.
Qed.

Lemma throws_only_on_oid_witness :
  ∃ d, ∀ other : json → result ObjectId,
    restoreObjectIds other
      (JObj [("_id", JStr "not-hexadecimal-24-chars"); ("$oid", JStr "");
             ("n", JArr [JNum (S754_zero false)])]) = Ok d.
Proof. apply throws_only_on_oid. reflexivity. Defined.





End Fidelity.

(** ** More on the restore *)

Module Replay.

Import Artifact Restorer.
Local Open Scope string_scope.

Abbreviation database_map := (gmap string (list (Codec.jsval (list byte))))
  (only parsing).

Section Facts.
Variable srv : server.
Variable other : Codec.jsval Empty_set → result (list byte).
Variable which : script.

Lemma restore_collection_db_fixed entry (m m' : database_map) :
  fst (restore_collection_db srv other which entry m) = Ok () →
  m' !! fst entry = snd (restore_collection_db srv other which entry m) !! fst entry →
  restore_collection_db srv other which entry m' = (Ok (), m').
Proof.
  unfold restore_collection_db.
  destruct (deleteMany_fails srv entry.1); [done|].
  destruct (count entry.2 >? 0)%Z.
  - destruct (documentsToInsert other which (documents entry.2))
      as [[| | | | | |[|d rest]|]|e]; try done.
    destruct (insert_docs _ _ _) as [written []]; [done|]. cbn [fst snd].
    intros _ Hm. rewrite lookup_insert_eq in Hm. f_equal.
    apply map_eq. intros n. destruct (decide (n = entry.1)) as [->|Hn].
    + by rewrite lookup_insert_eq.
    + by rewrite lookup_insert_ne, lookup_alter_ne.
  - cbn [fst snd]. intros _ Hm. f_equal.
    apply map_eq. intros n. destruct (decide (n = entry.1)) as [->|Hn].
    + rewrite lookup_alter_eq, Hm, lookup_alter_eq. by destruct (m !! entry.1).
    + by rewrite lookup_alter_ne.
Qed.

Lemma restore_all_db_fixed entries : ∀ (m m' : database_map),
  fst (restore_all_db srv other which entries m) = Ok () →
  NoDup (map fst entries) →
  (∀ n, In n (map fst entries) →
        m' !! n = snd (restore_all_db srv other which entries m) !! n) →
  restore_all_db srv other which entries m' = (Ok (), m').
Proof.
  induction entries as [|entry rest IH]; intros m m' Hok Hnodup Hm; [done|].
  cbn [restore_all_db map] in *.
  apply NoDup_cons in Hnodup as [Hfresh Hnodup].
  rewrite list_elem_of_In in Hfresh.
  pose proof (restore_collection_db_fixed entry m m') as Hstep.
  destruct (restore_collection_db srv other which entry m) as [[[]|e] m1];
    cbn [fst snd] in *; [|done].
  rewrite Hstep; [| done |].
  - apply (IH m1); [done | done |]. intros n Hn. apply Hm. by right.
  - rewrite (Hm entry.1) by (by left).
    by rewrite restore_all_db_frame.
Qed.

End Facts.

(** X16. A restore that completed can be run again: on the database it
    left, the same restore completes too and leaves every collection as
    it found it. *)
Theorem restore_again_changes_nothing (srv : server)
    (other : Codec.jsval Empty_set → result (list byte)) (which : script)
    (backupData : backup (Codec.jsval Empty_set)) (w : world) :
  let run := restoreBackup srv other which backupData true w in
  let again := restoreBackup srv other which backupData true (snd run) in
  NoDup (map fst (collections backupData)) →
  fst run = Ok () →
  fst again = Ok () ∧ db (snd again) = db (snd run).
Proof.
  intros run again Hnodup Hok. subst again.
  destruct (restoreBackup_db_split srv other which backupData true (snd run))
    as [-> ->].
  subst run.
  destruct (restoreBackup_db_split srv other which backupData true w)
    as [Efst Edb].
  rewrite Efst in Hok. rewrite Edb. clear Efst Edb.
  unfold restoreBackup_db in *. cbn [negb] in *.
  destruct (connect srv) as [[]|e]; [|done].
  by rewrite (restore_all_db_fixed srv other which _ (db w)).
Qed.

Lemma restore_again_changes_nothing_witness :
  let run := restoreBackup lenient_server Codec.no_other WithObjectIds
               snapshot_AB true live_ABC in
  let again := restoreBackup lenient_server Codec.no_other WithObjectIds
                 snapshot_AB true (snd run) in
  fst again = Ok () ∧ db (snd again) = db (snd run).
Proof.
  apply (restore_again_changes_nothing lenient_server Codec.no_other
           WithObjectIds snapshot_AB live_ABC); [|reflexivity].
  apply NoDup_cons. split; [|apply NoDup_singleton].
  rewrite list_elem_of_In. cbn. intros [?|[]]; discriminate.
Defined.

(** The collections of a snapshot file, from those held in memory. *)
Lemma serialize_names (b : backup (Codec.jsval (list byte))) :
  map fst (collections (serialize b)) = map fst (collections b).
Proof. unfold serialize. cbn [collections]. by rewrite map_map. Qed.

Lemma documentsToInsert_faithful other docs :
  forallb (Fidelity.faithful None) docs = true →
  documentsToInsert other WithObjectIds (map (Codec.jsonify Codec.toJSON) docs)
  = Ok (Codec.JArr docs).
Proof.
  intros H. exact (Fidelity.faithful_decode other (Codec.JArr docs) None H).
Qed.

(** X17. Capture then restore: when the snapshot file is the
    serialization of collections whose recorded count is their number of
    documents and whose documents are faithful, and the server is
    reached, empties each of them and refuses none of their documents,
    the restore of [src/restore.js] completes and every collection of
    the snapshot holds exactly the documents that were captured,
    identifiers included. *)
Theorem restore_gives_back_capture (srv : server)
    (other : Codec.jsval Empty_set → result (list byte))
    (b : backup (Codec.jsval (list byte))) (w : world) :
  connect srv = Ok () →
  NoDup (map fst (collections b)) →
  (∀ name data, In (name, data) (collections b) →
     deleteMany_fails srv name = false
     ∧ existsb (rejects srv name) (documents data) = false
     ∧ count data = Z.of_nat (List.length (documents data))
     ∧ forallb (Fidelity.faithful None) (documents data) = true) →
  let run := restoreBackup srv other WithObjectIds (serialize b) true w in
  fst run = Ok ()
  ∧ ∀ name data, In (name, data) (collections b) →
      contents (snd run) name = documents data.
Proof.
  intros Hconnect Hnodup Hall run. subst run.
  destruct (restoreBackup_db_split srv other WithObjectIds (serialize b) true w)
    as [Efst Edb].
  unfold contents. rewrite Efst, Edb. clear Efst Edb.
  unfold restoreBackup_db. cbn [negb]. rewrite Hconnect.
  assert (fst (restore_all_db srv other WithObjectIds (collections (serialize b))
                 (db w)) = Ok ()) as Hok.
  { apply restore_all_db_clean. unfold serialize. cbn [collections].
    rewrite List.Forall_forall. intros entry Hentry.
    apply in_map_iff in Hentry as ([name data] & <- & Hin).
    destruct (Hall name data Hin) as (Hdel & Hacc & Hcount & Hfaith).
    split; cbn [fst snd count documents]; [done|]. intros Hpos.
    rewrite documentsToInsert_faithful by done.
    destruct (documents data) as [|d rest]; [cbn in Hcount; lia|].
    by exists d, rest. }
  split; [done|]. intros name data Hin.
  destruct (Hall name data Hin) as (_ & _ & Hcount & Hfaith).
  destruct (restore_all_db_ok srv other WithObjectIds _ _ Hok
              ltac:(by rewrite serialize_names)
              (name, {| count := count data;
                        documents := map (Codec.jsonify Codec.toJSON)
                                         (documents data) |}))
    as (items & Hitems & Hcontents).
  - unfold serialize. cbn [collections]. apply in_map_iff.
    by exists (name, data).
  - cbn [snd count documents]. by rewrite length_map.
  - cbn [fst snd documents] in *.
    rewrite documentsToInsert_faithful in Hitems by done.
    injection Hitems as <-. exact Hcontents.
Qed.

Definition captured_shop : backup (Codec.jsval (list byte)) :=
  {| database := "shop"; timestamp := "2024-05-17T10:20:30.000Z";
     collections :=
       [("users",
         {| count := 2;
            documents :=
              [Codec.JObj [("_id", Codec.JId Codec.sample_id);
                           ("name", Codec.JStr "Ana")];
               Codec.JObj [("_id", Codec.JId Codec.other_id);
                           ("friendId", Codec.JId Codec.sample_id)]] |});
        ("orders", {| count := 0; documents := [] |})] |}.

Lemma restore_gives_back_capture_witness :
  let run := restoreBackup lenient_server Codec.no_other WithObjectIds
               (serialize captured_shop) true live_shop in
  fst run = Ok ()
  ∧ ∀ name data, In (name, data) (collections captured_shop) →
      contents (snd run) name = documents data.
Proof.
  apply (restore_gives_back_capture lenient_server Codec.no_other
           captured_shop live_shop).
  - reflexivity.
  - apply NoDup_cons. split; [|apply NoDup_singleton].
    rewrite list_elem_of_In. cbn. intros [?|[]]; discriminate.
  - intros name data [[= <- <-]|[[= <- <-]|[]]];
      refine (conj eq_refl (conj eq_refl (conj eq_refl eq_refl))).
Defined.

(** No native identifier in a parsed value handed over as it is. *)
Lemma as_doc_no_id (v : Codec.jsval Empty_set) : ∀ p o,
  Codec.at_path p (Codec.as_doc v) ≠ Some (Codec.JId o).
Proof.
  induction v as [| | b | n | s | [] | items IH | entries IH]
    using Codec.jsval_nested_ind; intros p o.
  1-5: by destruct p as [|[]].
  - destruct p as [|[key|i] p]; cbn [Codec.as_doc Codec.at_path]; try done.
    destruct (nth_error (map Codec.as_doc items) i) as [c|] eqn:Hi; [|done].
    rewrite nth_error_map in Hi.
    destruct (nth_error items i) as [x|] eqn:Hx; [|done].
    injection Hi as <-. apply nth_error_In in Hx.
    rewrite List.Forall_forall in IH. by apply IH.
  - destruct p as [|[key|i] p]; cbn [Codec.as_doc Codec.at_path]; try done.
    induction IH as [|[k x] rest Hx _ IHrest]; [done|].
    cbn [map Codec.lookup_key fst snd] in *.
    destruct (String.eqb k key); [apply Hx | apply IHrest].
Qed.

(** X18. The restore script that hands the parsed documents to
    [insertMany] as they are stores no native identifier: when it
    completes, the documents of every collection of the snapshot are the
    parsed ones, and what was an identifier at capture is a string. *)
Theorem plain_restore_stores_text (srv : server)
    (other : Codec.jsval Empty_set → result (list byte))
    (backupData : backup (Codec.jsval Empty_set)) (w : world) :
  let run := restoreBackup srv other Plain backupData true w in
  fst run = Ok () →
  NoDup (map fst (collections backupData)) →
  ∀ name data, In (name, data) (collections backupData) →
    count data = Z.of_nat (List.length (documents data)) →
    contents (snd run) name = map Codec.as_doc (documents data)
    ∧ ∀ d p o, In d (contents (snd run) name) →
               Codec.at_path p d ≠ Some (Codec.JId o).
Proof.
  intros run Hok Hnodup name data Hin Hcount. subst run.
  destruct (restoreBackup_db_split srv other Plain backupData true w)
    as [Efst Edb].
  unfold contents. rewrite Efst in Hok. rewrite Edb. clear Efst Edb.
  unfold restoreBackup_db in *. cbn [negb] in *.
  destruct (connect srv) as [[]|e]; [|done].
  destruct (restore_all_db_ok srv other Plain _ _ Hok Hnodup (name, data) Hin Hcount)
    as (items & Hitems & Hcontents).
  cbn [fst snd] in *. injection Hitems as <-.
  rewrite Hcontents. split; [done|].
  intros d p o Hd. apply in_map_iff in Hd as (v & <- & _).
  apply as_doc_no_id.
Qed.

Lemma plain_restore_stores_text_witness :
  let run := restoreBackup lenient_server Codec.no_other Plain
               snapshot_AB true live_ABC in
  contents (snd run) "A" = [Codec.JObj [("_id", Codec.JStr Codec.sample_hex)]]
  ∧ ∀ d p o, In d (contents (snd run) "A") →
             Codec.at_path p d ≠ Some (Codec.JId o).
Proof.
  apply (plain_restore_stores_text lenient_server Codec.no_other snapshot_AB
           live_ABC eq_refl
           ltac:(apply NoDup_cons; split; [|apply NoDup_singleton];
                 rewrite list_elem_of_In; cbn; intros [?|[]]; discriminate)
           "A"
           {| count := 1;
              documents := [Codec.JObj [("_id", Codec.JStr Codec.sample_hex)]] |}
           (or_introl eq_refl) eq_refl).
Defined.

End Replay.

(** ** The script that keeps compressed snapshots in one directory *)

Module Archive.

Import Str.
Local Open Scope string_scope.

(** *** Names *)

(** The year of [toISOString]: four digits from 0 to 9999, a sign and
    six digits otherwise. *)
Definition isoYear (y : Z) : string :=
  if ((0 <=? y) && (y <=? 9999))%Z
  then Namer.padStart (Namer.String_of y) 4 "0"
  else (if (y <? 0)%Z then "-" else "+")
       ++ Namer.padStart (Namer.String_of (Z.abs y)) 6 "0".

Definition pad3 (n : Z) : string := Namer.padStart (Namer.String_of n) 3 "0".

(** [date.toISOString()]; [utc] is the UTC reading of the date: its
    fields are here what [getUTCFullYear], [getUTCMonth], [getUTCDate],
    [getUTCHours], [getUTCMinutes], [getUTCSeconds] and
    [getUTCMilliseconds] return. *)
Definition toISOString (utc : Namer.Date) : string :=
  isoYear (Namer.getFullYear utc) ++ "-" ++ Namer.pad2 (Namer.getMonth utc + 1)
    ++ "-" ++ Namer.pad2 (Namer.getDate utc)
    ++ "T" ++ Namer.pad2 (Namer.getHours utc)
    ++ ":" ++ Namer.pad2 (Namer.getMinutes utc)
    ++ ":" ++ Namer.pad2 (Namer.getSeconds utc)
    ++ "." ++ pad3 (Namer.getMilliseconds utc) ++ "Z".

(** [s.replace(/[:.]/g, '-')]. *)
Fixpoint dashed (s : string) : string :=
  match s with
  | "" => ""
  | String c rest =>
      String (if Ascii.eqb c ":" || Ascii.eqb c "." then "-" else c)%char
             (dashed rest)
  end.

(** The name and the path of the snapshot, first lines of [createBackup]. *)
Definition backupName (utc : Namer.Date) : string :=
  let timestamp := dashed (toISOString utc) in
  "backup-" ++ timestamp ++ ".json".

(** The segments of a path, between separators. *)
Fixpoint segments (path current : string) : list string :=
  match path with
  | "" => [current]
  | String c rest =>
      if Ascii.eqb c "/" then current :: segments rest ""
      else segments rest (current ++ String c "")
  end.

Definition plain_segment (s : string) : bool :=
  negb (String.eqb s "") && negb (String.eqb s ".") && negb (String.eqb s "..").

(** A directory path in normal form, relative or absolute: its
    segments are names, with no separator at the end. [path.join] of
    such a path and a file name is the path, a separator and the name. *)
Definition normal_form (dir : string) : bool :=
  match segments dir "" with
  | "" :: first :: rest => forallb plain_segment (first :: rest)
  | names => forallb plain_segment names
  end.

(** [path.join(BACKUP_DIR, name)] for [BACKUP_DIR] in normal form. *)
Definition backupPath (BACKUP_DIR : string) (utc : Namer.Date) : string :=
  Sweeper.path_join BACKUP_DIR (backupName utc).

(** [s.includes(searchString)]. *)
Fixpoint includes (s searchString : string) : bool :=
  String.prefix searchString s
  || match s with
     | "" => false
     | String _ rest => includes rest searchString
     end.

(** [s.replace(searchValue, replaceValue)] with a string for pattern
    and a replacement without [$]: the first occurrence is replaced. *)
Fixpoint replace (s searchValue replaceValue : string) : string :=
  if String.prefix searchValue s then
    replaceValue
    ++ String.substring (String.length searchValue)
         (String.length s - String.length searchValue) s
  else
    match s with
    | "" => ""
    | String c rest => String c (replace rest searchValue replaceValue)
    end.

(** [zipPath] of [compressBackup]. *)
Definition zipPath (backupPath : string) : string :=
  replace backupPath ".json" "" ++ ".zip".

(** [file.startsWith('backup-') && file.endsWith('.zip')]. *)
Definition is_backup (file : string) : bool :=
  String.prefix "backup-" file && endsWith file ".zip".

(** *** Retention in one directory *)

(** What [statSync] tells of an entry of [BACKUP_DIR]. *)
Record Stats : Type := {
  isDirectory : bool;
  mtime : Z;
  size : Z
}.

(** The [forEach] of [cleanOldBackups] over the entries listed by
    [readdirSync]: the entries left, the count of deletions, and whether
    [unlinkSync] threw, which it does on a directory; the exception
    leaves the loop, and the entries not yet visited stay. *)
Fixpoint forEach (cutoffDate : option Z) (files : list (string * Stats))
  : list (string * Stats) * nat * bool :=
  match files with
  | [] => ([], 0, false)
  | (file, stats) :: rest =>
      if is_backup file && Sweeper.older (mtime stats) cutoffDate then
        if isDirectory stats then ((file, stats) :: rest, 0, true)
        else
          let '(kept, deletedCount, thrown) := forEach cutoffDate rest in
          (kept, S deletedCount, thrown)
      else
        let '(kept, deletedCount, thrown) := forEach cutoffDate rest in
        ((file, stats) :: kept, deletedCount, thrown)
  end.

Record outcome : Type := {
  remaining : list (string * Stats);
  deletedCount : nat;
  error_logged : bool
}.

(** [cleanOldBackups(daysToKeep)] at time [now] on the entries of
    [BACKUP_DIR]; the [catch] logs the exception and returns. *)
Definition cleanOldBackups (setDate_back : Sweeper.calendar_arithmetic) (now : Z)
    (daysToKeep : option Z) (files : list (string * Stats)) : outcome :=
  let cutoffDate := Sweeper.cutoffDate setDate_back now daysToKeep in
  let '(kept, deletedCount, thrown) := forEach cutoffDate files in
  {| remaining := kept; deletedCount := deletedCount; error_logged := thrown |}.

(** [getBackupStats]: [backupFiles.length] and [totalSize]. *)
Definition getBackupStats (files : list (string * Stats)) : nat * Z :=
  let backupFiles := List.filter (fun f => is_backup (fst f)) files in
  (List.length backupFiles,
   fold_left (fun totalSize f => (totalSize + size (snd f))%Z) backupFiles 0%Z).

(** The entries that the sweep is to delete. *)
Definition expired (cutoffDate : option Z) (f : string * Stats) : bool :=
  is_backup (fst f) && Sweeper.older (mtime (snd f)) cutoffDate.

(** *** Facts on names *)

Lemma dashed_app (x y : string) : dashed (x ++ y) = dashed x ++ dashed y.
Proof.
  induction x as [|c x IH]; [done|].
  rewrite append_cons. cbn [dashed]. by rewrite append_cons, IH.
Qed.

Lemma dashed_string_of_uint (d : Decimal.uint) :
  dashed (NilEmpty.string_of_uint d) = NilEmpty.string_of_uint d.
Proof. induction d; cbn; [done | by rewrite IHd ..]. Qed.

Lemma dashed_String_of (n : Z) : dashed (Namer.String_of n) = Namer.String_of n.
Proof.
  unfold Namer.String_of, NilZero.string_of_int, NilZero.string_of_uint.
  destruct (Z.to_int n) as [d|d]; destruct d; cbn [dashed];
    by rewrite ?dashed_string_of_uint.
Qed.

Lemma dashed_padStart (s : string) (targetLength : nat) :
  dashed s = s →
  dashed (Namer.padStart s targetLength "0") = Namer.padStart s targetLength "0".
Proof.
  intros Hs. unfold Namer.padStart. rewrite dashed_app, Hs. f_equal.
  induction (targetLength - String.length s) as [|k IH]; [done|].
  cbn [Namer.repeat_char dashed]. by rewrite IH.
Qed.

Lemma dashed_isoYear (y : Z) : dashed (isoYear y) = isoYear y.
Proof.
  unfold isoYear. destruct ((0 <=? y) && (y <=? 9999))%Z.
  - apply dashed_padStart, dashed_String_of.
  - rewrite dashed_app, dashed_padStart by apply dashed_String_of.
    by destruct (y <? 0)%Z.
Qed.

Lemma pad3_steps_up : Namer.steps_up pad3 0 999 = true.
Proof. vm_compute. reflexivity. Qed.

Lemma pad3_fixed_width : Namer.fixed_width pad3 0 999 3 = true.
Proof. vm_compute. reflexivity. Qed.

(** The years below 1000, and the step to 1000. *)
Lemma isoYear_low_steps_up : Namer.steps_up isoYear 0 1000 = true.
Proof. vm_compute. reflexivity. Qed.

Lemma isoYear_low_fixed_width : Namer.fixed_width isoYear 0 1000 4 = true.
Proof. vm_compute. reflexivity. Qed.

(** A year of four digits is written as it is. *)
Lemma isoYear_four_digits (y : Z) :
  (1000 <= y <= 9999)%Z → isoYear y = Namer.String_of y.
Proof.
  intros Hy. unfold isoYear.
  replace ((0 <=? y) && (y <=? 9999))%Z with true
    by (symmetry; apply andb_true_intro; split; apply Z.leb_le; lia).
  unfold Namer.padStart.
  by rewrite (Namer.fixed_width_length Namer.String_of 1000 9999 4 y
                Namer.year_fixed_width Hy).
Qed.

Lemma isoYear_length (y : Z) :
  (0 <= y <= 9999)%Z → String.length (isoYear y) = 4.
Proof.
  intros Hy. destruct (Z.le_gt_cases y 1000) as [Hlow|Hhigh].
  - apply (Namer.fixed_width_length isoYear 0 1000 4 y isoYear_low_fixed_width).
    lia.
  - rewrite isoYear_four_digits by lia.
    apply (Namer.fixed_width_length Namer.String_of 1000 9999 4 y
             Namer.year_fixed_width). lia.
Qed.

Lemma isoYear_lt (y z : Z) :
  (0 <= y)%Z → (y < z)%Z → (z <= 9999)%Z →
  Namer.str_lt (isoYear y) (isoYear z).
Proof.
  intros Hy Hyz Hz.
  destruct (Z.le_gt_cases z 1000) as [Hzlow|Hzhigh];
    [by apply (Namer.steps_up_lt isoYear 0 1000 y z isoYear_low_steps_up)|].
  destruct (Z.le_gt_cases 1000 y) as [Hyhigh|Hylow].
  - rewrite !isoYear_four_digits by lia.
    by apply (Namer.steps_up_lt Namer.String_of 1000 9999 y z Namer.year_steps_up).
  - apply (Namer.str_lt_trans _ (isoYear 1000)).
    + apply (Namer.steps_up_lt isoYear 0 1000 y 1000 isoYear_low_steps_up); lia.
    + rewrite !isoYear_four_digits by lia.
      apply (Namer.steps_up_lt Namer.String_of 1000 9999 1000 z
               Namer.year_steps_up); lia.
Qed.

Lemma backupPath_shape BACKUP_DIR utc :
  backupPath BACKUP_DIR utc =
  BACKUP_DIR ++ "/" ++ "backup-" ++ isoYear (Namer.getFullYear utc)
    ++ "-" ++ Namer.pad2 (Namer.getMonth utc + 1)
    ++ "-" ++ Namer.pad2 (Namer.getDate utc)
    ++ "T" ++ Namer.pad2 (Namer.getHours utc)
    ++ "-" ++ Namer.pad2 (Namer.getMinutes utc)
    ++ "-" ++ Namer.pad2 (Namer.getSeconds utc)
    ++ "-" ++ pad3 (Namer.getMilliseconds utc) ++ "Z" ++ ".json".
Proof.
  unfold backupPath, backupName, Sweeper.path_join, toISOString.
  rewrite !dashed_app, dashed_isoYear.
  unfold Namer.pad2, pad3.
  rewrite !dashed_padStart by apply dashed_String_of.
  change (dashed "-") with "-". change (dashed "T") with "T".
  change (dashed ":") with "-". change (dashed ".") with "-".
  change (dashed "Z") with "Z".
  by rewrite !append_assoc.
Qed.

Ltac field_decides f lo hi width Hwidth Hsteps :=
  unfold Namer.str_lt; rewrite ?compare_app_same;
  apply compare_app_lt;
  [ rewrite !(Namer.fixed_width_length f lo hi width _ Hwidth) by lia; reflexivity
  | apply (Namer.steps_up_lt f lo hi _ _ Hsteps); lia ].

(** X19. In the script that keeps compressed snapshots, the snapshot
    made at the earlier instant has the strictly smaller path, at the
    resolution of a millisecond, for years 0 to 9999: the name is the
    UTC reading of the clock, every field at a fixed width. *)
Theorem names_sorted_by_millisecond (BACKUP_DIR : string) (a b : Namer.Date) :
  Namer.calendar a → Namer.calendar b →
  (0 <= Namer.getFullYear a <= 9999)%Z → (0 <= Namer.getFullYear b <= 9999)%Z →
  Namer.before a b →
  Namer.str_lt (backupPath BACKUP_DIR a) (backupPath BACKUP_DIR b).
Proof.
  intros Ha Hb Hya Hyb Hlt.
  rewrite !backupPath_shape.
  unfold Namer.calendar in Ha, Hb.
  destruct Hlt as [Hy|[Ey [Hm|[Em [Hd|[Ed [Hh|[Eh [Hmi|[Emi [Hs|[Es Hms]]]]]]]]]]]];
    rewrite ?Ey, ?Em, ?Ed, ?Eh, ?Emi, ?Es.
  - unfold Namer.str_lt. rewrite !compare_app_same. apply compare_app_lt.
    + by rewrite !isoYear_length.
    + apply isoYear_lt; lia.
  - field_decides Namer.pad2 0%Z 99%Z 2 Namer.pad2_fixed_width Namer.pad2_steps_up.
  - field_decides Namer.pad2 0%Z 99%Z 2 Namer.pad2_fixed_width Namer.pad2_steps_up.
  - field_decides Namer.pad2 0%Z 99%Z 2 Namer.pad2_fixed_width Namer.pad2_steps_up.
  - field_decides Namer.pad2 0%Z 99%Z 2 Namer.pad2_fixed_width Namer.pad2_steps_up.
  - field_decides Namer.pad2 0%Z 99%Z 2 Namer.pad2_fixed_width Namer.pad2_steps_up.
  - field_decides pad3 0%Z 999%Z 3 pad3_fixed_width pad3_steps_up.
Qed.

Lemma names_sorted_by_millisecond_witness :
  Namer.str_lt (backupPath "backups" (Namer.at_ms 100))
               (backupPath "backups" (Namer.at_ms 900)).
Proof.
  apply names_sorted_by_millisecond;
    unfold Namer.calendar, Namer.before, Namer.at_ms; simpl; lia.
Defined.

(** *** The path of the archive *)

Lemma prefix_before_slash (p x t : string) :
  (∀ c, In c (list_ascii_of_string p) → c ≠ "/"%char) →
  String.prefix p (x ++ String "/" t) = String.prefix p x.
Proof.
  revert x. induction p as [|a p IH]; intros x Hp; [by destruct x|].
  destruct x as [|c x].
  - change ("" ++ String "/" t) with (String "/" t). cbn [String.prefix].
    destruct (ascii_dec a "/") as [->|_]; [|done].
    exfalso. apply (Hp "/"%char); [by left | done].
  - rewrite append_cons. cbn [String.prefix].
    destruct (ascii_dec a c); [|done]. apply IH.
    intros c' Hc'. apply Hp. by right.
Qed.

Lemma replace_below (D t : string) :
  includes D ".json" = false →
  replace (D ++ String "/" t) ".json" "" = D ++ replace (String "/" t) ".json" "".
Proof.
  induction D as [|c D IH]; [done|]. intros Hinc.
  cbn [includes] in Hinc. apply orb_false_elim in Hinc as [Hpre Hinc].
  rewrite !append_cons.
  change (replace (String c (D ++ String "/" t)) ".json" "")
    with (if String.prefix ".json" (String c (D ++ String "/" t))
          then "" ++ String.substring (String.length ".json")
                       (String.length (String c (D ++ String "/" t))
                        - String.length ".json")
                       (String c (D ++ String "/" t))
          else String c (replace (D ++ String "/" t) ".json" "")).
  rewrite <- (append_cons c D (String "/" t)).
  rewrite prefix_before_slash
    by (cbn; intros c' [<-|[<-|[<-|[<-|[<-|[]]]]]]; discriminate).
  by rewrite Hpre, IH.
Qed.

Definition dotless (s : string) : bool :=
  forallb (fun c => negb (Ascii.eqb c ".")) (list_ascii_of_string s).

Lemma dotless_dashed (s : string) : dotless (dashed s) = true.
Proof.
  induction s as [|c s IH]; [done|].
  unfold dotless in *. cbn [dashed list_ascii_of_string forallb].
  rewrite IH, andb_true_r.
  destruct (Ascii.eqb c ":"); [done|].
  destruct (Ascii.eqb c ".") eqn:E; cbn [orb]; [done | by rewrite E].
Qed.

Lemma replace_extension (s : string) :
  dotless s = true → replace (s ++ ".json") ".json" "" = s.
Proof.
  induction s as [|c s IH]; [done|]. unfold dotless.
  cbn [list_ascii_of_string forallb]. intros H.
  apply andb_prop in H as [Hc Hs]. apply negb_true_iff, Ascii.eqb_neq in Hc.
  rewrite append_cons.
  change (replace (String c (s ++ ".json")) ".json" "")
    with (if String.prefix ".json" (String c (s ++ ".json"))
          then "" ++ String.substring (String.length ".json")
                       (String.length (String c (s ++ ".json"))
                        - String.length ".json")
                       (String c (s ++ ".json"))
          else String c (replace (s ++ ".json") ".json" "")).
  cbn [String.prefix]. destruct (ascii_dec "." c) as [<-|_]; [done|].
  by rewrite IH.
Qed.

Lemma prefix_append (p r : string) : String.prefix p (p ++ r) = true.
Proof.
  induction p as [|a p IH]; [by destruct r|].
  rewrite append_cons. cbn [String.prefix]. by destruct (ascii_dec a a).
Qed.

Lemma endsWith_other (x s t : string) :
  String.length s = String.length t →
  endsWith (x ++ s) t = String.eqb s t.
Proof.
  intros Hlen. unfold endsWith. rewrite length_append, <- Hlen.
  replace (String.length x + String.length s - String.length s)
    with (String.length x) by lia.
  rewrite Naming.substring_skip.
  replace (String.length s <=? String.length x + String.length s)%nat
    with true by (symmetry; apply Nat.leb_le; lia).
  done.
Qed.

(** X20. When [BACKUP_DIR] is a path in normal form that does not
    contain [.json], the archive of a snapshot is written next to it
    under the same name with [.zip] for [.json]; the sweep and the
    statistics of this script count the archive and never the [.json]
    file. *)
Theorem archive_beside_snapshot (BACKUP_DIR : string) (utc : Namer.Date) :
  normal_form BACKUP_DIR = true →
  includes BACKUP_DIR ".json" = false →
  let timestamp := dashed (toISOString utc) in
  zipPath (backupPath BACKUP_DIR utc)
    = Sweeper.path_join BACKUP_DIR ("backup-" ++ timestamp ++ ".zip")
  ∧ is_backup ("backup-" ++ timestamp ++ ".zip") = true
  ∧ is_backup (backupName utc) = false.
Proof.
  intros _ Hdir timestamp. refine (conj _ (conj _ _)).
  - unfold zipPath, backupPath, backupName, Sweeper.path_join.
    fold timestamp. change ("/" ++ ?x) with (String "/" x).
    rewrite replace_below by done.
    change (String "/" ("backup-" ++ timestamp ++ ".json"))
      with (("/backup-" ++ timestamp) ++ ".json").
    rewrite replace_extension.
    + change ("/backup-" ++ timestamp) with (String "/" ("backup-" ++ timestamp)).
      by rewrite !append_assoc.
    + unfold dotless.
      change (list_ascii_of_string ("/backup-" ++ timestamp))
        with (list_ascii_of_string "/backup-"
              ++ list_ascii_of_string timestamp)%list.
      rewrite forallb_app. apply andb_true_intro. split; [reflexivity|].
      apply dotless_dashed.
  - unfold is_backup. rewrite prefix_append. cbn [andb].
    rewrite <- append_assoc. apply Naming.endsWith_append.
  - unfold is_backup, backupName. rewrite prefix_append. cbn [andb].
    change ".json" with ("." ++ "json"). rewrite <- !append_assoc.
    by rewrite endsWith_other.
Qed.

Lemma archive_beside_snapshot_witness :
  zipPath (backupPath "/var/backups" (Namer.at_ms 100))
    = "/var/backups/backup-2024-05-17T10-20-30-100Z.zip"
  ∧ is_backup "backup-2024-05-17T10-20-30-100Z.zip" = true
  ∧ is_backup "backup-2024-05-17T10-20-30-100Z.json" = false.
Proof.
  apply (archive_beside_snapshot "/var/backups" (Namer.at_ms 100)); reflexivity.
Defined.

(** A directory whose path contains [.json]: the first occurrence is
    the one replaced, and the archive goes elsewhere. *)
Example archive_elsewhere :
  zipPath (backupPath "data.json.d" (Namer.at_ms 100))
  = "data.d/backup-2024-05-17T10-20-30-100Z.json.zip".
Proof. reflexivity. Qed.

(** *** Facts on the sweep *)

Lemma fold_left_size (l : list (string * Stats)) (acc : Z) :
  fold_left (fun totalSize f => (totalSize + size (snd f))%Z) l acc
  = (acc + fold_left (fun totalSize f => (totalSize + size (snd f))%Z) l 0)%Z.
Proof.
  revert acc. induction l as [|f l IH]; intros acc; cbn [fold_left]; [lia|].
  rewrite (IH (acc + size f.2)%Z), (IH (0 + size f.2)%Z). lia.
Qed.

Lemma getBackupStats_cons f files :
  getBackupStats (f :: files)
  = if is_backup (fst f)
    then (S (fst (getBackupStats files)),
          (size (snd f) + snd (getBackupStats files))%Z)
    else getBackupStats files.
Proof.
  unfold getBackupStats. cbn [List.filter].
  destruct (is_backup f.1); [|done].
  cbn [List.length fold_left fst snd]. f_equal.
  rewrite fold_left_size. lia.
Qed.

(** X21. When no directory of [BACKUP_DIR] is named like an archive
    and older than the cut-off, the sweep of this script deletes the
    regular files named [backup-*.zip] that are older than the cut-off
    and nothing else, logs no error, and counts them; the statistics
    taken afterwards show that many archives fewer, and their sizes
    less. *)
Theorem flat_retention_exact (setDate_back : Sweeper.calendar_arithmetic)
    (now : Z) (daysToKeep : option Z) (files : list (string * Stats)) :
  let cutoffDate := Sweeper.cutoffDate setDate_back now daysToKeep in
  let swept := cleanOldBackups setDate_back now daysToKeep files in
  Forall (fun f => expired cutoffDate f = true → isDirectory (snd f) = false) files →
  remaining swept = List.filter (fun f => negb (expired cutoffDate f)) files
  ∧ deletedCount swept = List.length (List.filter (expired cutoffDate) files)
  ∧ error_logged swept = false
  ∧ fst (getBackupStats files)
    = fst (getBackupStats (remaining swept)) + deletedCount swept
  ∧ snd (getBackupStats files)
    = (snd (getBackupStats (remaining swept))
       + snd (getBackupStats (List.filter (expired cutoffDate) files)))%Z.
Proof.
  intros cutoffDate swept Hfiles. subst swept. unfold cleanOldBackups.
  fold cutoffDate. generalize dependent cutoffDate. intros cutoffDate Hfiles.
  induction Hfiles as [|[file stats] rest Hf _ IH]; [done|].
  cbn [forEach List.filter].
  change (expired cutoffDate (file, stats))
    with (is_backup file && Sweeper.older (mtime stats) cutoffDate) in *.
  cbn [fst snd] in Hf.
  destruct (forEach cutoffDate rest) as [[kept n] thrown].
  cbn [remaining deletedCount error_logged] in *.
  destruct IH as (Hkept & Hn & Hthrown & Hcount & Hsize).
  destruct (is_backup file && Sweeper.older (mtime stats) cutoffDate) eqn:E.
  - rewrite (Hf eq_refl). cbn [remaining deletedCount error_logged negb].
    apply andb_prop in E as [Hname _].
    rewrite !getBackupStats_cons. cbn [fst snd]. rewrite Hname. cbn [fst snd].
    refine (conj Hkept (conj _ (conj Hthrown (conj _ _)))).
    + cbn [List.length]. by rewrite Hn.
    + rewrite Hcount. lia.
    + rewrite Hsize. lia.
  - cbn [remaining deletedCount error_logged negb].
    rewrite !getBackupStats_cons. cbn [fst snd].
    refine (conj _ (conj Hn (conj Hthrown _))); [by rewrite Hkept|].
    destruct (is_backup file); cbn [fst snd]; split; try done;
      rewrite ?Hcount, ?Hsize; lia.
Qed.

Definition old_archive : Stats := {| isDirectory := false; mtime := 1000; size := 7 |}.
Definition new_archive : Stats :=
  {| isDirectory := false; mtime := 5 * Sweeper.msPerDay; size := 9 |}.
Definition folder : Stats := {| isDirectory := true; mtime := 1000; size := 4096 |}.

Definition listing : list (string * Stats) :=
  [("backup-a.zip", old_archive); ("notes.txt", old_archive);
   ("backup-b.zip", new_archive); ("backup-c.json", old_archive)].

Lemma flat_retention_exact_witness :
  let swept := cleanOldBackups Sweeper.fixed_offset_clock (6 * Sweeper.msPerDay)
                 (Some 2%Z) listing in
  remaining swept
    = [("notes.txt", old_archive); ("backup-b.zip", new_archive);
       ("backup-c.json", old_archive)]
  ∧ deletedCount swept = 1
  ∧ error_logged swept = false
  ∧ fst (getBackupStats listing) = fst (getBackupStats (remaining swept)) + 1.
Proof.
  destruct (flat_retention_exact Sweeper.fixed_offset_clock
              (6 * Sweeper.msPerDay) (Some 2%Z) listing) as (H1 & H2 & H3 & H4 & _).
  { repeat constructor. }
  cbv zeta. rewrite H1 at 1. rewrite H2 in H4 at 1. rewrite H2, H3.
  refine (conj eq_refl (conj eq_refl (conj eq_refl _))). exact H4.
Defined.

(** X22. A directory named like an archive and older than the cut-off
    stops the sweep: [unlinkSync] throws on it, the error is logged, and
    every entry listed after it stays, however old; the entries listed
    before it have been swept. *)
Theorem directory_stops_flat_sweep (setDate_back : Sweeper.calendar_arithmetic)
    (now : Z) (daysToKeep : option Z)
    (before after : list (string * Stats)) (file : string) (stats : Stats) :
  let cutoffDate := Sweeper.cutoffDate setDate_back now daysToKeep in
  let swept := cleanOldBackups setDate_back now daysToKeep
                 (before ++ (file, stats) :: after) in
  Forall (fun f => expired cutoffDate f = true → isDirectory (snd f) = false) before →
  expired cutoffDate (file, stats) = true →
  isDirectory stats = true →
  remaining swept
    = (List.filter (fun f => negb (expired cutoffDate f)) before
       ++ (file, stats) :: after)%list
  ∧ error_logged swept = true.
Proof.
  intros cutoffDate swept Hbefore Hexp Hdir. subst swept. unfold cleanOldBackups.
  fold cutoffDate. generalize dependent cutoffDate.
  intros cutoffDate Hbefore Hexp.
  induction Hbefore as [|[f st] rest Hf _ IH].
  - cbn [app forEach List.filter]. unfold expired in Hexp. cbn [fst snd] in Hexp.
    by rewrite Hexp, Hdir.
  - cbn [app forEach List.filter].
    change (expired cutoffDate (f, st))
      with (is_backup f && Sweeper.older (mtime st) cutoffDate) in *.
    cbn [fst snd] in Hf.
    destruct (forEach cutoffDate (rest ++ (file, stats) :: after))
      as [[kept n] thrown].
    cbn [remaining error_logged] in *. destruct IH as [Hkept Hthrown].
    destruct (is_backup f && Sweeper.older (mtime st) cutoffDate) eqn:E.
    + rewrite (Hf eq_refl). by cbn [remaining error_logged negb].
    + cbn [remaining error_logged negb app]. by rewrite Hkept.
Qed.

Lemma directory_stops_flat_sweep_witness :
  let swept := cleanOldBackups Sweeper.fixed_offset_clock (6 * Sweeper.msPerDay)
                 (Some 2%Z)
                 ([("backup-a.zip", old_archive)]
                  ++ ("backup-dir.zip", folder) :: [("backup-z.zip", old_archive)]) in
  remaining swept
    = (List.filter
         (fun f => negb (expired (Sweeper.cutoffDate Sweeper.fixed_offset_clock
                                    (6 * Sweeper.msPerDay) (Some 2%Z)) f))
         [("backup-a.zip", old_archive)]
       ++ ("backup-dir.zip", folder) :: [("backup-z.zip", old_archive)])%list
  ∧ error_logged swept = true.
Proof.
  apply (directory_stops_flat_sweep Sweeper.fixed_offset_clock
           (6 * Sweeper.msPerDay) (Some 2%Z));
    [repeat constructor | reflexivity | reflexivity].
Defined.

End Archive.

(** ** Statistics ([getBackupStats] of the scripts that file by date) *)

Module Statistics.

Import Sweeper.
Local Open Scope string_scope.

Section Count.

(** [fs.statSync(path).size] for the regular files of the tree. *)
Variable size_of : string → Z.

(** One turn of the [for] loop of the inner function ([scanDirectory]
    in one script, [countFiles] in the other) on the entry [item] of
    [dir]; [totals] is [(totalSize, backupCount)]. *)
Fixpoint countItem (dir item : string) (child : node) (totals : Z * nat)
  : Z * nat :=
  let itemPath := path_join dir item in
  match child with
  | Dir items =>
      (fix each (l : list (string * node)) (totals : Z * nat) :=
         match l with
         | [] => totals
         | (i, c) :: rest => each rest (countItem itemPath i c totals)
         end) items totals
  | File _ =>
      if Str.endsWith item ".json"
      then ((fst totals + size_of itemPath)%Z, S (snd totals))
      else totals
  end.

Definition countFiles (dir : string)
  : list (string * node) → Z * nat → Z * nat :=
  fix each (items : list (string * node)) (totals : Z * nat) :=
    match items with
    | [] => totals
    | (i, c) :: rest => each rest (countItem dir i c totals)
    end.

(** [getBackupStats()], [root] being what is at [BACKUP_DIR]: the
    totals that are printed, or nothing when [readdirSync] throws and
    the [catch] logs the error. *)
Definition getBackupStats (BACKUP_DIR : string) (root : option node)
  : option (Z * nat) :=
  match root with
  | None => Some (0%Z, 0)
  | Some (File _) => None
  | Some (Dir items) => Some (countFiles BACKUP_DIR items (0%Z, 0))
  end.

Definition total_size (paths : list string) : Z :=
  fold_right (fun p s => (size_of p + s)%Z) 0%Z paths.

Lemma total_size_app l k : total_size (l ++ k) = (total_size l + total_size k)%Z.
Proof.
  unfold total_size. induction l as [|p l IH]; cbn [app fold_right]; lia.
Qed.

Lemma total_size_perm l k : Permutation l k → total_size l = total_size k.
Proof.
  unfold total_size.
  induction 1 as [|p l k _ IH|p q l|l k m _ IH1 _ IH2];
    cbn [fold_right]; lia.
Qed.

Lemma countFiles_counts dir items :
  Forall (fun e => ∀ dir item totals,
            countItem dir item (snd e) totals
            = let paths := map file_path
                             (List.filter Catalog.is_json (files_item dir item (snd e))) in
              ((fst totals + total_size paths)%Z, snd totals + List.length paths))
         items →
  ∀ totals,
    countFiles dir items totals
    = ((fst totals + total_size (Catalog.json_paths dir items))%Z,
       snd totals + List.length (Catalog.json_paths dir items)).
Proof.
  unfold Catalog.json_paths.
  induction 1 as [|[i c] rest Hc _ IH]; intros totals.
  - cbn. destruct totals as [s n]. cbn. f_equal; lia.
  - change (countFiles dir ((i, c) :: rest) totals)
      with (countFiles dir rest (countItem dir i c totals)).
    rewrite IH, files_in_cons, List.filter_app, map_app, total_size_app,
      length_app.
    cbn [snd] in Hc. rewrite Hc. cbn [fst snd]. f_equal; lia.
Qed.

Lemma countItem_counts child : ∀ dir item totals,
  countItem dir item child totals
  = let paths := map file_path
                   (List.filter Catalog.is_json (files_item dir item child)) in
    ((fst totals + total_size paths)%Z, snd totals + List.length paths).
Proof.
  induction child as [mtime | items IH] using node_nested_ind;
    intros dir item totals.
  - cbn [countItem files_item List.filter]. unfold Catalog.is_json.
    cbn [file_name]. destruct totals as [s n].
    destruct (Str.endsWith item ".json"); cbn; f_equal; lia.
  - change (countItem dir item (Dir items) totals)
      with (countFiles (path_join dir item) items totals).
    rewrite files_item_dir. by apply countFiles_counts.
Qed.

Lemma catalog_paths dir items :
  Catalog.getAllBackups dir items [] = Catalog.json_paths dir items.
Proof.
  rewrite Catalog.getAllBackups_collects; [done|].
  apply List.Forall_forall. intros e _ d f fl. apply Catalog.collectItem_collects.
Qed.

(** X23. The statistics of the backup script count exactly the
    snapshots that the restore script lists: the number printed is the
    length of the catalog, and the space printed is the sum of the
    sizes of its files. *)
Theorem stats_count_the_catalog (dir : string) (items : list (string * node)) :
  getBackupStats dir (Some (Dir items))
  = Some (total_size (Catalog.getAllBackups dir items []),
          List.length (Catalog.getAllBackups dir items [])).
Proof.
  cbn [getBackupStats]. rewrite catalog_paths, countFiles_counts; [done|].
  apply List.Forall_forall. intros e _ d i t. apply countItem_counts.
Qed.

(** X24. The statistics taken after a sweep, as the scripts do: the
    count is the count of before less the number of deletions that the
    sweep reports, and the space is the space of before less the sizes
    of the files it unlinked. *)
Theorem stats_after_sweep (clock : calendar_arithmetic) (now : Z)
    (daysToKeep : option Z) (BACKUP_DIR : string) (items : list (string * node)) :
  let out := cleanOldBackups clock now daysToKeep BACKUP_DIR (Some (Dir items)) in
  ∃ size_before count_before size_after count_after,
    getBackupStats BACKUP_DIR (Some (Dir items)) = Some (size_before, count_before)
    ∧ getBackupStats BACKUP_DIR (root_after out) = Some (size_after, count_after)
    ∧ count_before = count_after + deletedCount out
    ∧ size_before = (size_after + total_size (unlinked (calls_made out)))%Z.
Proof.
  intros out. subst out. rewrite cleanOldBackups_dir.
  cbn [root_after calls_made deletedCount getBackupStats].
  set (cutoff := cutoffDate clock now daysToKeep).
  assert (∀ l, countFiles BACKUP_DIR l (0%Z, 0)
               = (total_size (Catalog.json_paths BACKUP_DIR l),
                  List.length (Catalog.json_paths BACKUP_DIR l))) as Hcount.
  { intros l. rewrite countFiles_counts; [done|].
    apply List.Forall_forall. intros e _ d i t. apply countItem_counts. }
  rewrite !Hcount. do 4 eexists. refine (conj eq_refl (conj eq_refl _)).
  assert (Permutation (Catalog.json_paths BACKUP_DIR items)
            (Catalog.json_paths BACKUP_DIR
               (fst (scanDirectory cutoff BACKUP_DIR items))
             ++ unlinked (snd (scanDirectory cutoff BACKUP_DIR items)))) as Hsplit.
  { unfold Catalog.json_paths.
    destruct (scanDirectory_spec cutoff BACKUP_DIR items) as (-> & -> & _).
    apply Retention.split_by. intros f. unfold expired, Catalog.is_json.
    by intros [? _]%andb_prop. }
  split.
  - rewrite (Permutation_length Hsplit). by rewrite length_app.
  - rewrite (total_size_perm _ _ Hsplit). by rewrite total_size_app.
Qed.

End Count.

End Statistics.
